(** * A byte-stream copy utility with offset/limit windowing and text filters

    Shallow embedding of [homework/cmd/main.go]: flag validation, the
    [CaseReader] and [TrimReader] stream filters, reader and writer
    construction and the copy driver, together with the parts of Go's
    [unicode/utf8], [unicode], [strings], [io] and [os] packages that the
    program calls. *)

From Stdlib Require Import String Ascii Strings.Byte.
From Stdlib Require Import ZArith List Bool Lia Arith.
From Stdlib Require Import Wf_nat.
Import ListNotations.
Local Open Scope Z_scope.

(* ================================================================== *)
(** ** Bytes and slices *)

(** Go's [byte] is an unsigned 8-bit integer. *)
Definition b2z (b : byte) : Z := Z.of_N (Byte.to_N b).

(** The conversion [byte(x)] keeps the low eight bits. *)
Definition z2b (z : Z) : byte :=
  match Byte.of_N (Z.to_N (z mod 256)) with
  | Some b => b
  | None => x00
  end.

(** The conversion [rune(x)] / [int32(x)] with its wrap-around. *)
Definition int32 (z : Z) : Z := (z + 2 ^ 31) mod 2 ^ 32 - 2 ^ 31.

(** The conversion [int64(x)] of a [uint64] with its wrap-around. *)
Definition int64 (z : Z) : Z := (z + 2 ^ 63) mod 2 ^ 64 - 2 ^ 63.

(** [make([]byte, n)]. *)
Definition make (n : nat) : list byte := repeat x00 n.

(** The slice expression [s[lo:hi]]. *)
Definition slice (s : list byte) (lo hi : nat) : list byte :=
  firstn (hi - lo) (skipn lo s).

(** The byte sequence of a string literal. *)
Definition bytes_of (s : string) : list byte := list_byte_of_string s.

(* ================================================================== *)
(** ** Package [unicode/utf8] *)

Definition RuneError : Z := 0xFFFD.
Definition RuneSelf : Z := 0x80.
Definition MaxRune : Z := 0x10FFFF.
Definition UTFMax : nat := 4.

Definition surrogateMin : Z := 0xD800.
Definition surrogateMax : Z := 0xDFFF.

Definition tx : Z := 0x80.
Definition t2 : Z := 0xC0.
Definition t3 : Z := 0xE0.
Definition t4 : Z := 0xF0.

Definition maskx : Z := 0x3F.
Definition mask2 : Z := 0x1F.
Definition mask3 : Z := 0x0F.
Definition mask4 : Z := 0x07.

Definition rune1Max : Z := 0x7F.
Definition rune2Max : Z := 0x7FF.
Definition rune3Max : Z := 0xFFFF.

Definition locb : Z := 0x80.
Definition hicb : Z := 0xBF.

(** Information about the first byte of an encoding: the high nibble is
    an index into [acceptRanges], the low nibble the length. *)
Definition xx : Z := 0xF1.
Definition as_ : Z := 0xF0.
Definition s1 : Z := 0x02.
Definition s2 : Z := 0x13.
Definition s3 : Z := 0x03.
Definition s4 : Z := 0x23.
Definition s5 : Z := 0x34.
Definition s6 : Z := 0x04.
Definition s7 : Z := 0x44.

(** The table [first[256]], read by ranges of its index. *)
Definition first (b : byte) : Z :=
  let v := b2z b in
  if v <? 0x80 then as_
  else if v <? 0xC2 then xx
  else if v <? 0xE0 then s1
  else if v =? 0xE0 then s2
  else if v <? 0xED then s3
  else if v =? 0xED then s4
  else if v <? 0xF0 then s3
  else if v =? 0xF0 then s5
  else if v <? 0xF4 then s6
  else if v =? 0xF4 then s7
  else xx.

(** [acceptRanges[i]] as the pair (lo, hi) for the second byte. *)
Definition acceptRanges (i : Z) : Z * Z :=
  if i =? 0 then (locb, hicb)
  else if i =? 1 then (0xA0, hicb)
  else if i =? 2 then (locb, 0x9F)
  else if i =? 3 then (0x90, hicb)
  else if i =? 4 then (locb, 0x8F)
  else (0, 0).

(** [p[i]] for an index known to be in range. *)
Definition at_ (p : list byte) (i : nat) : Z := b2z (nth i p x00).

(** [utf8.DecodeRune]: the first rune of [p] and its width in bytes;
    [(RuneError, 0)] on empty input, [(RuneError, 1)] on an invalid or
    incomplete encoding. *)
Definition DecodeRune (p : list byte) : Z * nat :=
  let n := length p in
  if (n <? 1)%nat then (RuneError, 0%nat)
  else
    let p0 := at_ p 0 in
    let x := first (nth 0 p x00) in
    if as_ <=? x then
      let mask := Z.shiftr (int32 (Z.shiftl x 31)) 31 in
      (Z.lor (Z.land p0 (Z.lnot mask)) (Z.land RuneError mask), 1%nat)
    else
      let sz := Z.to_nat (Z.land x 7) in
      let accept := acceptRanges (Z.shiftr x 4) in
      if (n <? sz)%nat then (RuneError, 1%nat)
      else
        let b1 := at_ p 1 in
        if (b1 <? fst accept) || (snd accept <? b1) then (RuneError, 1%nat)
        else if (sz <=? 2)%nat then
          (Z.lor (Z.shiftl (Z.land p0 mask2) 6) (Z.land b1 maskx), 2%nat)
        else
          let b2 := at_ p 2 in
          if (b2 <? locb) || (hicb <? b2) then (RuneError, 1%nat)
          else if (sz <=? 3)%nat then
            (Z.lor (Z.lor (Z.shiftl (Z.land p0 mask3) 12)
                          (Z.shiftl (Z.land b1 maskx) 6))
                   (Z.land b2 maskx), 3%nat)
          else
            let b3 := at_ p 3 in
            if (b3 <? locb) || (hicb <? b3) then (RuneError, 1%nat)
            else
              (Z.lor (Z.lor (Z.lor (Z.shiftl (Z.land p0 mask4) 18)
                                   (Z.shiftl (Z.land b1 maskx) 12))
                            (Z.shiftl (Z.land b2 maskx) 6))
                     (Z.land b3 maskx), 4%nat).

(** [utf8.AppendRune(nil, r)], which is also the conversion
    [[]byte(string(r))]: the encoding of [r], with U+FFFD standing in for
    a rune that is out of range or a surrogate. *)
Definition AppendRune (r : Z) : list byte :=
  let i := r mod 2 ^ 32 in
  if i <=? rune1Max then [z2b r]
  else if i <=? rune2Max then
    [z2b (Z.lor t2 (Z.shiftr r 6)); z2b (Z.lor tx (Z.land r maskx))]
  else
    let enc3 (r : Z) :=
      [z2b (Z.lor t3 (Z.shiftr r 12));
       z2b (Z.lor tx (Z.land (Z.shiftr r 6) maskx));
       z2b (Z.lor tx (Z.land r maskx))] in
    if (MaxRune <? i) || ((surrogateMin <=? i) && (i <=? surrogateMax))
    then enc3 RuneError
    else if i <=? rune3Max then enc3 r
    else
      [z2b (Z.lor t4 (Z.shiftr r 18));
       z2b (Z.lor tx (Z.land (Z.shiftr r 12) maskx));
       z2b (Z.lor tx (Z.land (Z.shiftr r 6) maskx));
       z2b (Z.lor tx (Z.land r maskx))].


(* ================================================================== *)
(** ** Package [unicode] *)

Definition MaxASCII : Z := 0x7F.
Definition MaxLatin1 : Z := 0xFF.

Definition UpperCase : Z := 0.
Definition LowerCase : Z := 1.

(** The case tables of the Unicode character database ([unicode.CaseRanges],
    consulted through [unicode.To]) are not part of the program; they are
    taken as a parameter. *)
Class CaseTables := { unicode_To : Z -> Z -> Z }.

(** The entries of [unicode.White_Space] above Latin-1. *)
Definition White_Space_above_Latin1 : list (Z * Z) :=
  [(0x1680, 0x1680); (0x2000, 0x200a); (0x2028, 0x2029);
   (0x202f, 0x202f); (0x205f, 0x205f); (0x3000, 0x3000)].

(** [unicode.IsSpace]. *)
Definition IsSpace (r : Z) : bool :=
  if r mod 2 ^ 32 <=? MaxLatin1 then
    (r =? 0x09) || (r =? 0x0A) || (r =? 0x0B) || (r =? 0x0C) || (r =? 0x0D)
    || (r =? 0x20) || (r =? 0x85) || (r =? 0xA0)
  else existsb (fun '(lo, hi) => (lo <=? r) && (r <=? hi))
               White_Space_above_Latin1.

Section Unicode.
Context {tables : CaseTables}.

(** [unicode.ToUpper]. *)
Definition unicode_ToUpper (r : Z) : Z :=
  if r <=? MaxASCII then
    if (0x61 <=? r) && (r <=? 0x7A) then r - (0x61 - 0x41) else r
  else unicode_To UpperCase r.

(** [unicode.ToLower]. *)
Definition unicode_ToLower (r : Z) : Z :=
  if r <=? MaxASCII then
    if (0x41 <=? r) && (r <=? 0x5A) then r + (0x61 - 0x41) else r
  else unicode_To LowerCase r.
End Unicode.

(* ================================================================== *)
(** ** Package [strings] *)

(** [strings.Split(s, sep)] for a one-character separator; the program
    calls it with [","] only. *)
Fixpoint strings_Split (s : string) (sep : ascii) : list string :=
  match s with
  | EmptyString => [EmptyString]
  | String c s' =>
      if Ascii.eqb c sep then EmptyString :: strings_Split s' sep
      else match strings_Split s' sep with
           | h :: t => String c h :: t
           | [] => [String c EmptyString]
           end
  end.

(** The loop of [strings.Map] over the runes of [s]: an invalid byte reads
    as U+FFFD of width one, a negative result drops the character. *)
Fixpoint Map_loop (fuel : nat) (mapping : Z -> Z) (s : list byte) : list byte :=
  match fuel with
  | O => []
  | S fuel' =>
      match s with
      | [] => []
      | _ :: _ =>
          let '(c, width) := DecodeRune s in
          let r := mapping c in
          (if 0 <=? r then AppendRune r else [])
            ++ Map_loop fuel' mapping (skipn width s)
      end
  end.

(** [strings.Map]. *)
Definition strings_Map (mapping : Z -> Z) (s : list byte) : list byte :=
  Map_loop (length s) mapping s.

Definition isASCII (s : list byte) : bool :=
  forallb (fun c => b2z c <? RuneSelf) s.

Section Strings.
Context {tables : CaseTables}.

(** [strings.ToUpper]. *)
Definition strings_ToUpper (s : list byte) : list byte :=
  if isASCII s then
    let hasLower := existsb (fun c => (0x61 <=? b2z c) && (b2z c <=? 0x7A)) s in
    if negb hasLower then s
    else map (fun c => if (0x61 <=? b2z c) && (b2z c <=? 0x7A)
                       then z2b (b2z c - (0x61 - 0x41)) else c) s
  else strings_Map unicode_ToUpper s.

(** [strings.ToLower]. *)
Definition strings_ToLower (s : list byte) : list byte :=
  if isASCII s then
    let hasUpper := existsb (fun c => (0x41 <=? b2z c) && (b2z c <=? 0x5A)) s in
    if negb hasUpper then s
    else map (fun c => if (0x41 <=? b2z c) && (b2z c <=? 0x5A)
                       then z2b (b2z c + (0x61 - 0x41)) else c) s
  else strings_Map unicode_ToLower s.
End Strings.

(* ================================================================== *)
(** ** Errors *)

Inductive error : Type :=
| EOF                                (* io.EOF *)
| ErrInvalidConv (detail : string)   (* an error wrapping ErrInvalidConv *)
| ErrSkipping                        (* "error while skipping bytes" *)
| ErrNotExist (name : string)        (* os: the file does not exist *)
| ErrIO (msg : string).              (* any other failure of the system *)

Definition is_EOF (e : error) : bool :=
  match e with EOF => true | _ => false end.

Definition is_ErrInvalidConv (e : error) : bool :=
  match e with ErrInvalidConv _ => true | _ => false end.

(** [os.IsNotExist(err)]. *)
Definition IsNotExist (err : option error) : bool :=
  match err with Some (ErrNotExist _) => true | _ => false end.

(* ================================================================== *)
(** ** Flags *)

Record Options : Type := {
  From : string;
  To : string;
  Offset : Z;
  Limit : Z;
  BlockSize : Z;
  Conv : list string
}.

(** The keys of [convMap]. *)
Definition convMap : list string :=
  ["lower_case"; "upper_case"; "trim_spaces"]%string.

Definition convMap_has (val : string) : bool :=
  existsb (String.eqb val) convMap.

(** The [for _, val := range convValues] loop of [validatedConvs]. *)
Fixpoint validatedConvs_loop (convValues : list string) (hasLower hasUpper : bool)
  : bool * bool * option error :=
  match convValues with
  | [] => (hasLower, hasUpper, None)
  | val :: rest =>
      if negb (convMap_has val) then
        (hasLower, hasUpper, Some (ErrInvalidConv ("unknown conv " ++ val)))
      else if String.eqb val "lower_case" then
        validatedConvs_loop rest true hasUpper
      else if String.eqb val "upper_case" then
        validatedConvs_loop rest hasLower true
      else validatedConvs_loop rest hasLower hasUpper
  end.

Definition validatedConvs (convs : string) : list string * option error :=
  if (String.length convs =? 0)%nat then ([], None)
  else
    let convValues := strings_Split convs ","%char in
    match validatedConvs_loop convValues false false with
    | (_, _, Some err) => ([], Some err)
    | (hasLower, hasUpper, None) =>
        if hasLower && hasUpper then
          ([], Some (ErrInvalidConv
                       "lower and upper case cannot be used at the same time"))
        else (convValues, None)
    end.

(** The values of the command-line flags as [flag.Parse] stores them. *)
Record CommandLine : Type := {
  flag_from : string;
  flag_to : string;
  flag_offset : Z;
  flag_limit : Z;
  flag_block_size : Z;
  flag_conv : string
}.

(** [math.MaxInt] on a 64-bit platform. *)
Definition MaxInt : Z := 2 ^ 63 - 1.

(** The command line with no flag given. *)
Definition no_flags : CommandLine :=
  {| flag_from := ""; flag_to := ""; flag_offset := 0; flag_limit := MaxInt;
     flag_block_size := 1024; flag_conv := "" |}.

Definition ParseFlags (args : CommandLine) : option Options * option error :=
  match validatedConvs (flag_conv args) with
  | (_, Some err) => (None, Some err)
  | (convValues, None) =>
      (Some {| From := flag_from args; To := flag_to args;
               Offset := flag_offset args; Limit := flag_limit args;
               BlockSize := flag_block_size args; Conv := convValues |},
       None)
  end.

(* ================================================================== *)
(** ** Readers *)

(** What the operating system hands to one [read] call on an open file or
    on standard input: some bytes, or a failure.  A call never gets more
    than it asks for; what does not fit stays for the next call. *)
Inductive sysread : Type :=
| Data (c : list byte)
| Failure (e : error).

(** The implementations of [io.Reader] that the program builds. *)
Inductive reader : Type :=
| FileReader (pending : list sysread)
| LimitedReader (R : reader) (N : Z)
| CaseReader (reader0 : reader) (toUpper : bool) (mapped buffer : list byte)
| TrimReader (reader0 : reader) (buffer trimmed : list byte)
             (skippedSpaces : bool).

(** The result of [Read(p)]: the reader afterwards, the contents of [p]
    afterwards, and the returned [(n, err)]. *)
Definition read_result : Type := reader * list byte * nat * option error.

(** [Read] of [os.File]: on failure the count is zero; end of file is
    reported as [(0, io.EOF)]. *)
Definition File_Read (pending : list sysread) (p : list byte)
  : list sysread * list byte * nat * option error :=
  if (length p =? 0)%nat then (pending, p, 0%nat, None)
  else
    match pending with
    | [] => ([], p, 0%nat, Some EOF)
    | Data c :: rest =>
        let n := Nat.min (length p) (length c) in
        (if (n <? length c)%nat then Data (skipn n c) :: rest else rest,
         firstn n c ++ skipn n p, n, None)
    | Failure e :: rest => (rest, p, 0%nat, Some e)
    end.

(** [copyFromChecked(dst, src)]: the contents of [dst] afterwards, the
    rest of [src], and the number of bytes copied. *)
Definition copyFromChecked (dst src : list byte)
  : list byte * list byte * nat :=
  let length := Nat.min (length dst) (length src) in
  (firstn length src ++ skipn length dst, skipn length src, length).

Section Filters.
Context {tables : CaseTables}.

(** The decoding loop of [CaseReader.Read] over [cr.buffer], from index
    [i] with [cr.mapped] as given; returns the final [i] and
    [cr.mapped]. *)
Fixpoint CaseReader_loop (fuel : nat) (toUpper : bool) (buffer : list byte)
         (i : nat) (mapped : list byte) : nat * list byte :=
  match fuel with
  | O => (i, mapped)
  | S fuel' =>
      if (i <? length buffer)%nat then
        let '(r, runeSize) := DecodeRune (skipn i buffer) in
        if r =? RuneError then (i, mapped)
        else
          let mapped' :=
            if toUpper then mapped ++ strings_ToUpper (AppendRune r)
            else mapped ++ strings_ToLower (AppendRune r) in
          CaseReader_loop fuel' toUpper buffer (i + runeSize) mapped'
      else (i, mapped)
  end.

(** The decoding loop of [TrimReader.Read] over [tr.buffer]; returns the
    final [firstSpacePos], [tr.trimmed] and [tr.skippedSpaces]. *)
Fixpoint TrimReader_loop (fuel : nat) (buffer : list byte)
         (i firstSpacePos : nat) (trimmed : list byte) (skippedSpaces : bool)
  : nat * list byte * bool :=
  match fuel with
  | O => (firstSpacePos, trimmed, skippedSpaces)
  | S fuel' =>
      if (i <? length buffer)%nat then
        let '(r, runeSize) := DecodeRune (skipn i buffer) in
        if r =? RuneError then (firstSpacePos, trimmed, skippedSpaces)
        else if IsSpace r then
          TrimReader_loop fuel' buffer (i + runeSize) firstSpacePos
                          trimmed skippedSpaces
        else if skippedSpaces then
          TrimReader_loop fuel' buffer (i + runeSize) (i + runeSize)
            (trimmed ++ slice buffer firstSpacePos (i + runeSize)) true
        else
          TrimReader_loop fuel' buffer (i + runeSize) (i + runeSize)
            (trimmed ++ slice buffer i (i + runeSize)) true
      else (firstSpacePos, trimmed, skippedSpaces)
  end.

(** [Read(p)] on a reader.  Both filters call themselves again after a
    successful read from upstream; [fuel] bounds the depth of the calls,
    and [None] means that it ran out. *)
Fixpoint Read (fuel : nat) (rd : reader) (p : list byte)
  : option read_result :=
  match fuel with
  | O => None
  | S fuel' =>
      match rd with
      | FileReader pending =>
          let '(pending', p', n, err) := File_Read pending p in
          Some (FileReader pending', p', n, err)
      | LimitedReader R N =>
          if N <=? 0 then Some (rd, p, 0%nat, Some EOF)
          else
            let q := if N <? Z.of_nat (length p)
                     then firstn (Z.to_nat N) p else p in
            match Read fuel' R q with
            | None => None
            | Some (R', q', n, err) =>
                Some (LimitedReader R' (N - Z.of_nat n),
                      q' ++ skipn (length q) p, n, err)
            end
      | CaseReader up toUpper mapped buffer =>
          if negb (length mapped =? 0)%nat then
            let '(p', mapped', n) := copyFromChecked p mapped in
            Some (CaseReader up toUpper mapped' buffer, p', n, None)
          else
            match Read fuel' up (make (length p)) with
            | None => None
            | Some (up', buffer0, n, Some err) =>
                Some (CaseReader up' toUpper mapped buffer, p, n, Some err)
            | Some (up', buffer0, n, None) =>
                let buffer1 := buffer ++ firstn n buffer0 in
                let '(i, mapped') :=
                  CaseReader_loop (length buffer1) toUpper buffer1 0 mapped in
                Read fuel' (CaseReader up' toUpper mapped' (skipn i buffer1)) p
            end
      | TrimReader up buffer trimmed skippedSpaces =>
          if negb (length trimmed =? 0)%nat then
            let '(p', trimmed', n) := copyFromChecked p trimmed in
            Some (TrimReader up buffer trimmed' skippedSpaces, p', n, None)
          else
            match Read fuel' up (make (length p)) with
            | None => None
            | Some (up', buffer0, n, Some err) =>
                Some (TrimReader up' buffer trimmed skippedSpaces,
                      p, n, Some err)
            | Some (up', buffer0, n, None) =>
                let buffer1 := buffer ++ firstn n buffer0 in
                let '(firstSpacePos, trimmed', skippedSpaces') :=
                  TrimReader_loop (length buffer1) buffer1 0 0
                                  trimmed skippedSpaces in
                Read fuel' (TrimReader up' (skipn firstSpacePos buffer1)
                                       trimmed' skippedSpaces') p
            end
      end
  end.

(** [io.LimitReader(r, n)]. *)
Definition LimitReader (r : reader) (n : Z) : reader := LimitedReader r n.

(** The size of the blocks of [io.Discard]'s pool. *)
Definition blackHole_size : nat := 8 * 1024.

(** [io.discard.ReadFrom], the loop behind [io.Copy(io.Discard, r)]:
    reads blocks of 8192 bytes until an error; end of stream is not
    reported as one. *)
Fixpoint discard_ReadFrom (fuel : nat) (r : reader) (n : Z)
  : option (reader * Z * option error) :=
  match fuel with
  | O => None
  | S fuel' =>
      match Read fuel' r (make blackHole_size) with
      | None => None
      | Some (r', _, readSize, err) =>
          let n := n + Z.of_nat readSize in
          match err with
          | Some e => Some (r', n, if is_EOF e then None else Some e)
          | None => discard_ReadFrom fuel' r' n
          end
      end
  end.

(** [io.CopyN(io.Discard, src, n)]; also returns [src] as the copy
    leaves it. *)
Definition CopyN_Discard (fuel : nat) (src : reader) (n : Z)
  : option (reader * Z * option error) :=
  match discard_ReadFrom fuel (LimitReader src n) 0 with
  | None => None
  | Some (lr, written, err) =>
      let src' := match lr with LimitedReader R _ => R | _ => src end in
      if written =? n then Some (src', n, None)
      else
        match err with
        | None => if written <? n then Some (src', written, Some EOF)
                  else Some (src', written, None)
        | Some _ => Some (src', written, err)
        end
  end.
End Filters.

(* ================================================================== *)
(** ** The process and its environment *)

(** The files by name, what standard input will deliver, and what has
    been written to standard output and standard error. *)
Record World : Type := {
  files : list (string * list byte);
  stdin : list sysread;
  stdout : list byte;
  stderr : list string
}.

Fixpoint lookup (name : string) (fs : list (string * list byte))
  : option (list byte) :=
  match fs with
  | [] => None
  | (k, v) :: rest => if String.eqb k name then Some v else lookup name rest
  end.

Fixpoint store (name : string) (v : list byte) (fs : list (string * list byte))
  : list (string * list byte) :=
  match fs with
  | [] => [(name, v)]
  | (k, v') :: rest =>
      if String.eqb k name then (k, v) :: rest
      else (k, v') :: store name v rest
  end.

(** [os.Open]: a regular file delivers its contents as far as each read
    asks for them. *)
Definition os_Open (w : World) (name : string) : option reader * option error :=
  match lookup name (files w) with
  | Some [] => (Some (FileReader []), None)
  | Some content => (Some (FileReader [Data content]), None)
  | None => (None, Some (ErrNotExist name))
  end.

(** What the files of the world do not tell: for a path that names none
    of them, the error with which [os.Stat] fails (that the file does
    not exist, or another one, such as a component of the path that is
    no directory) and the error with which [os.Create] fails, if it
    does (a directory that is missing, a permission that is denied);
    and the lines that the runtime prints after the first line of the
    report of a panic with a given message. *)
Class System : Type := {
  stat_error : string -> error;
  create_error : string -> option error;
  panic_trace : string -> list string
}.

(** [os.Stat], as far as its error goes. *)
Definition os_Stat {system : System} (w : World) (name : string)
  : option error :=
  match lookup name (files w) with
  | Some _ => None
  | None => Some (stat_error name)
  end.

(** The implementations of [io.Writer] that the program uses. *)
Inductive writer : Type :=
| Stdout
| FileWriter (name : string).

(** [os.Create]: the file is created or truncated, unless the system
    refuses. *)
Definition os_Create {system : System} (w : World) (name : string)
  : option writer * option error * World :=
  match create_error name with
  | Some err => (None, Some err, w)
  | None =>
      (Some (FileWriter name), None,
       {| files := store name [] (files w); stdin := stdin w;
          stdout := stdout w; stderr := stderr w |})
  end.

(** [Write(b)] on a writer. *)
Definition Write (w : World) (dst : writer) (b : list byte) : World :=
  match dst with
  | Stdout =>
      {| files := files w; stdin := stdin w;
         stdout := stdout w ++ b; stderr := stderr w |}
  | FileWriter name =>
      {| files := store name
                    (match lookup name (files w) with
                     | Some old => old ++ b
                     | None => b
                     end) (files w);
         stdin := stdin w; stdout := stdout w; stderr := stderr w |}
  end.

Definition Fprintln_stderr (w : World) (msg : string) : World :=
  {| files := files w; stdin := stdin w; stdout := stdout w;
     stderr := stderr w ++ [msg] |}.

Definition set_stdin (w : World) (pending : list sysread) : World :=
  {| files := files w; stdin := pending; stdout := stdout w;
     stderr := stderr w |}.

(** The open file at the bottom of a chain of readers. *)
Fixpoint source_of (r : reader) : list sysread :=
  match r with
  | FileReader pending => pending
  | LimitedReader R _ => source_of R
  | CaseReader up _ _ _ => source_of up
  | TrimReader up _ _ _ => source_of up
  end.

(** How a run of the process ends: with [os.Exit(code)] or the return
    of [main], or with a panic that nothing recovers. *)
Inductive outcome : Type :=
| Exit (code : Z)
| Panic (msg : string).

(** The status with which the process ends; the runtime ends a process
    that panics with status 2. *)
Definition exit_status (o : outcome) : Z :=
  match o with
  | Exit code => code
  | Panic _ => 2
  end.

(** The message of the run-time panic of a call through nil. *)
Definition nil_dereference : string :=
  "runtime error: invalid memory address or nil pointer dereference".

(** The message of the run-time panic of [make] with a length that is
    out of range. *)
Definition makeslice_len : string :=
  "runtime error: makeslice: len out of range".

(** The largest allocation that the runtime attempts, on a 64-bit
    platform with 48 bits of heap address. *)
Definition maxAlloc : Z := 2 ^ 48.

(** The world after a panic that nothing recovers: the runtime writes
    its report to standard error, the message first. *)
Definition runtime_panic {system : System} (w : World) (msg : string)
  : World :=
  {| files := files w; stdin := stdin w; stdout := stdout w;
     stderr := stderr w ++ ("panic: " ++ msg)%string :: panic_trace msg |}.

Section Program.
Context {tables : CaseTables} {system : System}.

(** The [for _, val := range opts.Conv] loop of [CreateReader]. *)
Fixpoint CreateReader_chain (conv : list string) (reader0 : reader) : reader :=
  match conv with
  | [] => reader0
  | val :: rest =>
      CreateReader_chain rest
        (if String.eqb val "lower_case" then CaseReader reader0 false [] []
         else if String.eqb val "upper_case" then CaseReader reader0 true [] []
         else if String.eqb val "trim_spaces" then TrimReader reader0 [] [] false
         else reader0)
  end.

(** [CreateReader(opts)]; standard input is left in [World] as the
    skipping has consumed it. *)
Definition CreateReader (fuel : nat) (opts : Options) (w : World)
  : option (option reader * option error * World) :=
  let keep (r : reader) : World :=
    if String.eqb (From opts) "" then set_stdin w (source_of r) else w in
  match (if String.eqb (From opts) ""
         then (Some (FileReader (stdin w)), None)
         else os_Open w (From opts)) with
  | (_, Some err) => Some (None, Some err, w)
  | (None, None) => Some (None, None, w)
  | (Some reader0, None) =>
      match CopyN_Discard fuel reader0 (int64 (Offset opts)) with
      | None => None
      | Some (reader1, n, Some err) => Some (None, Some err, keep reader1)
      | Some (reader1, n, None) =>
          if n <? int64 (Offset opts) then
            Some (None, Some ErrSkipping, keep reader1)
          else
            let reader2 := LimitReader reader1 (int64 (Limit opts)) in
            Some (Some (CreateReader_chain (Conv opts) reader2), None,
                  keep reader1)
      end
  end.

(** [createWriter(to)]. *)
Definition createWriter (to : string) (w : World)
  : option writer * option error * World :=
  if String.eqb to "" then (Some Stdout, None, w)
  else
    let err := os_Stat w to in
    if negb (IsNotExist err) then (None, err, w)
    else os_Create w to.

(** The loop of [io.CopyBuffer(struct{ io.Writer }{writer}, reader, buf)]
    for a non-empty [buf]: the reader and the world afterwards and the
    returned error, or the panic of a call through a nil writer. *)
Fixpoint copyBuffer (fuel : nat) (dst : option writer) (src : reader)
         (buf : list byte) (w : World)
  : option (reader * World * (option error + string)) :=
  match fuel with
  | O => None
  | S fuel' =>
      match Read fuel' src buf with
      | None => None
      | Some (src', buf', nr, er) =>
          let wrote :=
            if (0 <? nr)%nat then
              match dst with
              | Some d => inl (Write w d (firstn nr buf'))
              | None => inr nil_dereference
              end
            else inl w in
          match wrote with
          | inr msg => Some (src', w, inr msg)
          | inl w' =>
              match er with
              | Some e => Some (src', w', inl (if is_EOF e then None else Some e))
              | None => copyBuffer fuel' dst src' buf' w'
              end
          end
      end
  end.

(** [io.CopyBuffer]. *)
Definition CopyBuffer (fuel : nat) (dst : option writer) (src : reader)
           (buf : list byte) (w : World)
  : option (reader * World * (option error + string)) :=
  if (length buf =? 0)%nat then Some (src, w, inr "empty buffer in CopyBuffer"%string)
  else copyBuffer fuel dst src buf w.

(** The text of an error, as far as the program tells errors apart. *)
Definition Error (e : error) : string :=
  match e with
  | EOF => "EOF"
  | ErrInvalidConv detail => "invalid argument of -conv: " ++ detail
  | ErrSkipping => "error while skipping bytes"
  | ErrNotExist name => "open " ++ name ++ ": no such file or directory"
  | ErrIO msg => msg
  end.

(** [main]: the outcome and the world the process leaves behind.  The
    buffer of the copy is made after the writer: [make] panics for a
    length beyond [maxAlloc]; below that the allocation is taken to
    succeed. *)
Definition main (fuel : nat) (args : CommandLine) (w : World)
  : option (outcome * World) :=
  match ParseFlags args with
  | (_, Some err) =>
      Some (Exit 1, Fprintln_stderr w ("can not parse flags: " ++ Error err))
  | (None, None) =>
      Some (Panic nil_dereference, runtime_panic w nil_dereference)
  | (Some opts, None) =>
      match CreateReader fuel opts w with
      | None => None
      | Some (_, Some err, w1) =>
          Some (Exit 1,
                Fprintln_stderr w1 ("can not create reader: " ++ Error err))
      | Some (None, None, w1) =>
          Some (Panic nil_dereference, runtime_panic w1 nil_dereference)
      | Some (Some reader0, None, w1) =>
          match createWriter (To opts) w1 with
          | (_, Some err, w2) =>
              Some (Exit 1,
                    Fprintln_stderr w2 ("can not create writer: " ++ Error err))
          | (writer0, None, w2) =>
              let fin (r : reader) (w : World) :=
                if String.eqb (From opts) "" then set_stdin w (source_of r)
                else w in
              if maxAlloc <? BlockSize opts then
                Some (Panic makeslice_len, runtime_panic w2 makeslice_len)
              else
              match CopyBuffer fuel writer0 reader0
                               (make (Z.to_nat (BlockSize opts))) w2 with
              | None => None
              | Some (r, w3, inr msg) =>
                  Some (Panic msg, runtime_panic (fin r w3) msg)
              | Some (r, w3, inl (Some err)) =>
                  Some (Exit 1,
                        Fprintln_stderr (fin r w3)
                                        ("error while copping: " ++ Error err))
              | Some (r, w3, inl None) => Some (Exit 0, fin r w3)
              end
          end
      end
  end.
End Program.

(* ================================================================== *)
(** ** Draining a reader, and what a reader stands for *)

(** The data of a script of reads, and whether it is free of failures. *)
Fixpoint data_of (script : list sysread) : list byte :=
  match script with
  | [] => []
  | Data c :: rest => c ++ data_of rest
  | Failure _ :: rest => data_of rest
  end.

Fixpoint failure_free (script : list sysread) : bool :=
  match script with
  | [] => true
  | Data _ :: rest => failure_free rest
  | Failure _ :: _ => false
  end.

(** Decoding from the start of [s] for as long as [DecodeRune] does not
    report [RuneError]: the runes with their encodings, and the rest of
    [s] from where decoding stopped. *)
Fixpoint decode_run (fuel : nat) (s : list byte)
  : list (Z * list byte) * list byte :=
  match fuel with
  | O => ([], s)
  | S fuel' =>
      match s with
      | [] => ([], [])
      | _ :: _ =>
          let '(r, k) := DecodeRune s in
          if r =? RuneError then ([], s)
          else
            let '(rs, rest) := decode_run fuel' (skipn k s) in
            ((r, firstn k s) :: rs, rest)
      end
  end.

Definition runes_of (s : list byte) : list (Z * list byte) :=
  fst (decode_run (length s) s).

Definition carry_of (s : list byte) : list byte :=
  snd (decode_run (length s) s).

(** [c] is the encoding of exactly one character that [DecodeRune] does
    not report as [RuneError]. *)
Definition is_char (c : list byte) : bool :=
  negb (fst (DecodeRune c) =? RuneError)
  && (snd (DecodeRune c) =? length c)%nat.

Definition rune_of (c : list byte) : Z := fst (DecodeRune c).

Definition is_space_char (c : list byte) : bool :=
  is_char c && IsSpace (rune_of c).

Definition is_ink_char (c : list byte) : bool :=
  is_char c && negb (IsSpace (rune_of c)).

(** A text without leading and trailing white space: empty, or a
    sequence of characters that starts and ends with one that is not
    white space. *)
Definition is_core (cs : list (list byte)) : bool :=
  forallb is_char cs
  && match cs with
     | [] => true
     | c :: _ => is_ink_char c && is_ink_char (last cs c)
     end.

(** What [TrimReader]'s loop does with a sequence of runes: the bytes it
    appends to [trimmed], the white space it holds back, and the flag. *)
Fixpoint trim_runes (skipped : bool) (held : list byte)
         (rs : list (Z * list byte)) : list byte * list byte * bool :=
  match rs with
  | [] => ([], held, skipped)
  | (r, c) :: rs' =>
      if IsSpace r then trim_runes skipped (held ++ c) rs'
      else
        let '(out, held', skipped') := trim_runes true [] rs' in
        ((if skipped then held ++ c else c) ++ out, held', skipped')
  end.

Definition trim_out (skipped : bool) (s : list byte) : list byte :=
  fst (fst (trim_runes skipped [] (runes_of s))).

Section Semantics.
Context {tables : CaseTables}.

(** What [CaseReader]'s loop appends to [mapped] for one rune. *)
Definition case_rune (toUpper : bool) (r : Z) : list byte :=
  if toUpper then strings_ToUpper (AppendRune r)
  else strings_ToLower (AppendRune r).

Definition case_runes (toUpper : bool) (rs : list (Z * list byte))
  : list byte :=
  flat_map (fun rc => case_rune toUpper (fst rc)) rs.

Definition case_out (toUpper : bool) (s : list byte) : list byte :=
  case_runes toUpper (runes_of s).

(** The case transform of a whole input, as the library computes it. *)
Definition case_transform (toUpper : bool) (s : list byte) : list byte :=
  if toUpper then strings_ToUpper s else strings_ToLower s.

(** A caller that drains a reader: the [k]-th call passes a fresh
    buffer of [sizes k] bytes, the bytes that each call reports are
    concatenated, and the end of the stream ends the loop without an
    error. *)
Fixpoint ReadAll (fuel : nat) (sizes : nat -> nat) (k : nat) (rd : reader)
  : option (list byte * option error) :=
  match fuel with
  | O => None
  | S fuel' =>
      match Read fuel' rd (make (sizes k)) with
      | None => None
      | Some (rd', p', n, Some e) =>
          Some (firstn n p', if is_EOF e then None else Some e)
      | Some (rd', p', n, None) =>
          match ReadAll fuel' sizes (S k) rd' with
          | None => None
          | Some (out, err) => Some (firstn n p' ++ out, err)
          end
      end
  end.

(** One call delivers from the front of [s]: it puts the first [n]
    bytes of [s] at the front of [p] and reports [n], or it reports the
    end of the stream when [s] is empty. *)
Definition delivers (s p : list byte) (res : read_result) : Prop :=
  let '(_, p', n, err) := res in
  match err with
  | None =>
      (n <= length p)%nat /\ (n <= length s)%nat
      /\ p' = firstn n s ++ skipn n p
  | Some e => e = EOF /\ n = 0%nat /\ p' = p /\ s = []
  end.

(** The reader [rd] stands for the byte sequence [s]: every call with a
    non-empty buffer returns and delivers from the front of [s], and
    the reader it leaves stands for the rest. *)
Inductive Yields : reader -> list byte -> Prop :=
| Yields_intro (rd : reader) (s : list byte) :
    (forall p, (1 <= length p)%nat ->
               exists fuel res, Read fuel rd p = Some res /\ delivers s p res) ->
    (forall p fuel rd' p' n,
        (1 <= length p)%nat ->
        Read fuel rd p = Some (rd', p', n, None) ->
        Yields rd' (skipn n s)) ->
    Yields rd s.

(** The carry buffers of a chain of filters: that of a [CaseReader]
    starts with bytes at which [DecodeRune] reports [RuneError], or is
    empty; that of a [TrimReader] holds white space up to such a
    point. *)
Fixpoint carry_ok (rd : reader) : Prop :=
  match rd with
  | FileReader _ => True
  | LimitedReader R _ => carry_ok R
  | CaseReader up _ _ buffer => runes_of buffer = [] /\ carry_ok up
  | TrimReader up buffer _ _ =>
      forallb (fun rc => IsSpace (fst rc)) (runes_of buffer) = true
      /\ carry_ok up
  end.

(** The reading of the carry invariant under which no filter keeps a
    decodable character back. *)
Fixpoint carry_undecodable (rd : reader) : Prop :=
  match rd with
  | FileReader _ => True
  | LimitedReader R _ => carry_undecodable R
  | CaseReader up _ _ buffer => runes_of buffer = [] /\ carry_undecodable up
  | TrimReader up buffer _ _ => runes_of buffer = [] /\ carry_undecodable up
  end.
End Semantics.

(* ================================================================== *)
(** ** Further notions used by the statements *)




(** The carry buffer of a filter. *)
Definition carry_buffer (rd : reader) : list byte :=
  match rd with
  | CaseReader _ _ _ buffer => buffer
  | TrimReader _ buffer _ _ => buffer
  | _ => []
  end.

(** The error that an open file reports first: that of its first failing
    read, or the end of the file. *)
Fixpoint first_failure (script : list sysread) : error :=
  match script with
  | [] => EOF
  | Data _ :: rest => first_failure rest
  | Failure e :: _ => e
  end.

(** What the source of a configuration will deliver, if it can be
    opened: standard input, or the contents of the named file. *)
Definition source_script (opts : Options) (w : World)
  : option (list sysread) :=
  if String.eqb (From opts) "" then Some (stdin w)
  else match lookup (From opts) (files w) with
       | Some [] => Some []
       | Some content => Some [Data content]
       | None => None
       end.

(** The input decodes from its first byte to its last without
    [DecodeRune] reporting [RuneError]. *)
Definition decodes_fully (s : list byte) : Prop := carry_of s = [].

(** Case tables that leave every rune above ASCII as it is; they stand in
    for the Unicode tables where an example needs some. *)
Definition identity_tables : CaseTables := {| unicode_To := fun _ r => r |}.

(** A system on which every path that names no file can be created, and
    whose panic reports go on with the line of the goroutine. *)
Definition usual_system : System :=
  {| stat_error := ErrNotExist;
     create_error := fun _ => None;
     panic_trace := fun _ => ["goroutine 1 [running]:"%string] |}.

(** A system on which the directory [nodir] is missing and [in.txt] is
    a file, not a directory. *)
Definition strict_system : System :=
  {| stat_error := fun name =>
       if String.eqb name "in.txt/new.txt"
       then ErrIO "stat in.txt/new.txt: not a directory"
       else ErrNotExist name;
     create_error := fun name =>
       if String.eqb name "nodir/new.txt" then Some (ErrNotExist name)
       else None;
     panic_trace := fun _ => ["goroutine 1 [running]:"%string] |}.

(** A world with one input file and one existing output file. *)
Definition world_of (input : list byte) : World :=
  {| files := [("in.txt"%string, input); ("out.txt"%string, bytes_of "old")];
     stdin := []; stdout := []; stderr := [] |}.

(** The command line [-from in.txt -to out.txt]. *)
Definition in_to_out : CommandLine :=
  {| flag_from := "in.txt"; flag_to := "out.txt"; flag_offset := 0;
     flag_limit := MaxInt; flag_block_size := 1024; flag_conv := "" |}.

(** What [CaseReader] appends for a rune when it goes through
    [strings.Map]: the encoding of the mapped rune, or nothing when the
    mapping is negative. *)
Definition mapped_rune (mapping : Z -> Z) (r : Z) : list byte :=
  if 0 <=? mapping r then AppendRune (mapping r) else [].

(** The shape that [strings.ToUpper] and [strings.ToLower] share: the
    bytes from [lo] to [hi] are moved by [d] when the string is ASCII,
    and [strings.Map] does the work otherwise. *)
Definition ascii_or_map (lo hi d : Z) (mapping : Z -> Z) (s : list byte)
  : list byte :=
  if isASCII s then
    let has := existsb (fun c => (lo <=? b2z c) && (b2z c <=? hi)) s in
    if negb has then s
    else map (fun c => if (lo <=? b2z c) && (b2z c <=? hi)
                       then z2b (b2z c + d) else c) s
  else strings_Map mapping s.

(** The ASCII letters, byte by byte. *)
Definition upper_byte (c : byte) : byte :=
  if (0x61 <=? b2z c) && (b2z c <=? 0x7A) then z2b (b2z c - 0x20) else c.

Definition lower_byte (c : byte) : byte :=
  if (0x41 <=? b2z c) && (b2z c <=? 0x5A) then z2b (b2z c + 0x20) else c.

(** [strings.Join(elems, sep)] for a one-character separator. *)
Fixpoint strings_Join (elems : list string) (sep : ascii) : string :=
  match elems with
  | [] => EmptyString
  | [e] => e
  | e :: rest => (e ++ String sep (strings_Join rest sep))%string
  end.

(** Whether a string has a given character. *)
Fixpoint has_char (a : ascii) (s : string) : bool :=
  match s with
  | EmptyString => false
  | String c s' => Ascii.eqb c a || has_char a s'
  end.

(** The world after the bytes [s] have gone to the writer [d] in one or
    more writes; nothing is written when there are none. *)
Definition after_writes (w : World) (d : writer) (s : list byte) : World :=
  match s with
  | [] => w
  | _ :: _ => Write w d s
  end.

Section Pipeline.
Context {tables : CaseTables}.

(** What one named transformation makes of a whole stream, and what a
    list of them makes of it, the first one first. *)
Definition apply_conv (val : string) (s : list byte) : list byte :=
  if String.eqb val "lower_case" then case_out false s
  else if String.eqb val "upper_case" then case_out true s
  else if String.eqb val "trim_spaces" then trim_out false s
  else s.

Definition apply_convs (conv : list string) (s : list byte) : list byte :=
  fold_left (fun acc val => apply_conv val acc) conv s.

(** The window of a source that the options ask for. *)
Definition window (opts : Options) (s : list byte) : list byte :=
  firstn (Z.to_nat (Limit opts)) (skipn (Z.to_nat (Offset opts)) s).
End Pipeline.

(** What [os.Open] makes of the contents of a file. *)
Definition file_script (content : list byte) : list sysread :=
  match content with
  | [] => []
  | _ :: _ => [Data content]
  end.

(** The options that [ParseFlags] makes of a command line whose
    transformations are [conv]. *)
Definition options_of (args : CommandLine) (conv : list string) : Options :=
  {| From := flag_from args; To := flag_to args;
     Offset := flag_offset args; Limit := flag_limit args;
     BlockSize := flag_block_size args; Conv := conv |}.

(** The world with more on standard output, and with a file replaced. *)
Definition with_stdout (w : World) (out : list byte) : World :=
  {| files := files w; stdin := stdin w; stdout := stdout w ++ out;
     stderr := stderr w |}.

Definition with_file (w : World) (name : string) (content : list byte)
  : World :=
  {| files := store name content (files w); stdin := stdin w;
     stdout := stdout w; stderr := stderr w |}.

(** The command line [-from in.txt -offset o -limit l -block-size b
    -conv c -to t]. *)
Definition command (o l b : Z) (c t : string) : CommandLine :=
  {| flag_from := "in.txt"; flag_to := t; flag_offset := o;
     flag_limit := l; flag_block_size := b; flag_conv := c |}.

(** The reader [r] on a source that has the reads [tail] after those
    that [r]'s source has. *)
Fixpoint then_reads (tail : list sysread) (r : reader) : reader :=
  match r with
  | FileReader pending => FileReader (pending ++ tail)
  | LimitedReader R N => LimitedReader (then_reads tail R) N
  | CaseReader up toUpper mapped buffer =>
      CaseReader (then_reads tail up) toUpper mapped buffer
  | TrimReader up buffer trimmed skipped =>
      TrimReader (then_reads tail up) buffer trimmed skipped
  end.

(** The reads of the source do not fail, and the limited reader, which
    sits on the source, allows more bytes than the source has. *)
Fixpoint roomy (r : reader) : Prop :=
  match r with
  | FileReader pending => failure_free pending = true
  | LimitedReader R N =>
      roomy R
      /\ match R with
         | FileReader pending => Z.of_nat (length (data_of pending)) < N
         | _ => False
         end
  | CaseReader up _ _ _ => roomy up
  | TrimReader up _ _ _ => roomy up
  end.

(* ================================================================== *)
(** * Properties *)

(** ** Decoding *)

Lemma first_cases b :
  first b = as_ \/ first b = xx \/ first b = s1 \/ first b = s2 \/ first b = s3
  \/ first b = s4 \/ first b = s5 \/ first b = s6 \/ first b = s7.
Proof.
  unfold first.
  repeat match goal with
         | |- context [if ?c then _ else _] => destruct c
         end; tauto.
Qed.

Lemma first_size b :
  (as_ <=? first b) = false ->
  (2 <= Z.to_nat (Z.land (first b) 7) <= 4)%nat.
Proof.
  destruct (first_cases b) as [E|[E|[E|[E|[E|[E|[E|[E|E]]]]]]]];
    rewrite E; vm_compute; intros; try discriminate; lia.
Qed.

Lemma at_app s t i : (i < length s)%nat -> at_ (s ++ t) i = at_ s i.
Proof. intros; unfold at_; now rewrite app_nth1. Qed.

Lemma DecodeRune_nil : DecodeRune [] = (RuneError, 0%nat).
Proof. reflexivity. Qed.

(** A rune that decodes without error is found within the input, and
    more input after it does not change it. *)
(** Splits an equation between pairs without computing the components. *)
Ltac pair_inv H :=
  apply pair_equal_spec in H;
  let H1 := fresh in let H2 := fresh in
  destruct H as [H1 H2]; try subst.

Lemma DecodeRune_app s t r k :
  DecodeRune s = (r, k) -> r <> RuneError ->
  (1 <= k <= length s)%nat /\ DecodeRune (s ++ t) = (r, k).
Proof.
  intros H Hr.
  destruct s as [|p0 s']; [inversion H; subst; contradiction|].
  unfold DecodeRune in *.
  rewrite !(at_app (p0 :: s') t 0) by (cbn; lia).
  change (nth 0 ((p0 :: s') ++ t) x00) with p0.
  change (nth 0 (p0 :: s') x00) with p0 in H.
  replace (length ((p0 :: s') ++ t) <? 1)%nat with false
    by (symmetry; apply Nat.ltb_ge; cbn; lia).
  change (length (p0 :: s') <? 1)%nat with false in H.
  cbv iota in H |- *.
  destruct (as_ <=? first p0) eqn:Ha.
  { pair_inv H. split; [cbn [length]; lia|reflexivity]. }
  pose proof (first_size p0 Ha) as Hsz.
  set (sz := Z.to_nat (Z.land (first p0) 7)) in *.
  set (accept := acceptRanges (Z.shiftr (first p0) 4)) in *.
  cbv zeta in H |- *.
  destruct (length (p0 :: s') <? sz)%nat eqn:Hn;
    [inversion H; subst; contradiction|].
  apply Nat.ltb_ge in Hn.
  replace (length ((p0 :: s') ++ t) <? sz)%nat with false
    by (symmetry; apply Nat.ltb_ge; rewrite length_app; lia).
  rewrite (at_app (p0 :: s') t 1) by lia.
  destruct ((at_ (p0 :: s') 1 <? fst accept) || (snd accept <? at_ (p0 :: s') 1));
    [inversion H; subst; contradiction|].
  destruct (sz <=? 2)%nat eqn:H2.
  { pair_inv H. split; [lia|reflexivity]. }
  apply Nat.leb_gt in H2.
  rewrite (at_app (p0 :: s') t 2) by lia.
  destruct ((at_ (p0 :: s') 2 <? locb) || (hicb <? at_ (p0 :: s') 2));
    [inversion H; subst; contradiction|].
  destruct (sz <=? 3)%nat eqn:H3.
  { pair_inv H. split; [lia|reflexivity]. }
  apply Nat.leb_gt in H3.
  rewrite (at_app (p0 :: s') t 3) by lia.
  destruct ((at_ (p0 :: s') 3 <? locb) || (hicb <? at_ (p0 :: s') 3));
    [inversion H; subst; contradiction|].
  pair_inv H. split; [lia|reflexivity].
Qed.

Arguments DecodeRune_app s t [r k] _ _.

(** The width that [DecodeRune] reports for non-empty input. *)
Lemma DecodeRune_size s : s <> [] -> (1 <= snd (DecodeRune s) <= 4)%nat.
Proof.
  intros Hs. destruct s as [|p0 s']; [contradiction|].
  unfold DecodeRune.
  change (length (p0 :: s') <? 1)%nat with false. cbv iota zeta.
  repeat match goal with
         | |- context [if ?c then _ else _] => destruct c
         end; cbn; lia.
Qed.

(** A rune that decodes without error depends on its own bytes only. *)
Lemma DecodeRune_firstn s r k :
  DecodeRune s = (r, k) -> r <> RuneError ->
  DecodeRune (firstn k s) = (r, k).
Proof.
  intros H Hr.
  destruct (DecodeRune (firstn k s)) as [r' k'] eqn:E.
  destruct (Z.eq_dec r' RuneError) as [->|Hr'].
  - (* the prefix cannot be in error: compare the two runs test by test *)
    exfalso.
    pose proof (DecodeRune_app s [] H Hr) as [Hk _].
    destruct s as [|p0 s']; [cbn in Hk; lia|].
    unfold DecodeRune in H, E.
    assert (Hl : length (firstn k (p0 :: s')) = k)
      by (rewrite length_firstn; lia).
    rewrite Hl in E.
    assert (Hat : forall i, (i < k)%nat ->
                            at_ (firstn k (p0 :: s')) i = at_ (p0 :: s') i).
    { intros i Hi. unfold at_.
      rewrite <- (firstn_skipn k (p0 :: s')) at 2.
      rewrite app_nth1 by lia. reflexivity. }
    replace (nth 0 (firstn k (p0 :: s')) x00) with p0 in E
      by (destruct k; [lia|reflexivity]).
    change (nth 0 (p0 :: s') x00) with p0 in H.
    rewrite (Hat 0%nat) in E by lia.
    change (length (p0 :: s') <? 1)%nat with false in H.
    replace (k <? 1)%nat with false in E
      by (symmetry; apply Nat.ltb_ge; lia).
    cbv iota in H, E.
    destruct (as_ <=? first p0) eqn:Ha.
    { pair_inv H. pair_inv E. now apply Hr. }
    pose proof (first_size p0 Ha) as Hsz.
    set (sz := Z.to_nat (Z.land (first p0) 7)) in *.
    set (accept := acceptRanges (Z.shiftr (first p0) 4)) in *.
    cbv zeta in H, E.
    destruct (length (p0 :: s') <? sz)%nat eqn:Hn;
      [inversion H; subst; contradiction|].
    destruct ((at_ (p0 :: s') 1 <? fst accept) || (snd accept <? at_ (p0 :: s') 1))
      eqn:T1; [inversion H; subst; contradiction|].
    destruct (sz <=? 2)%nat eqn:H2.
    { pair_inv H. apply Nat.leb_le in H2.
      replace (2 <? sz)%nat with false in E
        by (symmetry; apply Nat.ltb_ge; lia).
      rewrite (Hat 1%nat) in E by lia. rewrite T1 in E.
      pair_inv E. now apply Hr. }
    apply Nat.leb_gt in H2.
    destruct ((at_ (p0 :: s') 2 <? locb) || (hicb <? at_ (p0 :: s') 2))
      eqn:T2; [inversion H; subst; contradiction|].
    destruct (sz <=? 3)%nat eqn:H3.
    { pair_inv H. apply Nat.leb_le in H3.
      replace (3 <? sz)%nat with false in E
        by (symmetry; apply Nat.ltb_ge; lia).
      rewrite (Hat 1%nat), (Hat 2%nat) in E by lia. rewrite T1, T2 in E.
      pair_inv E. now apply Hr. }
    apply Nat.leb_gt in H3.
    destruct ((at_ (p0 :: s') 3 <? locb) || (hicb <? at_ (p0 :: s') 3))
      eqn:T3; [inversion H; subst; contradiction|].
    pair_inv H.
    replace (4 <? sz)%nat with false in E
      by (symmetry; apply Nat.ltb_ge; lia).
    rewrite (Hat 1%nat), (Hat 2%nat), (Hat 3%nat) in E by lia.
    rewrite T1, T2, T3 in E.
    pair_inv E. now apply Hr.
  - (* a rune of the prefix is the rune of the whole *)
    destruct (DecodeRune_app (firstn k s) (skipn k s) E Hr') as [_ E'].
    rewrite firstn_skipn in E'. congruence.
Qed.

Arguments DecodeRune_firstn s [r k] _ _.

(** ** Decoding a run of characters *)

Lemma decode_run_fuel f1 : forall f2 s,
  (length s <= f1)%nat -> (length s <= f2)%nat ->
  decode_run f1 s = decode_run f2 s.
Proof.
  induction f1 as [|f1 IH]; intros f2 s H1 H2.
  - destruct s; [|cbn in H1; lia]. now destruct f2.
  - destruct s as [|b s]; [now destruct f2|].
    destruct f2 as [|f2]; [cbn in H2; lia|].
    cbn [decode_run].
    pose proof (DecodeRune_size (b :: s) ltac:(discriminate)) as Hk.
    destruct (DecodeRune (b :: s)) as [r k]. cbn [snd] in Hk.
    destruct (r =? RuneError); [reflexivity|].
    rewrite (IH f2); [reflexivity| |];
      rewrite length_skipn; cbn [length] in *; lia.
Qed.

(** [runes_of] and [carry_of], one character at a time. *)
Lemma runes_of_nil : runes_of [] = [].
Proof. reflexivity. Qed.

Lemma carry_of_nil : carry_of [] = [].
Proof. reflexivity. Qed.

Lemma decode_stop s :
  fst (DecodeRune s) = RuneError -> runes_of s = [] /\ carry_of s = s.
Proof.
  intros H. unfold runes_of, carry_of.
  destruct s as [|b s]; [split; reflexivity|].
  cbn [length decode_run].
  destruct (DecodeRune (b :: s)) as [r k]. cbn [fst] in H. subst r.
  rewrite Z.eqb_refl. split; reflexivity.
Qed.

Lemma decode_step s r k :
  DecodeRune s = (r, k) -> r <> RuneError ->
  runes_of s = (r, firstn k s) :: runes_of (skipn k s)
  /\ carry_of s = carry_of (skipn k s).
Proof.
  intros H Hr. unfold runes_of, carry_of.
  destruct s as [|b s]; [inversion H; subst; contradiction|].
  pose proof (DecodeRune_size (b :: s) ltac:(discriminate)) as Hk.
  cbn [length decode_run]. rewrite H in *. cbn [snd] in Hk.
  destruct (r =? RuneError) eqn:E; [apply Z.eqb_eq in E; contradiction|].
  rewrite (decode_run_fuel (length s) (length (skipn k (b :: s))))
    by (try rewrite length_skipn; cbn [length]; lia).
  destruct (decode_run _ (skipn k (b :: s))). split; reflexivity.
Qed.

Arguments decode_step s [r k] _ _.

(** Both cases at once. *)
Lemma decode_cases s :
  (runes_of s = [] /\ carry_of s = s
   /\ (s = [] \/ fst (DecodeRune s) = RuneError))
  \/ (exists r k, DecodeRune s = (r, k) /\ r <> RuneError
                  /\ (1 <= k <= length s)%nat
                  /\ runes_of s = (r, firstn k s) :: runes_of (skipn k s)
                  /\ carry_of s = carry_of (skipn k s)).
Proof.
  destruct (DecodeRune s) as [r k] eqn:E.
  destruct (Z.eq_dec r RuneError) as [->|Hr].
  - left. destruct (decode_stop s) as [? ?]; [now rewrite E|].
    split; [assumption|]. split; [assumption|]. right. reflexivity.
  - right. exists r, k.
    destruct (DecodeRune_app s [] E Hr) as [Hk _].
    destruct (decode_step s E Hr) as [? ?]. auto.
Qed.

(** Decoding a stream in two parts: the second part is decoded together
    with what the first part left over. *)
Lemma runes_carry_app s : forall t,
  runes_of (s ++ t) = runes_of s ++ runes_of (carry_of s ++ t)
  /\ carry_of (s ++ t) = carry_of (carry_of s ++ t).
Proof.
  induction s as [s IH] using (induction_ltof1 _ (@length byte)).
  unfold ltof in IH. intros t.
  destruct (decode_cases s) as [(Hr & Hc & _)|(r & k & E & Hr & Hk & Hrs & Hc)].
  - rewrite Hr, Hc. split; reflexivity.
  - destruct (DecodeRune_app s t E Hr) as [_ E'].
    destruct (decode_step (s ++ t) E' Hr) as [Hrs' Hc'].
    rewrite Hrs', Hc', Hrs, Hc.
    rewrite firstn_app, skipn_app.
    replace (k - length s)%nat with 0%nat by lia.
    cbn [firstn skipn]. rewrite app_nil_r.
    destruct (IH (skipn k s)) with (t := t) as [IH1 IH2].
    { rewrite length_skipn. lia. }
    rewrite IH1, IH2. split; reflexivity.
Qed.

Lemma runes_of_app s t :
  runes_of (s ++ t) = runes_of s ++ runes_of (carry_of s ++ t).
Proof. apply runes_carry_app. Qed.

Lemma carry_of_app s t : carry_of (s ++ t) = carry_of (carry_of s ++ t).
Proof. apply runes_carry_app. Qed.

(** What decoding leaves over has no decodable character in front. *)
Lemma runes_of_carry s : runes_of (carry_of s) = [].
Proof.
  pose proof (runes_of_app s []) as H. rewrite !app_nil_r in H.
  rewrite <- (app_nil_r (runes_of s)) in H at 1.
  apply app_inv_head in H. now symmetry.
Qed.

Lemma carry_of_carry s : carry_of (carry_of s) = carry_of s.
Proof.
  pose proof (carry_of_app s []) as H. rewrite !app_nil_r in H. now symmetry.
Qed.

Lemma carry_of_stuck s : runes_of s = [] -> carry_of s = s.
Proof.
  intros H.
  destruct (decode_cases s) as [(_ & Hc & _)|(r & k & _ & _ & _ & Hrs & _)];
    [assumption|congruence].
Qed.

(** The input is the decoded characters followed by what was left over. *)
Lemma decode_split s : s = concat (map snd (runes_of s)) ++ carry_of s.
Proof.
  induction s as [s IH] using (induction_ltof1 _ (@length byte)).
  unfold ltof in IH.
  destruct (decode_cases s) as [(Hr & Hc & _)|(r & k & E & Hr & Hk & Hrs & Hc)].
  - now rewrite Hr, Hc.
  - rewrite Hrs, Hc. cbn [map concat snd]. rewrite <- app_assoc.
    rewrite <- (IH (skipn k s)) by (rewrite length_skipn; lia).
    now rewrite firstn_skipn.
Qed.

(** Each decoded character comes with its own encoding. *)
Definition good_rc (rc : Z * list byte) : Prop :=
  is_char (snd rc) = true /\ rune_of (snd rc) = fst rc.

Lemma is_char_inv c :
  is_char c = true ->
  DecodeRune c = (rune_of c, length c) /\ rune_of c <> RuneError /\ c <> [].
Proof.
  unfold is_char, rune_of. intros H.
  apply andb_true_iff in H as [H1 H2].
  apply negb_true_iff, Z.eqb_neq in H1. apply Nat.eqb_eq in H2.
  destruct (DecodeRune c) as [r k] eqn:E. cbn [fst snd] in *. subst k.
  repeat split; auto. intros ->. rewrite DecodeRune_nil in E.
  apply pair_equal_spec in E as [E _]. now symmetry in E.
Qed.

Lemma runes_of_good s : Forall good_rc (runes_of s).
Proof.
  induction s as [s IH] using (induction_ltof1 _ (@length byte)).
  unfold ltof in IH.
  destruct (decode_cases s) as [(Hr & Hc & _)|(r & k & E & Hr & Hk & Hrs & Hc)].
  - rewrite Hr. constructor.
  - rewrite Hrs. constructor.
    + pose proof (DecodeRune_firstn s E Hr) as E1.
      unfold good_rc, is_char, rune_of. cbn [fst snd]. rewrite E1. cbn [fst snd].
      rewrite length_firstn, Nat.min_l by lia. rewrite Nat.eqb_refl.
      split; [|reflexivity].
      apply andb_true_iff. split; [|reflexivity].
      now apply negb_true_iff, Z.eqb_neq.
    + apply IH. rewrite length_skipn. lia.
Qed.

(** A character in front of the input is the first one decoded. *)
Lemma runes_of_char c t :
  is_char c = true ->
  runes_of (c ++ t) = (rune_of c, c) :: runes_of t
  /\ carry_of (c ++ t) = carry_of t.
Proof.
  intros H. destruct (is_char_inv c H) as (E & Hr & Hn).
  destruct (DecodeRune_app c t E Hr) as [_ E'].
  destruct (decode_step (c ++ t) E' Hr) as [H1 H2].
  rewrite H1, H2, firstn_app, skipn_app, Nat.sub_diag.
  rewrite firstn_all, skipn_all. cbn [firstn skipn]. now rewrite app_nil_r.
Qed.

Lemma runes_of_chars rs : forall t,
  Forall good_rc rs ->
  runes_of (concat (map snd rs) ++ t) = rs ++ runes_of t
  /\ carry_of (concat (map snd rs) ++ t) = carry_of t.
Proof.
  induction rs as [|[r c] rs IH]; intros t H; [split; reflexivity|].
  inversion H as [|? ? [Hc Hr] Hrs]; subst. cbn [fst snd] in *.
  cbn [map concat snd]. rewrite <- app_assoc.
  destruct (runes_of_char c (concat (map snd rs) ++ t) Hc) as [H1 H2].
  destruct (IH t Hrs) as [H3 H4].
  rewrite H1, H2, H3, H4, Hr. split; reflexivity.
Qed.

(** ** The loops of the two filters *)

Lemma firstn_plus (a k : nat) : forall l : list byte,
  firstn (a + k) l = firstn a l ++ firstn k (skipn a l).
Proof.
  induction a as [|a IH]; intros l; [reflexivity|].
  destruct l as [|x l]; [now rewrite !firstn_nil|].
  cbn [Nat.add firstn skipn app]. now rewrite IH.
Qed.

Lemma slice_extend buffer lo i k :
  (lo <= i)%nat -> (i + k <= length buffer)%nat ->
  slice buffer lo (i + k) = slice buffer lo i ++ firstn k (skipn i buffer).
Proof.
  intros H1 H2. unfold slice.
  replace (i + k - lo)%nat with ((i - lo) + k)%nat by lia.
  rewrite firstn_plus. f_equal.
  rewrite skipn_skipn. do 2 f_equal. lia.
Qed.

Lemma slice_same buffer i : slice buffer i i = [].
Proof. unfold slice. now rewrite Nat.sub_diag. Qed.

Lemma slice_width buffer i k :
  slice buffer i (i + k) = firstn k (skipn i buffer).
Proof. unfold slice. do 2 f_equal. lia. Qed.

Lemma slice_rest buffer lo i :
  (lo <= i)%nat -> skipn lo buffer = slice buffer lo i ++ skipn i buffer.
Proof.
  intros H. unfold slice.
  replace (skipn i buffer) with (skipn (i - lo) (skipn lo buffer))
    by (rewrite skipn_skipn; f_equal; lia).
  now rewrite firstn_skipn.
Qed.

Section Loops.
Context {tables : CaseTables}.

Lemma case_runes_app toUpper rs1 rs2 :
  case_runes toUpper (rs1 ++ rs2)
  = case_runes toUpper rs1 ++ case_runes toUpper rs2.
Proof. unfold case_runes. apply flat_map_app. Qed.

(** The loop of [CaseReader.Read] appends the transform of every
    character that decodes and stops where decoding stops. *)
Lemma CaseReader_loop_spec toUpper buffer : forall fuel i mapped,
  (i <= length buffer)%nat -> (length buffer - i <= fuel)%nat ->
  exists i',
    CaseReader_loop fuel toUpper buffer i mapped
    = (i', mapped ++ case_runes toUpper (runes_of (skipn i buffer)))
    /\ skipn i' buffer = carry_of (skipn i buffer).
Proof.
  induction fuel as [|fuel IH]; intros i mapped Hi Hf.
  - assert (i = length buffer) by lia. subst i.
    rewrite skipn_all. exists (length buffer). cbn.
    rewrite app_nil_r, skipn_all. auto.
  - cbn [CaseReader_loop].
    destruct (i <? length buffer)%nat eqn:Hlt.
    + apply Nat.ltb_lt in Hlt.
      destruct (decode_cases (skipn i buffer))
        as [(Hr & Hc & Hs)|(r & k & E & Hr & Hk & Hrs & Hc)].
      * exists i. rewrite Hr, Hc. cbn. rewrite app_nil_r.
        destruct Hs as [Hs|Hs].
        { apply (f_equal (@length byte)) in Hs.
          rewrite length_skipn in Hs. cbn in Hs. lia. }
        destruct (DecodeRune (skipn i buffer)) as [r k]. cbn [fst] in Hs.
        subst r. rewrite Z.eqb_refl. auto.
      * rewrite E.
        destruct (r =? RuneError) eqn:Er;
          [apply Z.eqb_eq in Er; contradiction|].
        rewrite length_skipn in Hk.
        destruct (IH (i + k)%nat
                     (if toUpper then mapped ++ strings_ToUpper (AppendRune r)
                      else mapped ++ strings_ToLower (AppendRune r)))
          as (i' & Hl & Hs); [lia|lia|].
        exists i'. rewrite Hl, Hrs, Hc, skipn_skipn, (Nat.add_comm k i).
        split; [|assumption]. f_equal.
        cbn [case_runes flat_map fst]. unfold case_rune.
        destruct toUpper; now rewrite <- app_assoc.
    + apply Nat.ltb_ge in Hlt.
      assert (i = length buffer) by lia. subst i.
      rewrite skipn_all. exists (length buffer). cbn.
      rewrite app_nil_r, skipn_all. auto.
Qed.

(** The loop of [TrimReader.Read] follows [trim_runes] on the
    characters that decode, and keeps back the white space it holds
    together with what did not decode. *)
Lemma TrimReader_loop_spec buffer : forall fuel i firstSpacePos trimmed skipped,
  (firstSpacePos <= i <= length buffer)%nat ->
  (length buffer - i <= fuel)%nat ->
  exists pos out held skipped',
    trim_runes skipped (slice buffer firstSpacePos i)
               (runes_of (skipn i buffer)) = (out, held, skipped')
    /\ TrimReader_loop fuel buffer i firstSpacePos trimmed skipped
       = (pos, trimmed ++ out, skipped')
    /\ skipn pos buffer = held ++ carry_of (skipn i buffer).
Proof.
  assert (Stop : forall i firstSpacePos trimmed skipped,
    (firstSpacePos <= i <= length buffer)%nat ->
    runes_of (skipn i buffer) = [] ->
    carry_of (skipn i buffer) = skipn i buffer ->
    exists pos out held skipped',
      trim_runes skipped (slice buffer firstSpacePos i)
                 (runes_of (skipn i buffer)) = (out, held, skipped')
      /\ (firstSpacePos, trimmed, skipped) = (pos, trimmed ++ out, skipped')
      /\ skipn pos buffer = held ++ carry_of (skipn i buffer)).
  { intros i fsp trimmed skipped Hi Hr Hc.
    exists fsp, [], (slice buffer fsp i), skipped.
    rewrite Hr, Hc, app_nil_r. cbn [trim_runes].
    repeat split. apply slice_rest. lia. }
  induction fuel as [|fuel IH]; intros i fsp trimmed skipped Hi Hf.
  - cbn [TrimReader_loop]. apply Stop; auto;
      assert (i = length buffer) by lia; subst i;
      now rewrite skipn_all.
  - cbn [TrimReader_loop].
    destruct (i <? length buffer)%nat eqn:Hlt.
    + apply Nat.ltb_lt in Hlt.
      destruct (decode_cases (skipn i buffer))
        as [(Hr & Hc & Hs)|(r & k & E & Hr & Hk & Hrs & Hc)].
      * destruct Hs as [Hs|Hs].
        { apply (f_equal (@length byte)) in Hs.
          rewrite length_skipn in Hs. cbn in Hs. lia. }
        destruct (DecodeRune (skipn i buffer)) as [r k] eqn:E.
        cbn [fst] in Hs. subst r. rewrite Z.eqb_refl.
        apply Stop; auto.
      * rewrite E.
        destruct (r =? RuneError) eqn:Er;
          [apply Z.eqb_eq in Er; contradiction|].
        rewrite length_skipn in Hk.
        rewrite Hrs, Hc, skipn_skipn, (Nat.add_comm k i).
        cbn [trim_runes].
        destruct (IsSpace r).
        { destruct (IH (i + k)%nat fsp trimmed skipped)
            as (pos & out & held & sk' & Ht & Hl & Hs); [lia|lia|].
          exists pos, out, held, sk'.
          rewrite slice_extend in Ht by lia. auto. }
        destruct skipped.
        { destruct (IH (i + k)%nat (i + k)%nat
                       (trimmed ++ slice buffer fsp (i + k)) true)
            as (pos & out & held & sk' & Ht & Hl & Hs); [lia|lia|].
          rewrite slice_same in Ht. rewrite Ht.
          exists pos, ((slice buffer fsp i ++ firstn k (skipn i buffer)) ++ out),
            held, sk'.
          rewrite Hl, slice_extend by lia.
          rewrite <- !app_assoc. auto. }
        { destruct (IH (i + k)%nat (i + k)%nat
                       (trimmed ++ slice buffer i (i + k)) true)
            as (pos & out & held & sk' & Ht & Hl & Hs); [lia|lia|].
          rewrite slice_same in Ht. rewrite Ht.
          exists pos, (firstn k (skipn i buffer) ++ out), held, sk'.
          rewrite Hl, slice_width.
          rewrite <- !app_assoc. auto. }
    + apply Nat.ltb_ge in Hlt. apply Stop; auto;
        assert (i = length buffer) by lia; subst i;
        now rewrite skipn_all.
Qed.
End Loops.

(** ** Reading with more fuel *)

Section ReadFacts.
Context {tables : CaseTables}.

Lemma Read_mono : forall f rd p res,
  Read f rd p = Some res ->
  forall f', (f <= f')%nat -> Read f' rd p = Some res.
Proof.
  induction f as [|f IH]; intros rd p res H f' Hle; [discriminate|].
  destruct f' as [|f']; [lia|]. apply le_S_n in Hle.
  cbn [Read] in *.
  destruct rd as [pending|R N|up toUpper mapped buffer
                  |up buffer trimmed skipped].
  - assumption.
  - destruct (N <=? 0); [assumption|].
    destruct (Read f R _) as [[[[R' q'] n] err]|] eqn:E; [|discriminate].
    now rewrite (IH _ _ _ E f' Hle).
  - destruct (negb (length mapped =? 0)%nat); [assumption|].
    destruct (Read f up _) as [[[[up' b0] n] err]|] eqn:E; [|discriminate].
    rewrite (IH _ _ _ E f' Hle).
    destruct err; [assumption|].
    destruct (CaseReader_loop _ _ _ _ _). now apply IH.
  - destruct (negb (length trimmed =? 0)%nat); [assumption|].
    destruct (Read f up _) as [[[[up' b0] n] err]|] eqn:E; [|discriminate].
    rewrite (IH _ _ _ E f' Hle).
    destruct err; [assumption|].
    destruct (TrimReader_loop _ _ _ _ _ _) as [[? ?] ?]. now apply IH.
Qed.

Lemma Read_det f1 f2 rd p res1 res2 :
  Read f1 rd p = Some res1 -> Read f2 rd p = Some res2 -> res1 = res2.
Proof.
  intros H1 H2.
  apply Read_mono with (f' := Nat.max f1 f2) in H1; [|lia].
  apply Read_mono with (f' := Nat.max f1 f2) in H2; [|lia].
  congruence.
Qed.

(** [CaseReader.Read], with its loop replaced by what the loop
    computes. *)
Lemma Read_CaseReader f up toUpper mapped buffer p :
  Read (S f) (CaseReader up toUpper mapped buffer) p =
  if negb (length mapped =? 0)%nat then
    let '(p', mapped', n) := copyFromChecked p mapped in
    Some (CaseReader up toUpper mapped' buffer, p', n, None)
  else
    match Read f up (make (length p)) with
    | None => None
    | Some (up', b0, n, Some e) =>
        Some (CaseReader up' toUpper mapped buffer, p, n, Some e)
    | Some (up', b0, n, None) =>
        Read f (CaseReader up' toUpper
                  (mapped ++ case_out toUpper (buffer ++ firstn n b0))
                  (carry_of (buffer ++ firstn n b0))) p
    end.
Proof.
  cbn [Read]. destruct (negb (length mapped =? 0)%nat); [reflexivity|].
  destruct (Read f up _) as [[[[up' b0] n] [e|]]|]; try reflexivity.
  destruct (CaseReader_loop_spec toUpper (buffer ++ firstn n b0)
              (length (buffer ++ firstn n b0)) 0 mapped)
    as (i & Hl & Hs); [lia|lia|].
  rewrite Hl. cbn [skipn] in Hs. rewrite Hs. reflexivity.
Qed.

(** [TrimReader.Read], likewise. *)
Lemma Read_TrimReader f up buffer trimmed skipped p :
  Read (S f) (TrimReader up buffer trimmed skipped) p =
  if negb (length trimmed =? 0)%nat then
    let '(p', trimmed', n) := copyFromChecked p trimmed in
    Some (TrimReader up buffer trimmed' skipped, p', n, None)
  else
    match Read f up (make (length p)) with
    | None => None
    | Some (up', b0, n, Some e) =>
        Some (TrimReader up' buffer trimmed skipped, p, n, Some e)
    | Some (up', b0, n, None) =>
        let '(out, held, skipped') :=
          trim_runes skipped [] (runes_of (buffer ++ firstn n b0)) in
        Read f (TrimReader up'
                  (held ++ carry_of (buffer ++ firstn n b0))
                  (trimmed ++ out) skipped') p
    end.
Proof.
  cbn [Read]. destruct (negb (length trimmed =? 0)%nat); [reflexivity|].
  destruct (Read f up _) as [[[[up' b0] n] [e|]]|]; try reflexivity.
  destruct (TrimReader_loop_spec (buffer ++ firstn n b0)
              (length (buffer ++ firstn n b0)) 0 0 trimmed skipped)
    as (pos & out & held & sk' & Ht & Hl & Hs); [lia|lia|].
  rewrite slice_same in Ht. cbn [skipn] in Ht, Hs.
  rewrite Hl, Ht, Hs. reflexivity.
Qed.
End ReadFacts.

(** ** What the readers stand for *)

Lemma length_make n : length (make n) = n.
Proof. apply repeat_length. Qed.

Lemma firstn_prefix n (s q : list byte) :
  (n <= length s)%nat -> firstn n (firstn n s ++ q) = firstn n s.
Proof.
  intros H. rewrite firstn_app, length_firstn, Nat.min_l by lia.
  rewrite Nat.sub_diag, firstn_firstn, Nat.min_id. cbn. apply app_nil_r.
Qed.

Lemma skipn_prefix n (s q : list byte) :
  (n <= length s)%nat -> skipn n (firstn n s ++ q) = q.
Proof.
  intros H. rewrite skipn_app, length_firstn, Nat.min_l by lia.
  rewrite Nat.sub_diag, skipn_firstn_comm, Nat.sub_diag. reflexivity.
Qed.

Lemma copyFromChecked_eq dst src :
  copyFromChecked dst src =
  (firstn (Nat.min (length dst) (length src)) src
     ++ skipn (Nat.min (length dst) (length src)) dst,
   skipn (Nat.min (length dst) (length src)) src,
   Nat.min (length dst) (length src)).
Proof. reflexivity. Qed.

Section FilterYields.
Context {tables : CaseTables}.

(** The shape that the two filters share: a filter [F up pending x]
    delivers from [pending] while there is any, and otherwise reads
    from [up] and lets [step] digest what it got. *)
Variable X : Type.
Variable F : reader -> list byte -> X -> reader.
Variable step : X -> list byte -> list byte * X.

Hypothesis F_Read : forall f up pending x p,
  Read (S f) (F up pending x) p =
  if negb (length pending =? 0)%nat then
    let '(p', pending', n) := copyFromChecked p pending in
    Some (F up pending' x, p', n, None)
  else
    match Read f up (make (length p)) with
    | None => None
    | Some (up', b0, n, Some e) => Some (F up' pending x, p, n, Some e)
    | Some (up', b0, n, None) =>
        let '(out, x') := step x (firstn n b0) in
        Read f (F up' (pending ++ out) x') p
    end.

(** [D x s]: what the filter in state [x] makes of the upstream bytes
    [s]; [I] is the invariant of the state. *)
Variable D : X -> list byte -> list byte.
Variable I : X -> Prop.

Hypothesis D_nil : forall x, I x -> D x [] = [].
Hypothesis D_step : forall x c s,
  I x -> I (snd (step x c)) /\ D x (c ++ s) = fst (step x c) ++ D (snd (step x c)) s.

Lemma Yields_filter : forall up s,
  Yields up s ->
  forall pending x, I x -> Yields (F up pending x) (pending ++ D x s).
Proof.
  induction 1 as [up s Hread Hnext IH].
  intros pending.
  induction pending as [pending IHp] using (induction_ltof1 _ (@length byte)).
  unfold ltof in IHp. intros x Ix.
  destruct pending as [|b pending].
  - (* nothing pending: the filter reads from upstream *)
    assert (Hq : forall p : list byte,
               (1 <= length p)%nat -> (1 <= length (make (length p)))%nat)
      by (intros; now rewrite length_make).
    constructor.
    + intros p Hp.
      destruct (Hread _ (Hq p Hp)) as (f0 & [[[up' b0] n0] err] & Hr0 & Hd0).
      cbn [delivers] in Hd0. destruct err as [e|].
      * destruct Hd0 as (-> & -> & -> & ->).
        exists (S f0), (F up' [] x, p, 0%nat, Some EOF). split.
        { rewrite F_Read. cbn [length Nat.eqb negb]. now rewrite Hr0. }
        cbn. rewrite D_nil by assumption. auto.
      * destruct Hd0 as (Hn1 & Hn2 & Hb0).
        destruct (D_step x (firstn n0 b0) (skipn n0 s) Ix) as [Ix' HD].
        assert (Hc : firstn n0 b0 = firstn n0 s)
          by (rewrite Hb0; apply firstn_prefix; lia).
        rewrite Hc, firstn_skipn in HD at 1. clear Hb0 Hc.
        destruct (step x (firstn n0 b0)) as [out x'] eqn:Es.
        cbn [fst snd] in *.
        pose proof (IH _ _ _ _ _ (Hq p Hp) Hr0 out x' Ix') as Hy.
        inversion Hy as [? ? Hread' _]; subst.
        destruct (Hread' p Hp) as (f1 & res & Hr1 & Hd1).
        exists (S (Nat.max f0 f1)), res. split.
        { rewrite F_Read. cbn [length Nat.eqb negb].
          rewrite (Read_mono _ _ _ _ Hr0 (Nat.max f0 f1)) by lia.
          rewrite Es. cbn [app].
          apply (Read_mono _ _ _ _ Hr1). lia. }
        cbn [app]. rewrite HD. assumption.
    + intros p f rd' p' n Hp HR.
      destruct f as [|f]; [discriminate|].
      rewrite F_Read in HR. cbn [length Nat.eqb negb] in HR.
      destruct (Read f up _) as [[[[up' b0] n0] [e|]]|] eqn:Hr0;
        try discriminate.
      destruct (Hread _ (Hq p Hp)) as (f0 & res0 & Hr0' & Hd0).
      pose proof (Read_det _ _ _ _ _ _ Hr0 Hr0'). subst res0.
      cbn [delivers] in Hd0. destruct Hd0 as (Hn1 & Hn2 & Hb0).
      destruct (D_step x (firstn n0 b0) (skipn n0 s) Ix) as [Ix' HD].
      assert (Hc : firstn n0 b0 = firstn n0 s)
        by (rewrite Hb0; apply firstn_prefix; lia).
      rewrite Hc, firstn_skipn in HD at 1. clear Hb0 Hc.
      destruct (step x (firstn n0 b0)) as [out x'] eqn:Es.
      cbn [fst snd app] in *.
      pose proof (IH _ _ _ _ _ (Hq p Hp) Hr0 out x' Ix') as Hy.
      rewrite <- HD in Hy.
      inversion Hy as [? ? _ Hnext']; subst.
      eapply Hnext'; eassumption.
  - (* something pending: the filter delivers from it *)
    assert (Hlm : (1 <= length (b :: pending))%nat) by (cbn; lia).
    remember (b :: pending) as m eqn:Em. clear Em b pending.
    assert (Hm : forall p : list byte, (1 <= length p)%nat ->
                 (1 <= Nat.min (length p) (length m) <= length m)%nat)
      by (intros; lia).
    assert (HF : forall f p,
               Read (S f) (F up m x) p =
               Some (F up (skipn (Nat.min (length p) (length m)) m) x,
                     firstn (Nat.min (length p) (length m)) m
                       ++ skipn (Nat.min (length p) (length m)) p,
                     Nat.min (length p) (length m), None)).
    { intros f p. rewrite F_Read.
      destruct m; [cbn in Hlm; lia|reflexivity]. }
    constructor.
    + intros p Hp. eexists 1%nat, _. split; [apply HF|].
      cbn [delivers]. specialize (Hm p Hp).
      rewrite length_app, firstn_app.
      replace (Nat.min (length p) (length m) - length m)%nat with 0%nat
        by lia.
      cbn [firstn]. rewrite app_nil_r. repeat split; lia.
    + intros p f rd' p' n Hp HR.
      destruct f as [|f]; [discriminate|].
      rewrite HF in HR. inversion HR; subst. specialize (Hm p Hp).
      rewrite skipn_app.
      replace (Nat.min (length p) (length m) - length m)%nat with 0%nat
        by lia.
      cbn [skipn]. apply IHp; [|assumption].
      rewrite length_skipn. lia.
Qed.
End FilterYields.

(** ** The white space that [TrimReader] holds back *)

Definition space_rc (rc : Z * list byte) : Prop := IsSpace (fst rc) = true.

Lemma trim_runes_app rs1 : forall skipped held rs2,
  trim_runes skipped held (rs1 ++ rs2) =
  let '(out1, held1, skipped1) := trim_runes skipped held rs1 in
  let '(out2, held2, skipped2) := trim_runes skipped1 held1 rs2 in
  (out1 ++ out2, held2, skipped2).
Proof.
  induction rs1 as [|[r c] rs1 IH]; intros skipped held rs2.
  - cbn. now destruct (trim_runes skipped held rs2) as [[? ?] ?].
  - cbn [app trim_runes]. destruct (IsSpace r); [apply IH|].
    rewrite IH.
    destruct (trim_runes true [] rs1) as [[o1 h1] k1].
    destruct (trim_runes k1 h1 rs2) as [[o2 h2] k2].
    now rewrite app_assoc.
Qed.

Lemma trim_runes_spaces hs : forall skipped held rs,
  Forall space_rc hs ->
  trim_runes skipped held (hs ++ rs)
  = trim_runes skipped (held ++ concat (map snd hs)) rs.
Proof.
  induction hs as [|[r c] hs IH]; intros skipped held rs H.
  - cbn. now rewrite app_nil_r.
  - inversion H as [|? ? Hr Hhs]; subst. unfold space_rc in Hr.
    cbn [fst] in Hr. cbn [app trim_runes map concat snd]. rewrite Hr.
    rewrite IH by assumption. now rewrite app_assoc.
Qed.

Lemma trim_runes_all_spaces hs skipped held :
  Forall space_rc hs ->
  trim_runes skipped held hs = ([], held ++ concat (map snd hs), skipped).
Proof.
  intros H. rewrite <- (app_nil_r hs) at 1.
  now rewrite trim_runes_spaces.
Qed.

(** What is held back is white space, character by character. *)
Lemma trim_runes_held rs : forall skipped hs0 out held skipped',
  Forall good_rc rs -> Forall good_rc hs0 -> Forall space_rc hs0 ->
  trim_runes skipped (concat (map snd hs0)) rs = (out, held, skipped') ->
  exists hs, held = concat (map snd hs)
             /\ Forall good_rc hs /\ Forall space_rc hs.
Proof.
  induction rs as [|[r c] rs IH]; intros skipped hs0 out held skipped' G G0 S0 H.
  - cbn in H. apply pair_equal_spec in H as [H _].
    apply pair_equal_spec in H as [_ H]. subst. eauto.
  - inversion G as [|? ? Gc Grs]; subst. cbn [trim_runes] in H.
    destruct (IsSpace r) eqn:Er.
    + apply (IH skipped (hs0 ++ [(r, c)]) out held skipped'); auto.
      * apply Forall_app; split; auto.
      * apply Forall_app; split; auto.
      * rewrite map_app, concat_app. cbn. now rewrite app_nil_r.
    + destruct (trim_runes true [] rs) as [[o h] k] eqn:E.
      apply pair_equal_spec in H as [H _].
      apply pair_equal_spec in H as [_ H]. subst.
      apply (IH true [] o held k); auto.
  Qed.

Lemma forallb_space rs :
  forallb (fun rc => IsSpace (fst rc)) rs = true <-> Forall space_rc rs.
Proof. rewrite forallb_forall, Forall_forall. reflexivity. Qed.

(** ** The two filters as readers *)

Section FiltersYield.
Context {tables : CaseTables}.

Theorem Yields_CaseReader_state up s toUpper mapped buffer :
  Yields up s -> runes_of buffer = [] ->
  Yields (CaseReader up toUpper mapped buffer)
         (mapped ++ case_out toUpper (buffer ++ s)).
Proof.
  intros Hy Hb.
  refine (@Yields_filter _ (list byte)
           (fun up pending buffer => CaseReader up toUpper pending buffer)
           (fun buffer c =>
              (case_out toUpper (buffer ++ c), carry_of (buffer ++ c)))
           _
           (fun buffer s => case_out toUpper (buffer ++ s))
           (fun buffer => runes_of buffer = [])
           _ _ up s Hy mapped buffer Hb).
  - intros f up0 pending x p. rewrite Read_CaseReader.
    destruct pending; reflexivity.
  - intros x Hx. unfold case_out. now rewrite app_nil_r, Hx.
  - intros x c s0 _. cbn [fst snd]. split; [apply runes_of_carry|].
    unfold case_out. now rewrite app_assoc, runes_of_app, case_runes_app.
Qed.

Theorem Yields_TrimReader_state up s buffer trimmed skipped :
  Yields up s ->
  forallb (fun rc => IsSpace (fst rc)) (runes_of buffer) = true ->
  Yields (TrimReader up buffer trimmed skipped)
         (trimmed ++ trim_out skipped (buffer ++ s)).
Proof.
  intros Hy Hb.
  refine (@Yields_filter _ (list byte * bool)
           (fun up pending x => TrimReader up (fst x) pending (snd x))
           (fun x c =>
              let '(out, held, skipped') :=
                trim_runes (snd x) [] (runes_of (fst x ++ c)) in
              (out, (held ++ carry_of (fst x ++ c), skipped')))
           _
           (fun x s => trim_out (snd x) (fst x ++ s))
           (fun x => forallb (fun rc => IsSpace (fst rc)) (runes_of (fst x))
                     = true)
           _ _ up s Hy trimmed (buffer, skipped) Hb).
  - intros f up0 pending [b sk] p. cbn [fst snd].
    rewrite Read_TrimReader.
    destruct pending; cbn [length Nat.eqb negb app]; [|reflexivity].
    destruct (Read f up0 _) as [[[[up' b0] n] [e|]]|]; try reflexivity.
    now destruct (trim_runes sk [] _) as [[? ?] ?].
  - intros [b sk] Hx. cbn [fst snd] in *. unfold trim_out.
    rewrite app_nil_r, trim_runes_all_spaces; [reflexivity|].
    now apply forallb_space.
  - intros [b sk] c s0 _. cbn [fst snd].
    destruct (trim_runes sk [] (runes_of (b ++ c))) as [[o1 h1] sk1] eqn:E1.
    cbn [fst snd].
    destruct (trim_runes_held (runes_of (b ++ c)) sk [] o1 h1 sk1)
      as (hs & -> & Gh & Sh); auto using runes_of_good.
    split.
    + destruct (runes_of_chars hs (carry_of (b ++ c)) Gh) as [-> _].
      rewrite runes_of_carry, app_nil_r. now apply forallb_space.
    + unfold trim_out.
      rewrite app_assoc, runes_of_app, trim_runes_app, E1.
      rewrite <- app_assoc.
      destruct (runes_of_chars hs (carry_of (b ++ c) ++ s0) Gh) as [-> _].
      rewrite trim_runes_spaces by assumption. cbn [app].
      now destruct (trim_runes sk1 _ _) as [[? ?] ?].
Qed.

(** A fresh [CaseReader] stands for the transform of the characters
    that decode, up to the first place where decoding reports
    [RuneError]. *)
Corollary Yields_CaseReader up s toUpper :
  Yields up s -> Yields (CaseReader up toUpper [] []) (case_out toUpper s).
Proof. intros H. now apply (Yields_CaseReader_state up s toUpper [] []). Qed.

(** A fresh [TrimReader] likewise. *)
Corollary Yields_TrimReader up s :
  Yields up s -> Yields (TrimReader up [] [] false) (trim_out false s).
Proof. intros H. now apply (Yields_TrimReader_state up s [] [] false). Qed.
End FiltersYield.

(** ** Files, limits and the draining caller *)

Fixpoint script_size (script : list sysread) : nat :=
  match script with
  | [] => 0
  | Data c :: rest => S (length c + script_size rest)
  | Failure _ :: rest => S (script_size rest)
  end.

Lemma firstn_of_prefix n (a b : list byte) :
  (n <= length a)%nat -> firstn n (a ++ b) = firstn n a.
Proof.
  intros H. rewrite firstn_app.
  replace (n - length a)%nat with 0%nat by lia. cbn. apply app_nil_r.
Qed.

Lemma skipn_of_prefix n (a b : list byte) :
  (n <= length a)%nat -> skipn n (a ++ b) = skipn n a ++ b.
Proof.
  intros H. rewrite skipn_app.
  now replace (n - length a)%nat with 0%nat by lia.
Qed.

Lemma skipn_firstn_rest n m (p : list byte) :
  (n <= m)%nat -> skipn n (firstn m p) ++ skipn m p = skipn n p.
Proof.
  intros H. rewrite <- (firstn_skipn m p) at 3.
  destruct (Nat.le_gt_cases m (length p)).
  - rewrite skipn_of_prefix; [reflexivity|]. rewrite length_firstn. lia.
  - rewrite !firstn_all2, (skipn_all2 (n := m)) by lia.
    now rewrite !app_nil_r.
Qed.

Lemma Some_inj {A : Type} (a b : A) : Some a = Some b -> a = b.
Proof. intros H. now inversion H. Qed.

Section SourcesYield.
Context {tables : CaseTables}.

Lemma Read_FileReader f pending p :
  Read (S f) (FileReader pending) p =
  let '(pending', p', n, err) := File_Read pending p in
  Some (FileReader pending', p', n, err).
Proof. reflexivity. Qed.

(** An open file whose reads do not fail stands for its data. *)
Theorem Yields_FileReader script :
  failure_free script = true ->
  Yields (FileReader script) (data_of script).
Proof.
  induction script as [script IH] using (induction_ltof1 _ script_size).
  unfold ltof in IH. intros Hff.
  assert (HR : forall f p, (1 <= length p)%nat ->
    Read (S f) (FileReader script) p =
    match script with
    | [] => Some (FileReader [], p, 0%nat, Some EOF)
    | Data c :: rest =>
        Some (FileReader
                (if (Nat.min (length p) (length c) <? length c)%nat
                 then Data (skipn (Nat.min (length p) (length c)) c) :: rest
                 else rest),
              firstn (Nat.min (length p) (length c)) c
                ++ skipn (Nat.min (length p) (length c)) p,
              Nat.min (length p) (length c), None)
    | Failure e :: rest => Some (FileReader rest, p, 0%nat, Some e)
    end).
  { intros f p Hp. rewrite Read_FileReader. unfold File_Read.
    destruct (length p =? 0)%nat eqn:E; [apply Nat.eqb_eq in E; lia|].
    destruct script as [|[c|e] rest]; reflexivity. }
  constructor.
  - intros p Hp. specialize (HR 0%nat p Hp).
    destruct script as [|[c|e] rest]; try discriminate;
      (eexists 1%nat, _; split; [exact HR|]); cbn [delivers data_of].
    + auto.
    + rewrite length_app, firstn_of_prefix by lia. repeat split; lia.
  - intros p f rd' p' n Hp H.
    destruct f as [|f]; [discriminate|]. rewrite HR in H by assumption.
    destruct script as [|[c|e] rest]; try discriminate.
    cbn [failure_free data_of] in *.
    apply Some_inj in H.
    apply pair_equal_spec in H as [H _].
    apply pair_equal_spec in H as [H Hn].
    apply pair_equal_spec in H as [H _]. subst rd' n.
    rewrite skipn_of_prefix by lia.
    destruct (Nat.min (length p) (length c) <? length c)%nat eqn:E.
    + apply Nat.ltb_lt in E.
      apply (IH (Data (skipn (Nat.min (length p) (length c)) c) :: rest));
        [|assumption].
      cbn [script_size]. rewrite length_skipn. lia.
    + apply Nat.ltb_ge in E. rewrite skipn_all2 by lia.
      apply IH; [cbn [script_size]; lia|assumption].
Qed.

Lemma Read_LimitedReader f R N p :
  Read (S f) (LimitedReader R N) p =
  if N <=? 0 then Some (LimitedReader R N, p, 0%nat, Some EOF)
  else
    let q := if N <? Z.of_nat (length p) then firstn (Z.to_nat N) p else p in
    match Read f R q with
    | None => None
    | Some (R', q', n, err) =>
        Some (LimitedReader R' (N - Z.of_nat n), q' ++ skipn (length q) p,
              n, err)
    end.
Proof. reflexivity. Qed.

(** A limited reader stands for the first [N] bytes. *)
Theorem Yields_LimitedReader R s :
  Yields R s ->
  forall N, Yields (LimitedReader R N) (firstn (Z.to_nat N) s).
Proof.
  induction 1 as [R s Hread Hnext IH]. intros N.
  destruct (N <=? 0) eqn:HN.
  { pose proof HN as HNb. apply Z.leb_le in HN.
    replace (Z.to_nat N) with 0%nat by lia. cbn [firstn].
    constructor.
    - intros p Hp. eexists 1%nat, _. split.
      + rewrite Read_LimitedReader, HNb. reflexivity.
      + cbn. auto.
    - intros p f rd' p' n Hp H. destruct f as [|f]; [discriminate|].
      rewrite Read_LimitedReader, HNb in H. discriminate. }
  apply Z.leb_gt in HN.
  assert (Hq : forall p : list byte, (1 <= length p)%nat ->
    let q := if N <? Z.of_nat (length p) then firstn (Z.to_nat N) p else p in
    (1 <= length q)%nat /\ (Z.of_nat (length q) <= N)
    /\ (length q <= length p)%nat /\ q = firstn (length q) p).
  { intros p Hp. cbv zeta. destruct (N <? Z.of_nat (length p)) eqn:E.
    - apply Z.ltb_lt in E. rewrite length_firstn.
      rewrite Nat.min_l by lia.
      repeat split; try lia.
    - apply Z.ltb_ge in E. repeat split; try lia.
      now rewrite firstn_all. }
  constructor.
  - intros p Hp. specialize (Hq p Hp). cbv zeta in Hq.
    set (q := if N <? Z.of_nat (length p) then firstn (Z.to_nat N) p else p)
      in *.
    destruct Hq as (Hq1 & Hq2 & Hq3 & Hq4).
    destruct (Hread q Hq1) as (f0 & [[[R' q'] n] err] & Hr & Hd).
    eexists (S f0), _. split.
    { rewrite Read_LimitedReader.
      destruct (N <=? 0) eqn:HN'; [apply Z.leb_le in HN'; lia|].
      cbv zeta. fold q. rewrite Hr. reflexivity. }
    cbn [delivers] in *. destruct err as [e|].
    + destruct Hd as (-> & -> & -> & ->).
      rewrite firstn_nil. repeat split.
      rewrite Hq4 at 1. apply firstn_skipn.
    + destruct Hd as (Hn1 & Hn2 & ->).
      rewrite length_firstn, firstn_firstn.
      replace (Nat.min n (Z.to_nat N)) with n by lia.
      repeat split; try lia.
      rewrite <- app_assoc. f_equal.
      rewrite Hq4 at 1. apply skipn_firstn_rest. lia.
  - intros p f rd' p' n Hp H. destruct f as [|f]; [discriminate|].
    rewrite Read_LimitedReader in H.
    destruct (N <=? 0) eqn:HN'; [apply Z.leb_le in HN'; lia|].
    cbv zeta in H. specialize (Hq p Hp). cbv zeta in Hq.
    set (q := if N <? Z.of_nat (length p) then firstn (Z.to_nat N) p else p)
      in *.
    destruct Hq as (Hq1 & Hq2 & Hq3 & Hq4).
    destruct (Read f R q) as [[[[R' q'] n'] err]|] eqn:Hr; [|discriminate].
    apply Some_inj in H.
    apply pair_equal_spec in H as [H He].
    apply pair_equal_spec in H as [H Hn].
    apply pair_equal_spec in H as [H _]. subst rd' n' err.
    destruct (Hread q Hq1) as (f0 & res0 & Hr0 & Hd).
    pose proof (Read_det _ _ _ _ _ _ Hr Hr0). subst res0.
    cbn [delivers] in Hd. destruct Hd as (Hn1 & Hn2 & _).
    rewrite skipn_firstn_comm.
    replace (Z.to_nat N - n)%nat with (Z.to_nat (N - Z.of_nat n)) by lia.
    apply (IH q f R' q' n Hq1 Hr).
Qed.

Lemma ReadAll_mono : forall f sizes k rd res,
  ReadAll f sizes k rd = Some res ->
  forall f', (f <= f')%nat -> ReadAll f' sizes k rd = Some res.
Proof.
  induction f as [|f IH]; intros sizes k rd res H f' Hle; [discriminate|].
  destruct f' as [|f']; [lia|]. apply le_S_n in Hle.
  cbn [ReadAll] in *.
  destruct (Read f rd _) as [[[[rd' p'] n] err]|] eqn:E; [|discriminate].
  rewrite (Read_mono _ _ _ _ E f' Hle).
  destruct err; [assumption|].
  destruct (ReadAll f sizes (S k) rd') as [[out e]|] eqn:E2; [|discriminate].
  now rewrite (IH _ _ _ _ E2 f' Hle).
Qed.

(** Draining a reader that stands for [s] returns [s] and no error,
    whatever the sizes of the caller's buffers. *)
Theorem ReadAll_Yields rd s :
  Yields rd s ->
  forall sizes k, (forall j, (1 <= sizes j)%nat) ->
  exists fuel, ReadAll fuel sizes k rd = Some (s, None).
Proof.
  induction 1 as [rd s Hread Hnext IH]. intros sizes k Hs.
  assert (Hp : (1 <= length (make (sizes k)))%nat)
    by (rewrite length_make; apply Hs).
  destruct (Hread _ Hp) as (f0 & [[[rd' p'] n] err] & Hr & Hd).
  cbn [delivers] in Hd. destruct err as [e|].
  - destruct Hd as (-> & -> & -> & ->).
    exists (S f0). cbn [ReadAll]. rewrite Hr. reflexivity.
  - destruct Hd as (Hn1 & Hn2 & ->).
    destruct (IH _ _ _ _ _ Hp Hr sizes (S k) Hs) as (f1 & H1).
    exists (S (Nat.max f0 f1)). cbn [ReadAll].
    rewrite (Read_mono _ _ _ _ Hr (Nat.max f0 f1)) by lia.
    rewrite (ReadAll_mono _ _ _ _ _ H1 (Nat.max f0 f1)) by lia.
    rewrite firstn_prefix, firstn_skipn by lia. reflexivity.
Qed.
End SourcesYield.

(* ================================================================== *)
(** * The flags *)

Lemma validatedConvs_loop_unknown convValues : forall hasLower hasUpper,
  (exists x, In x convValues /\ convMap_has x = false) ->
  exists detail,
    snd (validatedConvs_loop convValues hasLower hasUpper)
    = Some (ErrInvalidConv detail).
Proof.
  induction convValues as [|val rest IH]; intros hl hu (x & Hin & Hx).
  - destruct Hin.
  - cbn [validatedConvs_loop].
    destruct (convMap_has val) eqn:Hv; cbn [negb].
    + assert (Hrest : exists x, In x rest /\ convMap_has x = false).
      { destruct Hin as [->|Hin]; [congruence|eauto]. }
      destruct (String.eqb val "lower_case"); [now apply IH|].
      destruct (String.eqb val "upper_case"); now apply IH.
    + eexists. reflexivity.
Qed.

Lemma validatedConvs_loop_known convValues : forall hasLower hasUpper,
  (forall x, In x convValues -> convMap_has x = true) ->
  validatedConvs_loop convValues hasLower hasUpper
  = (hasLower || existsb (String.eqb "lower_case") convValues,
     hasUpper || existsb (String.eqb "upper_case") convValues, None).
Proof.
  induction convValues as [|val rest IH]; intros hl hu Hk.
  - cbn. now rewrite !orb_false_r.
  - cbn [validatedConvs_loop existsb].
    rewrite (Hk val) by (now left). cbn [negb].
    assert (Hrest : forall x, In x rest -> convMap_has x = true)
      by (intros; apply Hk; now right).
    rewrite (String.eqb_sym "lower_case" val), (String.eqb_sym "upper_case" val).
    destruct (String.eqb val "lower_case") eqn:El.
    + apply String.eqb_eq in El. subst val. rewrite IH by assumption.
      cbn. now rewrite !orb_true_r.
    + destruct (String.eqb val "upper_case") eqn:Eu;
        rewrite IH by assumption; cbn; [now rewrite !orb_true_r|reflexivity].
Qed.

Lemma existsb_eqb_In name (l : list string) :
  In name l -> existsb (String.eqb name) l = true.
Proof.
  intros H. apply existsb_exists. exists name. split; [assumption|].
  apply String.eqb_refl.
Qed.

Section Flags.
Context {tables : CaseTables} {system : System}.

(** C10.  A list of transforms that names both "lower_case" and
    "upper_case", or that has a name outside the three known ones, is
    rejected by [validatedConvs] with an error wrapping
    [ErrInvalidConv]; [ParseFlags] passes that error on, and [main]
    then exits with status 1 after one line on standard error, without
    having opened or read anything: the rest of the world is as it was,
    whatever the fuel for reading. *)
Theorem invalid_conv_rejected_before_reading
        (args : CommandLine) (w : World) (fuel : nat) :
  flag_conv args <> EmptyString ->
  (In "lower_case"%string (strings_Split (flag_conv args) ","%char)
   /\ In "upper_case"%string (strings_Split (flag_conv args) ","%char))
  \/ (exists x, In x (strings_Split (flag_conv args) ","%char)
                /\ ~ In x ["lower_case"; "upper_case"; "trim_spaces"]%string) ->
  exists detail,
    validatedConvs (flag_conv args) = ([], Some (ErrInvalidConv detail))
    /\ ParseFlags args = (None, Some (ErrInvalidConv detail))
    /\ main fuel args w
       = Some (Exit 1,
               {| files := files w; stdin := stdin w; stdout := stdout w;
                  stderr := stderr w
                    ++ [("can not parse flags: invalid argument of -conv: "
                           ++ detail)%string] |}).
Proof.
  intros Hne Hbad.
  assert (Hv : exists detail,
             validatedConvs (flag_conv args)
             = ([], Some (ErrInvalidConv detail))).
  { unfold validatedConvs.
    destruct (flag_conv args) as [|c convs] eqn:Ec; [contradiction|].
    cbn [String.length Nat.eqb]. rewrite <- Ec in *. clear Ec c convs.
    set (names := strings_Split (flag_conv args) ","%char) in *.
    destruct (existsb (fun x => negb (convMap_has x)) names) eqn:Eu.
    - apply existsb_exists in Eu as (x & Hin & Hx).
      apply negb_true_iff in Hx.
      destruct (validatedConvs_loop_unknown names false false) as [d Hd];
        [eauto|].
      destruct (validatedConvs_loop names false false) as [[hl hu] e].
      cbn [snd] in Hd. subst e. eauto.
    - assert (Hk : forall x, In x names -> convMap_has x = true).
      { intros x Hin. destruct (convMap_has x) eqn:E; [reflexivity|].
        exfalso. rewrite <- not_true_iff_false in Eu. apply Eu.
        apply existsb_exists. exists x. now rewrite E. }
      rewrite validatedConvs_loop_known by assumption. cbn [orb].
      destruct Hbad as [[Hl Hu]|(x & Hin & Hx)].
      + rewrite !existsb_eqb_In by assumption. cbn. eauto.
      + exfalso. apply Hx. specialize (Hk x Hin).
        unfold convMap_has, convMap in Hk.
        apply existsb_exists in Hk as (y & Hy & Exy).
        apply String.eqb_eq in Exy. now subst y. }
  destruct Hv as [detail Hv]. exists detail.
  split; [assumption|].
  unfold main, ParseFlags. rewrite Hv. split; reflexivity.
Qed.
End Flags.

(** The flags [-conv lower_case,upper_case] are an instance. *)
Lemma invalid_conv_rejected_before_reading_witness :
  exists detail,
    validatedConvs "lower_case,upper_case" = ([], Some (ErrInvalidConv detail))
    /\ ParseFlags
         {| flag_from := "in.txt"; flag_to := ""; flag_offset := 0;
            flag_limit := MaxInt; flag_block_size := 1024;
            flag_conv := "lower_case,upper_case" |}
       = (None, Some (ErrInvalidConv detail))
    /\ main (tables := identity_tables) (system := usual_system) 0
         {| flag_from := "in.txt"; flag_to := ""; flag_offset := 0;
            flag_limit := MaxInt; flag_block_size := 1024;
            flag_conv := "lower_case,upper_case" |}
         (world_of (bytes_of "abc"))
       = Some (Exit 1,
               {| files := files (world_of (bytes_of "abc"));
                  stdin := []; stdout := [];
                  stderr := [("can not parse flags: invalid argument of -conv: "
                                ++ detail)%string] |}).
Proof.
  apply (invalid_conv_rejected_before_reading
           (tables := identity_tables) (system := usual_system)
           {| flag_from := "in.txt"; flag_to := ""; flag_offset := 0;
              flag_limit := MaxInt; flag_block_size := 1024;
              flag_conv := "lower_case,upper_case" |}
           (world_of (bytes_of "abc")) 0).
  - discriminate.
  - left. split; vm_compute; tauto.
Defined.

(* ================================================================== *)
(** * The writer *)

Section Writer.
Context {system : System}.

(** C2.  With the sink [out.txt] already present, [createWriter] returns
    no writer and no error: [os.Stat] succeeds, so the error it hands
    back is nil.  [main] therefore goes on to copy.  With an empty source
    it exits with status 0; with a source that has data, the first write
    goes through the nil writer and the process panics: what reaches
    standard error is the report of the runtime, not a message of the
    program.  The existing file is left as it was in both runs,
    whatever the system. *)
Theorem createWriter_existing_sink_returns_no_error :
  createWriter "out.txt" (world_of (bytes_of "abc"))
  = (None, None, world_of (bytes_of "abc"))
  /\ main (tables := identity_tables) 8 in_to_out (world_of [])
     = Some (Exit 0, world_of [])
  /\ main (tables := identity_tables) 8 in_to_out (world_of (bytes_of "abc"))
     = Some (Panic nil_dereference,
             runtime_panic (world_of (bytes_of "abc")) nil_dereference).
Proof. repeat split; vm_compute; reflexivity. Qed.
End Writer.

(* ================================================================== *)
(** * Delivery *)



Section Delivery.
Context {tables : CaseTables}.







End Delivery.


(* ================================================================== *)
(** * The white-space filter on a whole text *)

(** The characters of a text, each with its rune. *)
Definition tag (cs : list (list byte)) : list (Z * list byte) :=
  map (fun c => (rune_of c, c)) cs.

Lemma concat_tag cs : concat (map snd (tag cs)) = concat cs.
Proof. unfold tag. rewrite map_map. cbn. now rewrite map_id. Qed.

Lemma tag_good cs : forallb is_char cs = true -> Forall good_rc (tag cs).
Proof.
  intros H. unfold tag. apply Forall_map, Forall_forall. intros c Hc.
  rewrite forallb_forall in H. split; [now apply H|reflexivity].
Qed.

Lemma tag_space cs :
  forallb is_space_char cs = true ->
  Forall good_rc (tag cs) /\ Forall space_rc (tag cs).
Proof.
  intros H. rewrite forallb_forall in H.
  split; unfold tag; apply Forall_map, Forall_forall; intros c Hc;
    specialize (H c Hc); unfold is_space_char in H;
    apply andb_true_iff in H as [H1 H2].
  - split; [assumption|reflexivity].
  - exact H2.
Qed.

Lemma runes_of_text cs :
  forallb is_char cs = true -> runes_of (concat cs) = tag cs.
Proof.
  intros H.
  destruct (runes_of_chars (tag cs) [] (tag_good cs H)) as [Hr _].
  rewrite concat_tag, !app_nil_r in Hr. exact Hr.
Qed.

Lemma space_is_char cs :
  forallb is_space_char cs = true -> forallb is_char cs = true.
Proof.
  rewrite !forallb_forall. intros H c Hc. specialize (H c Hc).
  unfold is_space_char in H. now apply andb_true_iff in H as [H _].
Qed.

(** From the second character of the core on: the white space held so
    far goes out with the next character that is not white space. *)
Lemma trim_runes_core core : forall held d trail,
  forallb is_char core = true -> core <> [] ->
  is_ink_char (last core d) = true ->
  Forall space_rc trail ->
  fst (fst (trim_runes true held (tag core ++ trail))) = held ++ concat core.
Proof.
  induction core as [|c core IH]; intros held d trail Hc Hne Hlast Ht;
    [contradiction|].
  cbn [forallb] in Hc. apply andb_true_iff in Hc as [Hc1 Hc2].
  cbn [tag map app trim_runes]. fold (tag core).
  destruct core as [|c2 core].
  - cbn [last] in Hlast. unfold is_ink_char in Hlast.
    apply andb_true_iff in Hlast as [_ Hink].
    apply negb_true_iff in Hink. rewrite Hink.
    cbn [tag map app]. rewrite trim_runes_all_spaces by assumption.
    cbn. now rewrite !app_nil_r.
  - assert (Hl : last (c :: c2 :: core) d = last (c2 :: core) d) by reflexivity.
    rewrite Hl in Hlast.
    destruct (IsSpace (rune_of c)).
    + rewrite (IH (held ++ c) d trail) by (auto; discriminate).
      cbn [concat]. now rewrite <- app_assoc.
    + specialize (IH [] d trail Hc2 ltac:(discriminate) Hlast Ht).
      destruct (trim_runes true [] (tag (c2 :: core) ++ trail))
        as [[out h] k].
      cbn [fst] in *. subst out. cbn [concat app]. now rewrite <- app_assoc.
Qed.

(** The filter makes of a text what is between its first and its last
    character that is not white space. *)
Lemma trim_out_text lead core trail :
  forallb is_space_char lead = true ->
  is_core core = true ->
  forallb is_space_char trail = true ->
  trim_out false (concat lead ++ concat core ++ concat trail) = concat core.
Proof.
  intros Hl Hcore Ht. unfold is_core in Hcore.
  apply andb_true_iff in Hcore as [Hc Hends].
  destruct (tag_space lead Hl) as [Gl Sl].
  destruct (tag_space trail Ht) as [Gt St].
  unfold trim_out.
  rewrite <- !concat_app, runes_of_text.
  2:{ rewrite !forallb_app, Hc, !space_is_char by assumption. reflexivity. }
  unfold tag. rewrite !map_app. fold (tag lead) (tag core) (tag trail).
  rewrite trim_runes_spaces by assumption. cbn [app].
  destruct core as [|c core].
  - cbn [tag map app concat]. now rewrite trim_runes_all_spaces.
  - apply andb_true_iff in Hends as [Hfirst Hlast].
    cbn [forallb] in Hc. apply andb_true_iff in Hc as [Hc1 Hc2].
    cbn [tag map app trim_runes]. fold (tag core).
    unfold is_ink_char in Hfirst. apply andb_true_iff in Hfirst as [_ Hink].
    apply negb_true_iff in Hink. rewrite Hink.
    destruct core as [|c2 core].
    + cbn [tag map app]. rewrite trim_runes_all_spaces by assumption.
      cbn. now rewrite !app_nil_r.
    + assert (Hl' : last (c :: c2 :: core) c = last (c2 :: core) c)
        by reflexivity.
      rewrite Hl' in Hlast.
      pose proof (trim_runes_core (c2 :: core) [] c (tag trail) Hc2
                    ltac:(discriminate) Hlast St) as H.
      destruct (trim_runes true [] (tag (c2 :: core) ++ tag trail))
        as [[out h] k].
      cbn [fst] in *. subst out. reflexivity.
Qed.

Section TrimText.
Context {tables : CaseTables}.

(** C9.  When the input consists of white-space characters only, however
    many and however the reads cut it up, draining the trim filter gives
    the empty output and no error. *)
Theorem trim_white_space_only_gives_nothing
        (cs : list (list byte)) (script : list sysread) (sizes : nat -> nat) :
  failure_free script = true ->
  data_of script = concat cs ->
  forallb is_space_char cs = true ->
  (forall j, (1 <= sizes j)%nat) ->
  exists fuel,
    ReadAll fuel sizes 0 (TrimReader (FileReader script) [] [] false)
    = Some ([], None).
Proof.
  intros Hff Hdata Hsp Hsizes.
  pose proof (Yields_TrimReader _ _ (Yields_FileReader script Hff)) as Hy.
  rewrite Hdata in Hy.
  pose proof (trim_out_text cs [] [] Hsp eq_refl eq_refl) as Ht.
  cbn [concat] in Ht. rewrite !app_nil_r in Ht. rewrite Ht in Hy.
  now apply ReadAll_Yields.
Qed.

(** C1, as the code has it.  The filter removes the white space before
    the first and after the last character that is not white space, and
    passes everything between them through unchanged: a run of white
    space between two other characters comes out whole, not as its first
    character.  This holds however the reads cut the input up and
    whatever the sizes of the caller's buffers. *)
Theorem trim_keeps_inner_white_space
        (lead core trail : list (list byte)) (script : list sysread)
        (sizes : nat -> nat) :
  failure_free script = true ->
  data_of script = concat lead ++ concat core ++ concat trail ->
  forallb is_space_char lead = true ->
  is_core core = true ->
  forallb is_space_char trail = true ->
  (forall j, (1 <= sizes j)%nat) ->
  exists fuel,
    ReadAll fuel sizes 0 (TrimReader (FileReader script) [] [] false)
    = Some (concat core, None).
Proof.
  intros Hff Hdata Hl Hc Ht Hsizes.
  pose proof (Yields_TrimReader _ _ (Yields_FileReader script Hff)) as Hy.
  rewrite Hdata, trim_out_text in Hy by assumption.
  now apply ReadAll_Yields.
Qed.
End TrimText.

(** The tab and the ideographic space U+3000. *)
Definition tab : byte := x09.
Definition ideographic_space : list byte := [xe3; x80; x80].

(** Three white-space characters, the last one cut in two by the reads,
    drained one byte at a time. *)
Lemma trim_white_space_only_gives_nothing_witness :
  failure_free [Data [x20; tab; xe3]; Data [x80; x80]] = true
  /\ forallb is_space_char [[x20]; [tab]; ideographic_space] = true
  /\ exists fuel,
      ReadAll (tables := identity_tables) fuel (fun _ => 1%nat) 0
              (TrimReader (FileReader [Data [x20; tab; xe3]; Data [x80; x80]])
                          [] [] false)
      = Some ([], None).
Proof.
  split; [reflexivity|]. split; [reflexivity|].
  apply (trim_white_space_only_gives_nothing
           (tables := identity_tables)
           [[x20]; [tab]; ideographic_space]
           [Data [x20; tab; xe3]; Data [x80; x80]] (fun _ => 1%nat));
    [reflexivity|reflexivity|reflexivity|intros; lia].
Defined.

(** The text "a", tab, tab, "b" between two spaces and a line feed. *)
Lemma trim_keeps_inner_white_space_witness :
  is_core [[x61]; [tab]; [tab]; [x62]] = true
  /\ exists fuel,
      ReadAll (tables := identity_tables) fuel (fun _ => 2%nat) 0
              (TrimReader
                 (FileReader [Data [x20; x20; x61; tab];
                              Data [tab; x62; x20; x0a]])
                 [] [] false)
      = Some ([x61; tab; tab; x62], None).
Proof.
  split; [reflexivity|].
  apply (trim_keeps_inner_white_space
           (tables := identity_tables)
           [[x20]; [x20]] [[x61]; [tab]; [tab]; [x62]] [[x20]; [x0a]]
           [Data [x20; x20; x61; tab]; Data [tab; x62; x20; x0a]]
           (fun _ => 2%nat));
    [reflexivity|reflexivity|reflexivity|reflexivity|reflexivity
    |intros; lia].
Defined.

(** C1, as stated, fails: on the input "a", tab, tab, "b" the drained
    output is the input itself, both tabs included, and not "a", tab,
    "b". *)
Lemma trim_collapse_counterexample :
  ReadAll (tables := identity_tables) 4 (fun _ => 1024%nat) 0
          (TrimReader (FileReader [Data [x61; tab; tab; x62]]) [] [] false)
  = Some ([x61; tab; tab; x62], None)
  /\ [x61; tab; tab; x62] <> [x61; tab; x62].
Proof. split; [vm_compute; reflexivity|discriminate]. Qed.

(* ================================================================== *)
(** * The case filter on a whole input *)

Section CaseText.
Context {tables : CaseTables}.

(** Draining a [CaseReader] over an open file gives the transform of the
    characters that decode, however the reads cut the input up. *)
Lemma ReadAll_CaseReader_File toUpper script sizes :
  failure_free script = true ->
  (forall j, (1 <= sizes j)%nat) ->
  exists fuel,
    ReadAll fuel sizes 0 (CaseReader (FileReader script) toUpper [] [])
    = Some (case_out toUpper (data_of script), None).
Proof.
  intros Hff Hsizes.
  apply ReadAll_Yields; [|assumption].
  apply Yields_CaseReader, Yields_FileReader, Hff.
Qed.

(** C8.  Let the input hold a character of two or more bytes, between
    any bytes [before] and [after].  Whether that character arrives in
    one upstream read or cut in two at any place [j] inside it, draining
    the case filter returns, and returns the same output, whatever the
    sizes of the caller's buffers. *)
Theorem split_character_same_output
        (toUpper : bool) (before c after : list byte) (j : nat)
        (sizes : nat -> nat) :
  is_char c = true ->
  (2 <= length c)%nat ->
  (0 < j < length c)%nat ->
  (forall i, (1 <= sizes i)%nat) ->
  exists fuel out,
    ReadAll fuel sizes 0
            (CaseReader
               (FileReader [Data before; Data (firstn j c);
                            Data (skipn j c); Data after])
               toUpper [] [])
    = Some (out, None)
    /\ ReadAll fuel sizes 0
               (CaseReader (FileReader [Data before; Data c; Data after])
                           toUpper [] [])
       = Some (out, None).
Proof.
  intros _ _ _ Hsizes.
  destruct (ReadAll_CaseReader_File toUpper
              [Data before; Data (firstn j c); Data (skipn j c); Data after]
              sizes eq_refl Hsizes) as [f1 H1].
  destruct (ReadAll_CaseReader_File toUpper
              [Data before; Data c; Data after] sizes eq_refl Hsizes)
    as [f2 H2].
  cbn [data_of] in H1, H2.
  rewrite (app_assoc (firstn j c)), firstn_skipn in H1.
  exists (Nat.max f1 f2), (case_out toUpper (before ++ c ++ after ++ [])).
  split; eapply ReadAll_mono; try eassumption; lia.
Qed.
End CaseText.

(** The euro sign U+20AC, three bytes, after "a" and before "b", cut
    after its first byte. *)
Lemma split_character_same_output_witness :
  is_char [xe2; x82; xac] = true
  /\ exists fuel out,
      ReadAll (tables := identity_tables) fuel (fun _ => 4%nat) 0
              (CaseReader
                 (FileReader [Data [x61]; Data [xe2]; Data [x82; xac];
                              Data [x62]])
                 true [] [])
      = Some (out, None)
      /\ ReadAll (tables := identity_tables) fuel (fun _ => 4%nat) 0
                 (CaseReader
                    (FileReader [Data [x61]; Data [xe2; x82; xac];
                                 Data [x62]])
                    true [] [])
         = Some (out, None).
Proof.
  split; [reflexivity|].
  apply (split_character_same_output
           (tables := identity_tables) true
           [x61] [xe2; x82; xac] [x62] 1 (fun _ => 4%nat));
    [reflexivity|cbn; lia|cbn; lia|intros; lia].
Defined.

(* ================================================================== *)
(** * The carry buffers *)

(** What [TrimReader] carries over after its loop decodes to white space
    as far as it decodes. *)
Lemma trim_carry_spaces B skipped out held skipped' :
  trim_runes skipped [] (runes_of B) = (out, held, skipped') ->
  forallb (fun rc => IsSpace (fst rc)) (runes_of (held ++ carry_of B)) = true.
Proof.
  intros E.
  destruct (trim_runes_held (runes_of B) skipped [] out held skipped')
    as (hs & -> & Gh & Sh); auto using runes_of_good.
  destruct (runes_of_chars hs (carry_of B) Gh) as [-> _].
  rewrite runes_of_carry, app_nil_r. now apply forallb_space.
Qed.

Section Carry.
Context {tables : CaseTables}.

Lemma carry_ok_chain conv : forall base,
  carry_ok base -> carry_ok (CreateReader_chain conv base).
Proof.
  induction conv as [|val rest IH]; intros base Hb; [assumption|].
  cbn [CreateReader_chain]. apply IH.
  destruct (String.eqb val "lower_case"); [now split|].
  destruct (String.eqb val "upper_case"); [now split|].
  destruct (String.eqb val "trim_spaces"); [now split|assumption].
Qed.

(** C4, as the code has it.  The filters that [CreateReader] builds start
    with carry buffers that satisfy [carry_ok], and every fill cycle that
    returns leaves them so: the carry buffer of a case filter is empty or
    starts with bytes at which the decoder reports an error; the carry
    buffer of a trim filter holds, up to such a point or its end, white
    space only, namely the complete white-space characters read since
    the last character that was not white space. *)
Theorem carry_ok_invariant :
  (forall conv base, carry_ok base -> carry_ok (CreateReader_chain conv base))
  /\ (forall fuel rd p rd' p' n err,
         carry_ok rd ->
         Read fuel rd p = Some (rd', p', n, err) ->
         carry_ok rd').
Proof.
  split; [intros; now apply carry_ok_chain|].
  induction fuel as [|fuel IH]; intros rd p rd' p' n err Hok H;
    [discriminate|].
  destruct rd as [pending|R N|up toUpper mapped buffer
                  |up buffer trimmed skipped].
  - rewrite Read_FileReader in H.
    destruct (File_Read pending p) as [[[pending' q] m] e].
    apply Some_inj in H. pair_inv H. pair_inv H0. pair_inv H. exact I.
  - rewrite Read_LimitedReader in H.
    destruct (N <=? 0).
    { apply Some_inj in H. pair_inv H. pair_inv H0. pair_inv H. exact Hok. }
    cbv zeta in H.
    destruct (Read fuel R _) as [[[[R' q'] n'] err']|] eqn:Hr; [|discriminate].
    apply Some_inj in H. pair_inv H. pair_inv H0. pair_inv H.
    cbn [carry_ok] in *. eapply IH; eassumption.
  - rewrite Read_CaseReader in H. cbn [carry_ok] in Hok.
    destruct Hok as [Hb Hup].
    destruct (negb (length mapped =? 0)%nat).
    { rewrite copyFromChecked_eq in H.
      apply Some_inj in H. pair_inv H. pair_inv H0. pair_inv H. now split. }
    destruct (Read fuel up _) as [[[[up' b0] n0] [e|]]|] eqn:Hr;
      [| |discriminate].
    + apply Some_inj in H. pair_inv H. pair_inv H0. pair_inv H.
      split; [assumption|]. eapply IH; eassumption.
    + eapply IH; [|exact H]. split; [apply runes_of_carry|].
      eapply IH; eassumption.
  - rewrite Read_TrimReader in H. cbn [carry_ok] in Hok.
    destruct Hok as [Hb Hup].
    destruct (negb (length trimmed =? 0)%nat).
    { rewrite copyFromChecked_eq in H.
      apply Some_inj in H. pair_inv H. pair_inv H0. pair_inv H. now split. }
    destruct (Read fuel up _) as [[[[up' b0] n0] [e|]]|] eqn:Hr;
      [| |discriminate].
    + apply Some_inj in H. pair_inv H. pair_inv H0. pair_inv H.
      split; [assumption|]. eapply IH; eassumption.
    + destruct (trim_runes skipped [] _) as [[out held] sk'] eqn:Et.
      eapply IH; [|exact H]. split; [eapply trim_carry_spaces; eassumption|].
      eapply IH; eassumption.
Qed.
End Carry.

(** One fill cycle of a fresh [TrimReader] on the input "a ". *)
Lemma carry_ok_invariant_witness :
  carry_ok (TrimReader (FileReader [Data [x61; x20]]) [] [] false)
  /\ Read (tables := identity_tables) 3
          (TrimReader (FileReader [Data [x61; x20]]) [] [] false) (make 4)
     = Some (TrimReader (FileReader []) [x20] [] true,
             [x61; x00; x00; x00], 1%nat, None)
  /\ carry_ok (TrimReader (FileReader []) [x20] [] true).
Proof.
  assert (H0 : carry_ok (TrimReader (FileReader [Data [x61; x20]]) [] [] false))
    by (split; [reflexivity|exact I]).
  assert (H1 : Read (tables := identity_tables) 3
                 (TrimReader (FileReader [Data [x61; x20]]) [] [] false)
                 (make 4)
               = Some (TrimReader (FileReader []) [x20] [] true,
                       [x61; x00; x00; x00], 1%nat, None))
    by (vm_compute; reflexivity).
  split; [exact H0|]. split; [exact H1|].
  exact (proj2 (carry_ok_invariant (tables := identity_tables))
               _ _ _ _ _ _ _ H0 H1).
Defined.

(** C4, as stated, fails for the trim filter: after one fill cycle on the
    input "a " the carry buffer holds the space, a complete character
    that decodes. *)
Lemma carry_holds_white_space_counterexample :
  carry_undecodable (TrimReader (FileReader [Data [x61; x20]]) [] [] false)
  /\ Read (tables := identity_tables) 3
          (TrimReader (FileReader [Data [x61; x20]]) [] [] false) (make 4)
     = Some (TrimReader (FileReader []) [x20] [] true,
             [x61; x00; x00; x00], 1%nat, None)
  /\ ~ carry_undecodable (TrimReader (FileReader []) [x20] [] true)
  /\ DecodeRune [x20] = (0x20, 1%nat).
Proof.
  split; [split; [reflexivity|exact I]|].
  split; [vm_compute; reflexivity|].
  split; [|reflexivity].
  intros [H _]. vm_compute in H. discriminate.
Qed.

(* ================================================================== *)
(** * Errors and conservation in the case filter *)

Section CaseFill.
Context {tables : CaseTables}.

(** C5.  A fill request to a case filter over an open file, whose reads
    may fail.  If the request returns an error, it is the error that the
    file reported, unchanged, be it a failure or the end of the file;
    nothing is pending then (what was pending has been delivered
    before), nothing is reported as delivered and the caller's buffer is
    untouched.  And no byte is lost: the bytes [taken] from the file
    during the request are, together with the old carry buffer, either
    decoded or in the new carry buffer, and the transform of what was
    decoded is either in the first [n] bytes of the caller's buffer or
    pending. *)
Theorem case_fill_propagates_and_conserves :
  forall fuel toUpper script mapped buffer p rd' p' n err,
    runes_of buffer = [] ->
    Read fuel (CaseReader (FileReader script) toUpper mapped buffer) p
    = Some (rd', p', n, err) ->
    exists taken script' mapped' buffer',
      rd' = CaseReader (FileReader script') toUpper mapped' buffer'
      /\ data_of script = taken ++ data_of script'
      /\ buffer ++ taken
         = concat (map snd (runes_of (buffer ++ taken))) ++ buffer'
      /\ mapped ++ case_runes toUpper (runes_of (buffer ++ taken))
         = firstn n p' ++ mapped'
      /\ runes_of buffer' = []
      /\ (forall e, err = Some e ->
                    e = first_failure script
                    /\ n = 0%nat /\ p' = p /\ mapped' = []).
Proof.
  induction fuel as [|fuel IH];
    intros toUpper script mapped buffer p rd' p' n err Hb H; [discriminate|].
  rewrite Read_CaseReader in H.
  destruct (negb (length mapped =? 0)%nat) eqn:Em.
  { (* delivery *)
    rewrite copyFromChecked_eq in H.
    apply Some_inj in H. pair_inv H. pair_inv H0. pair_inv H.
    exists [], script, (skipn (Nat.min (length p) (length mapped)) mapped),
      buffer.
    rewrite !app_nil_r, Hb. cbn [map concat case_runes flat_map app].
    rewrite app_nil_r, firstn_prefix, firstn_skipn by lia.
    repeat split; try reflexivity; try assumption; discriminate. }
  assert (mapped = []) by (destruct mapped; [reflexivity|discriminate]).
  subst mapped. cbn [app] in *.
  destruct fuel as [|fuel]; [discriminate|].
  rewrite Read_FileReader in H. unfold File_Read in H.
  rewrite length_make in H.
  assert (Hstuck : forall script1 chunk,
    data_of script = chunk ++ data_of script1 ->
    first_failure script1 = first_failure script ->
    Read (S fuel)
         (CaseReader (FileReader script1) toUpper
                     (case_out toUpper (buffer ++ chunk))
                     (carry_of (buffer ++ chunk))) p
    = Some (rd', p', n, err) ->
    exists taken script' mapped' buffer',
      rd' = CaseReader (FileReader script') toUpper mapped' buffer'
      /\ data_of script = taken ++ data_of script'
      /\ buffer ++ taken
         = concat (map snd (runes_of (buffer ++ taken))) ++ buffer'
      /\ case_runes toUpper (runes_of (buffer ++ taken))
         = firstn n p' ++ mapped'
      /\ runes_of buffer' = []
      /\ (forall e, err = Some e ->
                    e = first_failure script
                    /\ n = 0%nat /\ p' = p /\ mapped' = [])).
  { intros script1 chunk Hd Hf H1.
    destruct (IH _ _ _ _ _ _ _ _ _ (runes_of_carry (buffer ++ chunk)) H1)
      as (taken1 & script' & mapped' & buffer' & -> & Hd1 & Hs1 & Hm1 & Hb1 & He1).
    exists (chunk ++ taken1), script', mapped', buffer'.
    rewrite app_assoc, runes_of_app, map_app, concat_app, case_runes_app.
    split; [reflexivity|].
    split; [now rewrite Hd, Hd1, app_assoc|].
    split.
    { rewrite (decode_split (buffer ++ chunk)) at 1.
      rewrite <- !app_assoc. f_equal. exact Hs1. }
    split; [exact Hm1|]. split; [exact Hb1|].
    intros e Ee. rewrite <- Hf. now apply He1. }
  destruct (length p =? 0)%nat.
  { (* an empty buffer reads nothing *)
    cbn [firstn] in H. apply (Hstuck script []); [reflexivity|reflexivity|].
    exact H. }
  destruct script as [|[c|e] rest].
  - (* end of the file *)
    apply Some_inj in H. pair_inv H. pair_inv H0. pair_inv H.
    exists [], [], [], buffer.
    rewrite !app_nil_r, Hb. cbn.
    repeat split; try reflexivity; try assumption.
    all: intros;
      match goal with E : Some _ = Some _ |- _ => apply Some_inj in E end;
      congruence.
  - (* some data *)
    set (n0 := Nat.min (length p) (length c)) in *.
    rewrite firstn_prefix in H by lia.
    apply (Hstuck (if (n0 <? length c)%nat then Data (skipn n0 c) :: rest
                   else rest) (firstn n0 c)); [| |exact H].
    + cbn [data_of]. destruct (n0 <? length c)%nat eqn:E.
      * cbn [data_of]. now rewrite app_assoc, firstn_skipn.
      * apply Nat.ltb_ge in E. rewrite firstn_all2 by lia. reflexivity.
    + destruct (n0 <? length c)%nat; reflexivity.
  - (* a failure *)
    apply Some_inj in H. pair_inv H. pair_inv H0. pair_inv H.
    exists [], rest, [], buffer.
    rewrite !app_nil_r, Hb. cbn.
    repeat split; try reflexivity; try assumption.
    all: intros;
      match goal with E : Some _ = Some _ |- _ => apply Some_inj in E end;
      congruence.
Qed.
End CaseFill.

(** A case filter over a file that hands over "ab" and then fails: the
    first request delivers "AB", the second returns the failure. *)
Lemma case_fill_propagates_and_conserves_witness :
  Read (tables := identity_tables) 4
       (CaseReader (FileReader [Data [x61; x62]; Failure (ErrIO "disk")])
                   true [] []) (make 4)
  = Some (CaseReader (FileReader [Failure (ErrIO "disk")]) true [] [],
          [x41; x42; x00; x00], 2%nat, None)
  /\ Read (tables := identity_tables) 4
          (CaseReader (FileReader [Failure (ErrIO "disk")]) true [] [])
          (make 4)
     = Some (CaseReader (FileReader []) true [] [], make 4, 0%nat,
             Some (ErrIO "disk"))
  /\ exists taken script' mapped' buffer',
      CaseReader (FileReader []) true [] []
      = CaseReader (FileReader script') true mapped' buffer'
      /\ data_of [Failure (ErrIO "disk")] = taken ++ data_of script'
      /\ [] ++ taken = concat (map snd (runes_of ([] ++ taken))) ++ buffer'
      /\ [] ++ case_runes (tables := identity_tables) true
                          (runes_of ([] ++ taken))
         = firstn 0 (make 4) ++ mapped'
      /\ runes_of buffer' = []
      /\ (forall e, Some (ErrIO "disk") = Some e ->
                    e = first_failure [Failure (ErrIO "disk")]
                    /\ 0%nat = 0%nat /\ make 4 = make 4 /\ mapped' = []).
Proof.
  split; [vm_compute; reflexivity|].
  split; [vm_compute; reflexivity|].
  apply (case_fill_propagates_and_conserves
           (tables := identity_tables) 4 true
           [Failure (ErrIO "disk")] [] [] (make 4));
    [reflexivity|vm_compute; reflexivity].
Defined.

(* ================================================================== *)
(** * Skipping *)

Lemma int64_small z : 0 <= z < 2 ^ 63 -> int64 z = z.
Proof.
  intros H. unfold int64.
  rewrite Z.mod_small; lia.
Qed.

Section Skipping.
Context {tables : CaseTables}.

Lemma discard_ReadFrom_mono : forall f r n res,
  discard_ReadFrom f r n = Some res ->
  forall f', (f <= f')%nat -> discard_ReadFrom f' r n = Some res.
Proof.
  induction f as [|f IH]; intros r n res H f' Hle; [discriminate|].
  destruct f' as [|f']; [lia|]. apply le_S_n in Hle.
  cbn [discard_ReadFrom] in *.
  destruct (Read f r _) as [[[[r' q] m] err]|] eqn:E; [|discriminate].
  rewrite (Read_mono _ _ _ _ E f' Hle).
  destruct err; [assumption|]. now apply IH.
Qed.

(** [io.Copy(io.Discard, r)] reads a reader that stands for [s] to its
    end and counts the bytes of [s]. *)
Lemma discard_ReadFrom_Yields r s :
  Yields r s ->
  forall n, exists fuel r',
    discard_ReadFrom fuel r n = Some (r', n + Z.of_nat (length s), None).
Proof.
  induction 1 as [r s Hread Hnext IH]. intros n.
  assert (Hp : (1 <= length (make blackHole_size))%nat)
    by (rewrite length_make; unfold blackHole_size; lia).
  destruct (Hread _ Hp) as (f0 & [[[r' q] m] err] & Hr & Hd).
  cbn [delivers] in Hd. destruct err as [e|].
  - destruct Hd as (-> & -> & -> & ->).
    exists (S f0), r'. cbn [discard_ReadFrom]. rewrite Hr. reflexivity.
  - destruct Hd as (Hm1 & Hm2 & ->).
    destruct (IH _ _ _ _ _ Hp Hr (n + Z.of_nat m)) as (f1 & r'' & H1).
    exists (S (Nat.max f0 f1)), r''. cbn [discard_ReadFrom].
    rewrite (Read_mono _ _ _ _ Hr (Nat.max f0 f1)) by lia.
    rewrite (discard_ReadFrom_mono _ _ _ _ H1 (Nat.max f0 f1)) by lia.
    rewrite length_skipn.
    replace (n + Z.of_nat m + Z.of_nat (length s - m))
      with (n + Z.of_nat (length s)) by lia.
    reflexivity.
Qed.

(** [io.CopyN(io.Discard, src, n)] on a source that stands for [s]:
    success when [s] has [n] bytes or more, and the end-of-stream error
    when it has fewer. *)
Lemma CopyN_Discard_Yields src s n :
  Yields src s -> 0 <= n ->
  exists fuel src',
    CopyN_Discard fuel src n
    = Some (src',
            Z.min n (Z.of_nat (length s)),
            if Z.of_nat (length s) <? n then Some EOF else None).
Proof.
  intros Hy Hn.
  destruct (discard_ReadFrom_Yields _ _ (Yields_LimitedReader _ _ Hy n) 0)
    as (fuel & lr & H).
  exists fuel. unfold CopyN_Discard, LimitReader. rewrite H.
  eexists. rewrite length_firstn. cbn [Z.add].
  destruct (Z.of_nat (length s) <? n) eqn:E.
  - apply Z.ltb_lt in E.
    destruct (Z.of_nat (Nat.min (Z.to_nat n) (length s)) =? n) eqn:E1;
      [apply Z.eqb_eq in E1; lia|].
    destruct (Z.of_nat (Nat.min (Z.to_nat n) (length s)) <? n) eqn:E2;
      [|apply Z.ltb_ge in E2; lia].
    replace (Z.min n (Z.of_nat (length s)))
      with (Z.of_nat (Nat.min (Z.to_nat n) (length s))) by lia.
    reflexivity.
  - apply Z.ltb_ge in E.
    destruct (Z.of_nat (Nat.min (Z.to_nat n) (length s)) =? n) eqn:E1;
      [|apply Z.eqb_neq in E1; lia].
    replace (Z.min n (Z.of_nat (length s))) with n by lia.
    reflexivity.
Qed.

(** C3, as the code has it.  Let the source be standard input or a file
    that can be opened, with reads that do not fail, and let the skip
    count be below 2^63.  When the skip count is greater than the number
    of bytes of the source, [CreateReader] returns no reader and the
    end-of-stream error of the discarding copy.  When it is that number
    or less, [CreateReader] returns a reader and no error. *)
Theorem skip_beyond_source_fails
        (opts : Options) (w : World) (script : list sysread) :
  source_script opts w = Some script ->
  failure_free script = true ->
  0 <= Offset opts < 2 ^ 63 ->
  exists fuel w',
    if Z.of_nat (length (data_of script)) <? Offset opts
    then CreateReader fuel opts w = Some (None, Some EOF, w')
    else exists r, CreateReader fuel opts w = Some (Some r, None, w').
Proof.
  intros Hsrc Hff Hoff.
  destruct (CopyN_Discard_Yields (FileReader script) (data_of script)
              (Offset opts) (Yields_FileReader script Hff) (proj1 Hoff))
    as (fuel & src' & Hc).
  exists fuel.
  unfold CreateReader, source_script, os_Open in *.
  rewrite int64_small by assumption.
  destruct (String.eqb (From opts) "").
  - apply Some_inj in Hsrc. subst script. rewrite Hc.
    destruct (Z.of_nat (length (data_of (stdin w))) <? Offset opts) eqn:E.
    + eexists. reflexivity.
    + apply Z.ltb_ge in E. rewrite Z.min_l by lia.
      rewrite Z.ltb_irrefl. eexists. eexists. reflexivity.
  - destruct (lookup (From opts) (files w)) as [[|b content]|];
      [| |discriminate]; apply Some_inj in Hsrc; subst script; rewrite Hc.
    + destruct (Z.of_nat (length (data_of [])) <? Offset opts) eqn:E.
      * eexists. reflexivity.
      * apply Z.ltb_ge in E. rewrite Z.min_l by lia.
        rewrite Z.ltb_irrefl. eexists. eexists. reflexivity.
    + destruct (Z.of_nat (length (data_of [Data (b :: content)]))
                <? Offset opts) eqn:E.
      * eexists. reflexivity.
      * apply Z.ltb_ge in E. rewrite Z.min_l by lia.
        rewrite Z.ltb_irrefl. eexists. eexists. reflexivity.
Qed.
End Skipping.

(** The options [-from in.txt -offset n]. *)
Definition skip_options (n : Z) : Options :=
  {| From := "in.txt"; To := ""; Offset := n; Limit := MaxInt;
     BlockSize := 1024; Conv := [] |}.

(** Skipping four bytes of the three-byte file "abc". *)
Lemma skip_beyond_source_fails_witness :
  source_script (skip_options 4) (world_of (bytes_of "abc"))
  = Some [Data (bytes_of "abc")]
  /\ exists fuel w',
      CreateReader (tables := identity_tables) fuel (skip_options 4)
                   (world_of (bytes_of "abc"))
      = Some (None, Some EOF, w').
Proof.
  split; [reflexivity|].
  apply (skip_beyond_source_fails
           (tables := identity_tables) (skip_options 4)
           (world_of (bytes_of "abc")) [Data (bytes_of "abc")]);
    [reflexivity|reflexivity|vm_compute; split; [discriminate|reflexivity]].
Defined.

(** C3, as stated, fails when the skip count equals the length of the
    source: skipping three bytes of the three-byte file "abc" succeeds,
    and the reader that is returned is at the end of the file. *)
Lemma skip_whole_source_counterexample :
  Offset (skip_options 3) = Z.of_nat (length (bytes_of "abc"))
  /\ CreateReader (tables := identity_tables) 4 (skip_options 3)
                  (world_of (bytes_of "abc"))
     = Some (Some (LimitedReader (FileReader []) MaxInt), None,
             world_of (bytes_of "abc")).
Proof. split; vm_compute; reflexivity. Qed.

(* ================================================================== *)
(** * Encoding what was decoded *)

Lemma b2z_range b : 0 <= b2z b < 256.
Proof.
  unfold b2z. pose proof (Byte.to_N_bounded b). lia.
Qed.

Lemma z2b_b2z b : z2b (b2z b) = b.
Proof.
  unfold z2b. rewrite Z.mod_small by apply b2z_range.
  unfold b2z. rewrite N2Z.id, Byte.of_to_N. reflexivity.
Qed.

Lemma lor_add a n b :
  0 <= n -> 0 <= b < 2 ^ n -> Z.lor (a * 2 ^ n) b = a * 2 ^ n + b.
Proof.
  intros Hn Hb.
  rewrite <- Z.lxor_lor, <- Z.add_nocarry_lxor; try reflexivity.
  all: apply Z.bits_inj'; intros i Hi; rewrite Z.land_spec, Z.bits_0;
    destruct (Z.lt_ge_cases i n) as [Hlt|Hge].
  all: try (rewrite Z.mul_pow2_bits_low by lia; reflexivity).
  all: rewrite andb_false_iff; right;
    destruct (Z.eq_dec b 0) as [->|Hne]; [apply Z.bits_0|];
    assert (2 ^ n <= 2 ^ i) by (apply Z.pow_le_mono_r; lia);
    apply Z.bits_above_log2; [lia|];
    apply Z.log2_lt_pow2; lia.
Qed.

Lemma land_mask p n : 0 <= n -> Z.land p (2 ^ n - 1) = p mod 2 ^ n.
Proof.
  intros Hn. rewrite <- Z.land_ones by assumption.
  now rewrite Z.ones_equiv, Z.sub_1_r.
Qed.

Ltac bits :=
  change maskx with (2 ^ 6 - 1) in *; change mask2 with (2 ^ 5 - 1) in *;
  change mask3 with (2 ^ 4 - 1) in *; change mask4 with (2 ^ 3 - 1) in *;
  rewrite ?land_mask, ?Z.shiftl_mul_pow2, ?Z.shiftr_div_pow2 by lia.

Lemma enc2 p0 p1 :
  0xC2 <= p0 <= 0xDF -> 0x80 <= p1 <= 0xBF ->
  AppendRune (Z.lor (Z.shiftl (Z.land p0 mask2) 6) (Z.land p1 maskx))
  = [z2b p0; z2b p1].
Proof.
  intros H0 H1.
  assert (Hr : Z.lor (Z.shiftl (Z.land p0 mask2) 6) (Z.land p1 maskx)
               = (p0 - 0xC0) * 64 + (p1 - 0x80)).
  { bits. rewrite lor_add by (Z.to_euclidean_division_equations; lia).
    Z.to_euclidean_division_equations; lia. }
  rewrite Hr. set (r := (p0 - 0xC0) * 64 + (p1 - 0x80)).
  assert (Hrange : 0x80 <= r <= 0x7FF) by (subst r; lia).
  unfold AppendRune.
  rewrite (Z.mod_small r) by lia.
  destruct (r <=? rune1Max) eqn:E1; [apply Z.leb_le in E1; unfold rune1Max in E1; lia|].
  destruct (r <=? rune2Max) eqn:E2; [|apply Z.leb_gt in E2; unfold rune2Max in E2; lia].
  f_equal; [|f_equal]; f_equal.
  - bits. change t2 with (3 * 2 ^ 6).
    rewrite lor_add by (subst r; Z.to_euclidean_division_equations; lia).
    subst r; Z.to_euclidean_division_equations; lia.
  - bits. change tx with (1 * 2 ^ 7).
    rewrite lor_add by (subst r; Z.to_euclidean_division_equations; lia).
    subst r; Z.to_euclidean_division_equations; lia.
Qed.

Lemma enc1 p0 : 0 <= p0 < 0x80 -> AppendRune p0 = [z2b p0].
Proof.
  intros H. unfold AppendRune. rewrite Z.mod_small by lia.
  destruct (p0 <=? rune1Max) eqn:E; [reflexivity|].
  apply Z.leb_gt in E. unfold rune1Max in E. lia.
Qed.

Lemma enc3 p0 p1 p2 :
  0xE0 <= p0 <= 0xEF -> 0x80 <= p1 <= 0xBF -> 0x80 <= p2 <= 0xBF ->
  (p0 = 0xE0 -> 0xA0 <= p1) -> (p0 = 0xED -> p1 <= 0x9F) ->
  AppendRune (Z.lor (Z.lor (Z.shiftl (Z.land p0 mask3) 12)
                           (Z.shiftl (Z.land p1 maskx) 6))
                    (Z.land p2 maskx))
  = [z2b p0; z2b p1; z2b p2].
Proof.
  intros H0 H1 H2 Hlo Hhi.
  assert (Hr : Z.lor (Z.lor (Z.shiftl (Z.land p0 mask3) 12)
                            (Z.shiftl (Z.land p1 maskx) 6))
                     (Z.land p2 maskx)
               = (p0 - 0xE0) * 4096 + (p1 - 0x80) * 64 + (p2 - 0x80)).
  { bits. rewrite lor_add by (Z.to_euclidean_division_equations; lia).
    replace (p0 mod 2 ^ 4 * 2 ^ 12 + p1 mod 2 ^ 6 * 2 ^ 6)
      with ((p0 mod 2 ^ 4 * 2 ^ 6 + p1 mod 2 ^ 6) * 2 ^ 6) by lia.
    rewrite lor_add by (Z.to_euclidean_division_equations; lia).
    Z.to_euclidean_division_equations; lia. }
  rewrite Hr. set (r := (p0 - 0xE0) * 4096 + (p1 - 0x80) * 64 + (p2 - 0x80)).
  assert (Hrange : 0x800 <= r <= 0xFFFF /\ ~ (0xD800 <= r <= 0xDFFF))
    by (subst r; lia).
  unfold AppendRune.
  rewrite (Z.mod_small r) by lia.
  unfold rune1Max, rune2Max, rune3Max, MaxRune, surrogateMin, surrogateMax.
  destruct (r <=? 127) eqn:E1; [apply Z.leb_le in E1; lia|].
  destruct (r <=? 2047) eqn:E2; [apply Z.leb_le in E2; lia|].
  destruct (1114111 <? r) eqn:E3; [apply Z.ltb_lt in E3; lia|].
  destruct ((55296 <=? r) && (r <=? 57343)) eqn:E4;
    [apply andb_true_iff in E4 as [E4 E5];
     apply Z.leb_le in E4; apply Z.leb_le in E5; lia|].
  destruct (r <=? 65535) eqn:E6; [|apply Z.leb_gt in E6; lia].
  cbn [orb]. cbv beta.
  f_equal; [|f_equal; [|f_equal]]; f_equal.
  - bits. change t3 with (7 * 2 ^ 5).
    rewrite lor_add by (subst r; Z.to_euclidean_division_equations; lia).
    subst r; Z.to_euclidean_division_equations; lia.
  - bits. change tx with (1 * 2 ^ 7).
    rewrite lor_add by (subst r; Z.to_euclidean_division_equations; lia).
    subst r; Z.to_euclidean_division_equations; lia.
  - bits. change tx with (1 * 2 ^ 7).
    rewrite lor_add by (subst r; Z.to_euclidean_division_equations; lia).
    subst r; Z.to_euclidean_division_equations; lia.
Qed.

Lemma enc4 p0 p1 p2 p3 :
  0xF0 <= p0 <= 0xF4 -> 0x80 <= p1 <= 0xBF -> 0x80 <= p2 <= 0xBF ->
  0x80 <= p3 <= 0xBF ->
  (p0 = 0xF0 -> 0x90 <= p1) -> (p0 = 0xF4 -> p1 <= 0x8F) ->
  AppendRune (Z.lor (Z.lor (Z.lor (Z.shiftl (Z.land p0 mask4) 18)
                                  (Z.shiftl (Z.land p1 maskx) 12))
                           (Z.shiftl (Z.land p2 maskx) 6))
                    (Z.land p3 maskx))
  = [z2b p0; z2b p1; z2b p2; z2b p3].
Proof.
  intros H0 H1 H2 H3 Hlo Hhi.
  assert (Hr : Z.lor (Z.lor (Z.lor (Z.shiftl (Z.land p0 mask4) 18)
                                   (Z.shiftl (Z.land p1 maskx) 12))
                            (Z.shiftl (Z.land p2 maskx) 6))
                     (Z.land p3 maskx)
               = (p0 - 0xF0) * 262144 + (p1 - 0x80) * 4096
                 + (p2 - 0x80) * 64 + (p3 - 0x80)).
  { bits. rewrite lor_add by (Z.to_euclidean_division_equations; lia).
    replace (p0 mod 2 ^ 3 * 2 ^ 18 + p1 mod 2 ^ 6 * 2 ^ 12)
      with ((p0 mod 2 ^ 3 * 2 ^ 6 + p1 mod 2 ^ 6) * 2 ^ 12) by lia.
    rewrite lor_add by (Z.to_euclidean_division_equations; lia).
    replace ((p0 mod 2 ^ 3 * 2 ^ 6 + p1 mod 2 ^ 6) * 2 ^ 12
             + p2 mod 2 ^ 6 * 2 ^ 6)
      with (((p0 mod 2 ^ 3 * 2 ^ 6 + p1 mod 2 ^ 6) * 2 ^ 6 + p2 mod 2 ^ 6)
            * 2 ^ 6) by lia.
    rewrite lor_add by (Z.to_euclidean_division_equations; lia).
    Z.to_euclidean_division_equations; lia. }
  rewrite Hr.
  set (r := (p0 - 0xF0) * 262144 + (p1 - 0x80) * 4096
            + (p2 - 0x80) * 64 + (p3 - 0x80)).
  assert (Hrange : 0x10000 <= r <= 0x10FFFF) by (subst r; lia).
  unfold AppendRune.
  rewrite (Z.mod_small r) by lia.
  unfold rune1Max, rune2Max, rune3Max, MaxRune, surrogateMin, surrogateMax.
  destruct (r <=? 127) eqn:E1; [apply Z.leb_le in E1; lia|].
  destruct (r <=? 2047) eqn:E2; [apply Z.leb_le in E2; lia|].
  destruct (1114111 <? r) eqn:E3; [apply Z.ltb_lt in E3; lia|].
  destruct ((55296 <=? r) && (r <=? 57343)) eqn:E4;
    [apply andb_true_iff in E4 as [E4 E5];
     apply Z.leb_le in E4; apply Z.leb_le in E5; lia|].
  destruct (r <=? 65535) eqn:E6; [apply Z.leb_le in E6; lia|].
  cbn [orb]. cbv beta.
  f_equal; [|f_equal; [|f_equal; [|f_equal]]]; f_equal.
  - bits. change t4 with (15 * 2 ^ 4).
    rewrite lor_add by (subst r; Z.to_euclidean_division_equations; lia).
    subst r; Z.to_euclidean_division_equations; lia.
  - bits. change tx with (1 * 2 ^ 7).
    rewrite lor_add by (subst r; Z.to_euclidean_division_equations; lia).
    subst r; Z.to_euclidean_division_equations; lia.
  - bits. change tx with (1 * 2 ^ 7).
    rewrite lor_add by (subst r; Z.to_euclidean_division_equations; lia).
    subst r; Z.to_euclidean_division_equations; lia.
  - bits. change tx with (1 * 2 ^ 7).
    rewrite lor_add by (subst r; Z.to_euclidean_division_equations; lia).
    subst r; Z.to_euclidean_division_equations; lia.
Qed.

(** The table [first], with the ranges of its index. *)
Lemma first_table b :
  (b2z b < 0x80 /\ first b = as_)
  \/ first b = xx
  \/ (0xC2 <= b2z b <= 0xDF /\ first b = s1)
  \/ (b2z b = 0xE0 /\ first b = s2)
  \/ (0xE1 <= b2z b <= 0xEF /\ b2z b <> 0xED /\ first b = s3)
  \/ (b2z b = 0xED /\ first b = s4)
  \/ (b2z b = 0xF0 /\ first b = s5)
  \/ (0xF1 <= b2z b <= 0xF3 /\ first b = s6)
  \/ (b2z b = 0xF4 /\ first b = s7).
Proof.
  unfold first.
  repeat match goal with
         | |- context [if ?c then _ else _] =>
             let E := fresh "E" in destruct c eqn:E
         end;
    repeat match goal with
           | H : (_ <? _) = true |- _ => apply Z.ltb_lt in H
           | H : (_ <? _) = false |- _ => apply Z.ltb_ge in H
           | H : (_ =? _) = true |- _ => apply Z.eqb_eq in H
           | H : (_ =? _) = false |- _ => apply Z.eqb_neq in H
           end;
    intuition lia.
Qed.

(** Replaces what depends on the entry [x] of [first] alone by its
    value. *)
Ltac table_entry x :=
  let a := eval vm_compute in (as_ <=? x) in
  change (as_ <=? x) with a in *;
  let m := eval vm_compute in (Z.shiftr (int32 (Z.shiftl x 31)) 31) in
  change (Z.shiftr (int32 (Z.shiftl x 31)) 31) with m in *;
  let n := eval vm_compute in (Z.to_nat (Z.land x 7)) in
  change (Z.to_nat (Z.land x 7)) with n in *;
  let r := eval vm_compute in (acceptRanges (Z.shiftr x 4)) in
  change (acceptRanges (Z.shiftr x 4)) with r in *.

Ltac range_tests :=
  repeat match goal with
         | H : context [if ?c then _ else _] |- _ =>
             let E := fresh "T" in destruct c eqn:E
         end;
  repeat match goal with
         | H : (_ || _) = false |- _ => apply orb_false_iff in H as [? ?]
         end;
  repeat match goal with
         | H : (_ <? _) = false |- _ => apply Z.ltb_ge in H
         end.

Ltac decode_shape E rest :=
  destruct rest as [|? [|? [|? rest]]];
  unfold at_ in E; cbn [length Nat.ltb Nat.leb nth] in E;
  repeat match type of E with
         | context [if ?c then _ else _] =>
             let T := fresh "T" in destruct c eqn:T
         end;
  apply pair_equal_spec in E; destruct E as [Er Ek];
  try discriminate Ek;
  try (destruct rest; [|discriminate Ek]);
  repeat match goal with
         | H : (_ || _) = false |- _ =>
             apply orb_false_iff in H; destruct H as [? ?]
         end;
  repeat match goal with
         | H : (_ <? _) = false |- _ => apply Z.ltb_ge in H
         end;
  unfold locb, hicb in *.

Lemma AppendRune_DecodeRune c :
  is_char c = true -> AppendRune (rune_of c) = c.
Proof.
  intros H. destruct (is_char_inv c H) as (E & Hr & Hn). clear H.
  destruct c as [|b0 rest]; [contradiction|]. clear Hn.
  pose proof (b2z_range b0) as R0.
  set (r := rune_of (b0 :: rest)) in *. clearbody r.
  unfold DecodeRune in E.
  change (nth 0 (b0 :: rest) x00) with b0 in E.
  change (at_ (b0 :: rest) 0) with (b2z b0) in E.
  change (length (b0 :: rest) <? 1)%nat with false in E.
  destruct (first_table b0)
    as [[H0 F]|[F|[[H0 F]|[[H0 F]|[(H0 & H0' & F)|[[H0 F]|[[H0 F]|[[H0 F]|[H0 F]]]]]]]]];
    rewrite F in E;
    match type of F with _ = ?x => table_entry x end; clear F;
    cbv iota in E; cbn [fst snd] in E.
  - (* one byte *)
    apply pair_equal_spec in E. destruct E as [Er Ek].
    destruct rest; [|discriminate Ek].
    change (Z.lnot 0) with (-1) in Er.
    rewrite Z.land_m1_r, Z.land_0_r, Z.lor_0_r in Er. subst r.
    rewrite enc1 by lia. now rewrite z2b_b2z.
  - (* not a first byte *)
    apply pair_equal_spec in E. destruct E as [Er Ek].
    change (Z.lnot (-1)) with 0 in Er.
    rewrite Z.land_0_r, Z.lor_0_l, Z.land_m1_r in Er. now subst r.
  - decode_shape E rest; subst r; try contradiction.
    rewrite enc2 by lia. now rewrite !z2b_b2z.
  - decode_shape E rest; subst r; try contradiction.
    rewrite enc3 by lia. now rewrite !z2b_b2z.
  - decode_shape E rest; subst r; try contradiction.
    rewrite enc3 by lia. now rewrite !z2b_b2z.
  - decode_shape E rest; subst r; try contradiction.
    rewrite enc3 by lia. now rewrite !z2b_b2z.
  - decode_shape E rest; subst r; try contradiction.
    rewrite enc4 by lia. now rewrite !z2b_b2z.
  - decode_shape E rest; subst r; try contradiction.
    rewrite enc4 by lia. now rewrite !z2b_b2z.
  - decode_shape E rest; subst r; try contradiction.
    rewrite enc4 by lia. now rewrite !z2b_b2z.
Qed.

(* ================================================================== *)
(** * The case transform of a whole text *)

Lemma DecodeRune_ascii b rest :
  b2z b < 0x80 -> DecodeRune (b :: rest) = (b2z b, 1%nat).
Proof.
  intros H. unfold DecodeRune.
  change (length (b :: rest) <? 1)%nat with false.
  change (nth 0 (b :: rest) x00) with b.
  change (at_ (b :: rest) 0) with (b2z b).
  assert (F : first b = as_).
  { unfold first. destruct (b2z b <? 128) eqn:E; [reflexivity|].
    apply Z.ltb_ge in E. lia. }
  rewrite F. table_entry as_. cbv iota zeta.
  change (Z.lnot 0) with (-1).
  now rewrite Z.land_m1_r, Z.land_0_r, Z.lor_0_r.
Qed.

Lemma isASCII_app a b : isASCII (a ++ b) = isASCII a && isASCII b.
Proof. apply forallb_app. Qed.

(** An ASCII character is one byte. *)
Lemma ascii_char c :
  is_char c = true -> isASCII c = true ->
  exists b, c = [b] /\ b2z b < 0x80 /\ rune_of c = b2z b.
Proof.
  intros Hc Ha. destruct (is_char_inv c Hc) as (E & _ & Hn).
  destruct c as [|b rest]; [contradiction|].
  cbn [isASCII forallb] in Ha. apply andb_true_iff in Ha as [Hb _].
  apply Z.ltb_lt in Hb. unfold RuneSelf in Hb.
  rewrite (DecodeRune_ascii b rest Hb) in E.
  apply pair_equal_spec in E as [Er Ek].
  destruct rest; [|discriminate Ek]. eauto.
Qed.

(** [strings.Map] on a text: character by character. *)
Lemma Map_loop_text mapping cs : forall fuel,
  forallb is_char cs = true ->
  (length (concat cs) <= fuel)%nat ->
  Map_loop fuel mapping (concat cs)
  = flat_map (fun c => mapped_rune mapping (rune_of c)) cs.
Proof.
  induction cs as [|c cs IH]; intros fuel Hc Hf.
  - destruct fuel; reflexivity.
  - cbn [forallb] in Hc. apply andb_true_iff in Hc as [Hc1 Hc2].
    destruct (is_char_inv c Hc1) as (E & Hr & Hn).
    destruct (DecodeRune_app c (concat cs) E Hr) as [Hk E'].
    cbn [concat flat_map] in *. rewrite length_app in Hf.
    destruct fuel as [|fuel]; [lia|].
    destruct c as [|b c]; [contradiction|].
    cbn [Map_loop app]. change (b :: c ++ concat cs) with ((b :: c) ++ concat cs).
    rewrite E', skipn_app, skipn_all, Nat.sub_diag. cbn [skipn app].
    rewrite IH by (auto; cbn [length] in Hf; lia). reflexivity.
Qed.

Section AsciiOrMap.
Variables (lo hi d : Z) (mapping : Z -> Z).
Hypothesis range : 0 <= lo /\ lo <= hi /\ hi <= 0x7F
                   /\ 0 <= lo + d /\ hi + d <= 0x7F.
Hypothesis mapping_ascii : forall r,
  0 <= r <= 0x7F ->
  mapping r = if (lo <=? r) && (r <=? hi) then r + d else r.

Let move (c : byte) : byte :=
  if (lo <=? b2z c) && (b2z c <=? hi) then z2b (b2z c + d) else c.

Lemma ascii_or_map_ascii s :
  isASCII s = true -> ascii_or_map lo hi d mapping s = map move s.
Proof.
  intros Ha. unfold ascii_or_map. rewrite Ha.
  destruct (existsb _ s) eqn:E; [reflexivity|]. cbn [negb].
  rewrite <- (map_id s) at 1. apply map_ext_in. intros c Hin.
  unfold move. destruct ((lo <=? b2z c) && (b2z c <=? hi)) eqn:T;
    [|reflexivity].
  exfalso. rewrite <- not_true_iff_false in E. apply E.
  apply existsb_exists. eauto.
Qed.

(** On one character, both branches give what [strings.Map] gives. *)
Lemma ascii_or_map_char c :
  is_char c = true ->
  ascii_or_map lo hi d mapping c = mapped_rune mapping (rune_of c).
Proof.
  intros Hc. destruct (isASCII c) eqn:Ha.
  - rewrite ascii_or_map_ascii by assumption.
    destruct (ascii_char c Hc Ha) as (b & -> & Hb & ->).
    pose proof (b2z_range b) as Rb.
    unfold mapped_rune. rewrite mapping_ascii by lia.
    cbn [map]. unfold move.
    destruct ((lo <=? b2z b) && (b2z b <=? hi)) eqn:T.
    + apply andb_true_iff in T as [T1 T2].
      apply Z.leb_le in T1. apply Z.leb_le in T2.
      destruct (0 <=? b2z b + d) eqn:T3; [|apply Z.leb_gt in T3; lia].
      now rewrite enc1 by lia.
    + destruct (0 <=? b2z b) eqn:T3; [|apply Z.leb_gt in T3; lia].
      now rewrite enc1, z2b_b2z by lia.
  - unfold ascii_or_map. rewrite Ha. unfold strings_Map.
    pose proof (Map_loop_text mapping [c] (length c)) as H.
    cbn [concat flat_map forallb] in H. rewrite !app_nil_r in H.
    apply H; [now rewrite Hc|lia].
Qed.

(** On a text, the transform of the whole is the transforms of its
    characters, one after the other. *)
Lemma ascii_or_map_text cs :
  forallb is_char cs = true ->
  ascii_or_map lo hi d mapping (concat cs)
  = flat_map (ascii_or_map lo hi d mapping) cs.
Proof.
  intros Hc. destruct (isASCII (concat cs)) eqn:Ha.
  - rewrite ascii_or_map_ascii by assumption.
    clear Hc. induction cs as [|c cs IH]; [reflexivity|].
    cbn [concat] in Ha. rewrite isASCII_app in Ha.
    apply andb_true_iff in Ha as [Ha1 Ha2].
    cbn [concat flat_map]. rewrite map_app, IH by assumption.
    now rewrite ascii_or_map_ascii.
  - unfold ascii_or_map at 1. rewrite Ha. unfold strings_Map.
    rewrite Map_loop_text by (auto; lia).
    rewrite !flat_map_concat_map. f_equal. apply map_ext_in.
    intros c Hin. symmetry. apply ascii_or_map_char.
    rewrite forallb_forall in Hc. now apply Hc.
Qed.
End AsciiOrMap.

Section CaseWhole.
Context {tables : CaseTables}.

Lemma strings_ToUpper_shape s :
  strings_ToUpper s = ascii_or_map 0x61 0x7A (-0x20) unicode_ToUpper s.
Proof. reflexivity. Qed.

Lemma strings_ToLower_shape s :
  strings_ToLower s = ascii_or_map 0x41 0x5A 0x20 unicode_ToLower s.
Proof. reflexivity. Qed.

Lemma unicode_ToUpper_ascii r :
  0 <= r <= 0x7F ->
  unicode_ToUpper r = if (0x61 <=? r) && (r <=? 0x7A) then r + -0x20 else r.
Proof.
  intros H. unfold unicode_ToUpper, MaxASCII.
  destruct (r <=? 127) eqn:E; [reflexivity|]. apply Z.leb_gt in E. lia.
Qed.

Lemma unicode_ToLower_ascii r :
  0 <= r <= 0x7F ->
  unicode_ToLower r = if (0x41 <=? r) && (r <=? 0x5A) then r + 0x20 else r.
Proof.
  intros H. unfold unicode_ToLower, MaxASCII.
  destruct (r <=? 127) eqn:E; [reflexivity|]. apply Z.leb_gt in E. lia.
Qed.

(** The transform of a text is the transforms of its characters. *)
Lemma case_transform_text toUpper cs :
  forallb is_char cs = true ->
  case_transform toUpper (concat cs) = flat_map (case_transform toUpper) cs.
Proof.
  intros Hc. unfold case_transform. destruct toUpper.
  - rewrite strings_ToUpper_shape.
    rewrite (ascii_or_map_text 0x61 0x7A (-0x20) unicode_ToUpper)
      by (auto using unicode_ToUpper_ascii; lia).
    reflexivity.
  - rewrite strings_ToLower_shape.
    rewrite (ascii_or_map_text 0x41 0x5A 0x20 unicode_ToLower)
      by (auto using unicode_ToLower_ascii; lia).
    reflexivity.
Qed.

(** What the loop of [CaseReader] appends for a decoded character is
    the transform of its bytes. *)
Lemma case_rune_char toUpper rc :
  good_rc rc -> case_rune toUpper (fst rc) = case_transform toUpper (snd rc).
Proof.
  intros [Hc Hr]. rewrite <- Hr.
  unfold case_rune, case_transform.
  now rewrite (AppendRune_DecodeRune (snd rc) Hc).
Qed.

(** On an input that decodes fully, the filter computes the transform of
    the whole input. *)
Lemma case_out_whole toUpper s :
  decodes_fully s -> case_out toUpper s = case_transform toUpper s.
Proof.
  intros Hs. unfold decodes_fully in Hs.
  pose proof (decode_split s) as Hsplit. rewrite Hs, app_nil_r in Hsplit.
  pose proof (runes_of_good s) as Hg.
  unfold case_out. rewrite Hsplit at 2.
  rewrite case_transform_text.
  - unfold case_runes. rewrite flat_map_concat_map, flat_map_concat_map.
    rewrite map_map. f_equal. apply map_ext_in. intros rc Hin.
    apply case_rune_char. rewrite Forall_forall in Hg. now apply Hg.
  - rewrite forallb_forall. intros c Hin.
    apply in_map_iff in Hin as (rc & <- & Hin).
    rewrite Forall_forall in Hg. now apply Hg.
Qed.

(** What follows the first place where decoding reports an error adds
    nothing. *)
Lemma case_out_stops toUpper good bad :
  decodes_fully good -> fst (DecodeRune bad) = RuneError ->
  case_out toUpper (good ++ bad) = case_transform toUpper good.
Proof.
  intros Hg Hb. rewrite <- case_out_whole by assumption.
  unfold case_out. rewrite runes_of_app, Hg. cbn [app].
  destruct (decode_stop bad Hb) as [-> _]. now rewrite app_nil_r.
Qed.
End CaseWhole.

Lemma ascii_decodes_fully s : isASCII s = true -> decodes_fully s.
Proof.
  unfold decodes_fully. induction s as [|b s IH]; intros Ha; [reflexivity|].
  cbn [isASCII forallb] in Ha. apply andb_true_iff in Ha as [Hb Hs].
  apply Z.ltb_lt in Hb. unfold RuneSelf in Hb.
  pose proof (b2z_range b) as Rb.
  destruct (decode_step (b :: s) (DecodeRune_ascii b s Hb)) as [_ Hc].
  { unfold RuneError. lia. }
  rewrite Hc. cbn [skipn]. now apply IH.
Qed.

(** X1.  Decoding a character and encoding the rune again gives back the
    bytes of the character, and these decode to the same rune whatever
    follows them: the conversion [[]byte(string(r))] in [CaseReader.Read]
    undoes [utf8.DecodeRune] on every character that the loop accepts. *)
Theorem decoded_character_encodes_back (c t : list byte) :
  is_char c = true ->
  AppendRune (rune_of c) = c
  /\ DecodeRune (AppendRune (rune_of c) ++ t) = (rune_of c, length c).
Proof.
  intros Hc. rewrite (AppendRune_DecodeRune c Hc). split; [reflexivity|].
  destruct (is_char_inv c Hc) as (E & Hr & _).
  now destruct (DecodeRune_app c t E Hr).
Qed.

(** The euro sign, U+20AC, followed by "b". *)
Lemma decoded_character_encodes_back_witness :
  is_char [xe2; x82; xac] = true
  /\ AppendRune (rune_of [xe2; x82; xac]) = [xe2; x82; xac]
  /\ DecodeRune (AppendRune (rune_of [xe2; x82; xac]) ++ [x62])
     = (0x20AC, 3%nat).
Proof.
  split; [reflexivity|].
  apply (decoded_character_encodes_back [xe2; x82; xac] [x62]).
  reflexivity.
Defined.

Section CaseExtras.
Context {tables : CaseTables}.

(** X2.  When the whole input decodes without error, draining the case
    filter gives what [strings.ToUpper] (or [strings.ToLower]) gives on
    the whole input, however the reads cut the input up and whatever the
    sizes of the caller's buffers. *)
Theorem case_filter_is_whole_transform
        (toUpper : bool) (script : list sysread) (sizes : nat -> nat) :
  failure_free script = true ->
  decodes_fully (data_of script) ->
  (forall j, (1 <= sizes j)%nat) ->
  exists fuel,
    ReadAll fuel sizes 0 (CaseReader (FileReader script) toUpper [] [])
    = Some (case_transform toUpper (data_of script), None).
Proof.
  intros Hff Hd Hsizes.
  destruct (ReadAll_CaseReader_File toUpper script sizes Hff Hsizes)
    as [fuel H].
  exists fuel. now rewrite <- case_out_whole.
Qed.

(** X3.  On ASCII input the case filter works byte by byte: "a" to "z"
    become "A" to "Z" under upper_case, "A" to "Z" become "a" to "z"
    under lower_case, and every other byte is passed on as it is; the
    Unicode case tables play no part. *)
Theorem case_filter_on_ascii
        (toUpper : bool) (script : list sysread) (sizes : nat -> nat) :
  failure_free script = true ->
  isASCII (data_of script) = true ->
  (forall j, (1 <= sizes j)%nat) ->
  exists fuel,
    ReadAll fuel sizes 0 (CaseReader (FileReader script) toUpper [] [])
    = Some (map (if toUpper then upper_byte else lower_byte) (data_of script),
            None).
Proof.
  intros Hff Ha Hsizes.
  destruct (ReadAll_CaseReader_File toUpper script sizes Hff Hsizes)
    as [fuel H].
  exists fuel. rewrite H.
  rewrite case_out_whole by now apply ascii_decodes_fully.
  unfold case_transform. destruct toUpper.
  - rewrite strings_ToUpper_shape, ascii_or_map_ascii by assumption.
    reflexivity.
  - rewrite strings_ToLower_shape, ascii_or_map_ascii by assumption.
    reflexivity.
Qed.

(** X4.  The case filter stops for good at the first place where
    decoding reports an error, be it an invalid byte, a character cut
    short by the end of the input, or an encoded U+FFFD: what precedes
    that place comes out transformed, what follows is never delivered,
    and the drain ends without an error. *)
Theorem case_filter_stops_at_undecodable
        (toUpper : bool) (script : list sysread) (good bad : list byte)
        (sizes : nat -> nat) :
  failure_free script = true ->
  data_of script = good ++ bad ->
  decodes_fully good ->
  fst (DecodeRune bad) = RuneError ->
  (forall j, (1 <= sizes j)%nat) ->
  exists fuel,
    ReadAll fuel sizes 0 (CaseReader (FileReader script) toUpper [] [])
    = Some (case_transform toUpper good, None).
Proof.
  intros Hff Hd Hg Hb Hsizes.
  destruct (ReadAll_CaseReader_File toUpper script sizes Hff Hsizes)
    as [fuel H].
  exists fuel. now rewrite H, Hd, case_out_stops.
Qed.
End CaseExtras.

(** "HeLLo" in two reads, drained one byte at a time. *)
Lemma case_filter_is_whole_transform_witness :
  decodes_fully (bytes_of "HeLLo")
  /\ exists fuel,
      ReadAll (tables := identity_tables) fuel (fun _ => 1%nat) 0
              (CaseReader (FileReader [Data (bytes_of "He");
                                       Data (bytes_of "LLo")])
                          true [] [])
      = Some (bytes_of "HELLO", None).
Proof.
  split; [reflexivity|].
  apply (case_filter_is_whole_transform
           (tables := identity_tables) true
           [Data (bytes_of "He"); Data (bytes_of "LLo")] (fun _ => 1%nat));
    [reflexivity|reflexivity|intros; lia].
Defined.

(** "Go 1!" under lower_case. *)
Lemma case_filter_on_ascii_witness :
  isASCII (bytes_of "Go 1!") = true
  /\ exists fuel,
      ReadAll (tables := identity_tables) fuel (fun _ => 2%nat) 0
              (CaseReader (FileReader [Data (bytes_of "Go 1!")]) false [] [])
      = Some (bytes_of "go 1!", None).
Proof.
  split; [reflexivity|].
  apply (case_filter_on_ascii
           (tables := identity_tables) false
           [Data (bytes_of "Go 1!")] (fun _ => 2%nat));
    [reflexivity|reflexivity|intros; lia].
Defined.

(** "a", the invalid byte 0xFF, "b": only "A" comes out. *)
Lemma case_filter_stops_at_undecodable_witness :
  decodes_fully [x61]
  /\ fst (DecodeRune [xff; x62]) = RuneError
  /\ exists fuel,
      ReadAll (tables := identity_tables) fuel (fun _ => 4%nat) 0
              (CaseReader (FileReader [Data [x61; xff; x62]]) true [] [])
      = Some ([x41], None).
Proof.
  split; [reflexivity|]. split; [reflexivity|].
  apply (case_filter_stops_at_undecodable
           (tables := identity_tables) true
           [Data [x61; xff; x62]] [x61] [xff; x62] (fun _ => 4%nat));
    [reflexivity|reflexivity|reflexivity|reflexivity|intros; lia].
Defined.

(* ================================================================== *)
(** * The chain of filters and the window *)

Lemma runes_trim_nil skipped : trim_out skipped [] = [].
Proof. reflexivity. Qed.

Section Chain.
Context {tables : CaseTables}.

(** The chain that [CreateReader] builds stands for the transformations
    applied in the order of the list. *)
Lemma Yields_chain conv : forall base s,
  Yields base s ->
  Yields (CreateReader_chain conv base) (apply_convs conv s).
Proof.
  induction conv as [|val rest IH]; intros base s Hy; [exact Hy|].
  cbn [CreateReader_chain apply_convs fold_left]. apply IH.
  unfold apply_conv.
  destruct (String.eqb val "lower_case"); [now apply Yields_CaseReader|].
  destruct (String.eqb val "upper_case"); [now apply Yields_CaseReader|].
  destruct (String.eqb val "trim_spaces"); [now apply Yields_TrimReader|].
  exact Hy.
Qed.

(** Skipping [N] bytes of a source that has them reads exactly [N]
    bytes: the source is left standing for the rest. *)
Lemma discard_LimitedReader_exact R s :
  Yields R s ->
  forall N acc,
    0 <= N <= Z.of_nat (length s) ->
    exists fuel R',
      discard_ReadFrom fuel (LimitedReader R N) acc
      = Some (LimitedReader R' 0, acc + N, None)
      /\ Yields R' (skipn (Z.to_nat N) s).
Proof.
  induction 1 as [R s Hread Hnext IH]. intros N acc HN.
  destruct (N <=? 0) eqn:E.
  { apply Z.leb_le in E. assert (N = 0) by lia. subst N.
    exists 2%nat, R. split.
    - cbn [discard_ReadFrom]. rewrite Read_LimitedReader. cbn.
      now rewrite Z.add_0_r.
    - cbn [Z.to_nat skipn]. now constructor. }
  apply Z.leb_gt in E.
  set (p := make blackHole_size).
  set (q := if N <? Z.of_nat (length p) then firstn (Z.to_nat N) p else p).
  assert (Hq : (1 <= length q)%nat /\ Z.of_nat (length q) <= N).
  { assert (Hp : length p = blackHole_size) by apply length_make.
    unfold blackHole_size in Hp. subst q.
    destruct (N <? Z.of_nat (length p)) eqn:T.
    - apply Z.ltb_lt in T. rewrite length_firstn. lia.
    - apply Z.ltb_ge in T. lia. }
  destruct Hq as [Hq1 Hq2].
  destruct (Hread q Hq1) as (f0 & [[[R1 q'] n] err] & Hr & Hd).
  cbn [delivers] in Hd. destruct err as [e|].
  { destruct Hd as (_ & _ & _ & ->). cbn [length] in HN. lia. }
  destruct Hd as (Hn1 & Hn2 & _).
  destruct (IH _ _ _ _ _ Hq1 Hr (N - Z.of_nat n) (acc + Z.of_nat n))
    as (f1 & R' & Hdis & Hy).
  { rewrite length_skipn. lia. }
  exists (S (Nat.max (S f0) f1)), R'. split.
  - cbn [discard_ReadFrom].
    assert (HR : Read (S f0) (LimitedReader R N) p
                 = Some (LimitedReader R1 (N - Z.of_nat n),
                         q' ++ skipn (length q) p, n, None)).
    { rewrite Read_LimitedReader.
      destruct (N <=? 0) eqn:E'; [apply Z.leb_le in E'; lia|].
      cbv zeta. fold p. fold q. now rewrite Hr. }
    fold p. rewrite (Read_mono _ _ _ _ HR (Nat.max (S f0) f1)) by lia.
    rewrite (discard_ReadFrom_mono _ _ _ _ Hdis (Nat.max (S f0) f1)) by lia.
    replace (acc + Z.of_nat n + (N - Z.of_nat n)) with (acc + N) by lia.
    reflexivity.
  - rewrite skipn_skipn in Hy.
    replace (Z.to_nat (N - Z.of_nat n) + n)%nat with (Z.to_nat N) in Hy by lia.
    exact Hy.
Qed.

Lemma CopyN_Discard_exact src s n :
  Yields src s -> 0 <= n <= Z.of_nat (length s) ->
  exists fuel src',
    CopyN_Discard fuel src n = Some (src', n, None)
    /\ Yields src' (skipn (Z.to_nat n) s).
Proof.
  intros Hy Hn.
  destruct (discard_LimitedReader_exact src s Hy n 0 Hn)
    as (fuel & src' & H & Hy').
  exists fuel, src'. split; [|exact Hy'].
  unfold CopyN_Discard, LimitReader. rewrite H. cbn [Z.add].
  now rewrite Z.eqb_refl.
Qed.

Lemma CopyN_Discard_mono f src n res :
  CopyN_Discard f src n = Some res ->
  forall f', (f <= f')%nat -> CopyN_Discard f' src n = Some res.
Proof.
  unfold CopyN_Discard. intros H f' Hle.
  destruct (discard_ReadFrom f _ 0) as [[[lr written] err]|] eqn:E;
    [|discriminate].
  now rewrite (discard_ReadFrom_mono _ _ _ _ E f' Hle).
Qed.

Lemma CreateReader_mono f opts w res :
  CreateReader f opts w = Some res ->
  forall f', (f <= f')%nat -> CreateReader f' opts w = Some res.
Proof.
  unfold CreateReader. intros H f' Hle.
  destruct (if String.eqb (From opts) "" then _ else _) as [[r|] [e|]];
    try assumption.
  destruct (CopyN_Discard f r _) as [[[r1 n] err]|] eqn:E; [|discriminate].
  now rewrite (CopyN_Discard_mono _ _ _ _ E f' Hle).
Qed.

(** [CreateReader] on a source that can be opened and has the bytes to
    skip: the reader is the chain over the limited rest of the source. *)
Lemma CreateReader_window opts w script :
  source_script opts w = Some script ->
  failure_free script = true ->
  0 <= Offset opts <= Z.of_nat (length (data_of script)) ->
  Offset opts < 2 ^ 63 ->
  exists fuel R,
    CreateReader fuel opts w
    = Some (Some (CreateReader_chain (Conv opts)
                    (LimitedReader R (int64 (Limit opts)))),
            None,
            if String.eqb (From opts) "" then set_stdin w (source_of R) else w)
    /\ Yields R (skipn (Z.to_nat (Offset opts)) (data_of script)).
Proof.
  intros Hsrc Hff Hoff Hlt.
  destruct (CopyN_Discard_exact (FileReader script) (data_of script)
              (Offset opts) (Yields_FileReader script Hff) Hoff)
    as (fuel & R & Hc & Hy).
  exists fuel, R. split; [|exact Hy].
  unfold CreateReader, source_script, os_Open, LimitReader in *.
  rewrite int64_small by lia.
  destruct (String.eqb (From opts) "").
  - apply Some_inj in Hsrc. subst script. rewrite Hc, Z.ltb_irrefl.
    reflexivity.
  - destruct (lookup (From opts) (files w)) as [[|b content]|];
      [| |discriminate]; apply Some_inj in Hsrc; subst script;
      rewrite Hc, Z.ltb_irrefl; reflexivity.
Qed.
End Chain.

(* ================================================================== *)
(** * The copy and the whole run *)

Lemma lookup_store name v fs : lookup name (store name v fs) = Some v.
Proof.
  induction fs as [|[k v'] fs IH]; cbn [store lookup].
  - now rewrite String.eqb_refl.
  - destruct (String.eqb k name) eqn:E; cbn [lookup]; rewrite E; auto.
Qed.

Lemma store_store name v1 v2 fs :
  store name v2 (store name v1 fs) = store name v2 fs.
Proof.
  induction fs as [|[k v'] fs IH]; cbn [store].
  - now rewrite String.eqb_refl.
  - destruct (String.eqb k name) eqn:E; cbn [store]; rewrite E;
      [reflexivity|now rewrite IH].
Qed.

Lemma Write_Write w d a b : Write (Write w d a) d b = Write w d (a ++ b).
Proof.
  destruct d as [|name]; cbn [Write files stdin stdout stderr].
  - now rewrite app_assoc.
  - rewrite lookup_store, store_store.
    destruct (lookup name (files w)); now rewrite ?app_assoc.
Qed.

Lemma after_writes_app w d a b :
  after_writes (after_writes w d a) d b = after_writes w d (a ++ b).
Proof.
  destruct a as [|x a]; [reflexivity|].
  destruct b as [|y b]; [now rewrite app_nil_r|].
  cbn [after_writes app]. now rewrite Write_Write.
Qed.

Lemma after_writes_Stdout w out : after_writes w Stdout out = with_stdout w out.
Proof.
  destruct out; [|reflexivity].
  destruct w. unfold with_stdout. cbn. now rewrite app_nil_r.
Qed.

Lemma after_writes_created w name out :
  after_writes (with_file w name []) (FileWriter name) out
  = with_file w name out.
Proof.
  destruct out as [|x out]; [reflexivity|].
  unfold with_file. cbn [after_writes Write files stdin stdout stderr].
  now rewrite lookup_store, store_store.
Qed.

Lemma file_script_facts content :
  failure_free (file_script content) = true
  /\ data_of (file_script content) = content.
Proof.
  destruct content; [split; reflexivity|].
  cbn [file_script failure_free data_of]. now rewrite app_nil_r.
Qed.

Lemma source_script_file opts w content :
  From opts <> ""%string ->
  lookup (From opts) (files w) = Some content ->
  source_script opts w = Some (file_script content).
Proof.
  intros Hne Hl. unfold source_script.
  apply String.eqb_neq in Hne. rewrite Hne, Hl. now destruct content.
Qed.

Section Run.
Context {tables : CaseTables} {system : System}.

Lemma copyBuffer_mono : forall f dst src buf w res,
  copyBuffer f dst src buf w = Some res ->
  forall f', (f <= f')%nat -> copyBuffer f' dst src buf w = Some res.
Proof.
  induction f as [|f IH]; intros dst src buf w res H f' Hle; [discriminate|].
  destruct f' as [|f']; [lia|]. apply le_S_n in Hle.
  cbn [copyBuffer] in *.
  destruct (Read f src buf) as [[[[src' buf'] nr] er]|] eqn:E; [|discriminate].
  rewrite (Read_mono _ _ _ _ E f' Hle).
  destruct (if (0 <? nr)%nat then _ else _) as [w'|msg]; [|assumption].
  destruct er; [assumption|]. now apply IH.
Qed.

(** The copy loop writes what the reader stands for, and ends without an
    error. *)
Lemma copyBuffer_Yields d r s :
  Yields r s ->
  forall buf w,
    (1 <= length buf)%nat ->
    exists fuel r',
      copyBuffer fuel (Some d) r buf w
      = Some (r', after_writes w d s, inl None).
Proof.
  induction 1 as [r s Hread Hnext IH]. intros buf w Hb.
  destruct (Hread buf Hb) as (f0 & [[[r1 buf1] n] err] & Hr & Hd).
  cbn [delivers] in Hd. destruct err as [e|].
  - destruct Hd as (-> & -> & -> & ->).
    exists (S f0), r1. cbn [copyBuffer]. rewrite Hr. reflexivity.
  - destruct Hd as (Hn1 & Hn2 & ->).
    set (buf1 := firstn n s ++ skipn n buf) in *.
    assert (Hb1 : (1 <= length buf1)%nat).
    { subst buf1. rewrite length_app, length_firstn, length_skipn. lia. }
    set (w1 := after_writes w d (firstn n s)).
    destruct (IH _ _ _ _ _ Hb Hr buf1 w1 Hb1) as (f1 & r' & H1).
    exists (S (Nat.max f0 f1)), r'. cbn [copyBuffer].
    rewrite (Read_mono _ _ _ _ Hr (Nat.max f0 f1)) by lia.
    assert (Hw : (if (0 <? n)%nat
                  then @inl World string (Write w d (firstn n buf1))
                  else inl w) = inl w1).
    { subst w1 buf1. rewrite firstn_prefix by lia.
      destruct n as [|n]; [reflexivity|].
      destruct s as [|x s]; [cbn [length] in Hn2; lia|]. reflexivity. }
    rewrite Hw.
    rewrite (copyBuffer_mono _ _ _ _ _ _ H1 (Nat.max f0 f1)) by lia.
    subst w1. now rewrite after_writes_app, firstn_skipn.
Qed.

(** [make] does not panic for a length of less than 2^31. *)
Lemma make_fits n : n < 2 ^ 31 -> (maxAlloc <? n) = false.
Proof. intros H. apply Z.ltb_ge. unfold maxAlloc. lia. Qed.

Lemma ParseFlags_ok args conv :
  validatedConvs (flag_conv args) = (conv, None) ->
  ParseFlags args = (Some (options_of args conv), None).
Proof. intros H. unfold ParseFlags. now rewrite H. Qed.

(** A run whose flags are valid, whose reader is built without touching
    the world and stands for [out], and whose writer is [d]: the copy
    writes [out], and the run ends with status 0. *)
Lemma main_run args w conv rd out d w1 f0 :
  validatedConvs (flag_conv args) = (conv, None) ->
  flag_from args <> ""%string ->
  CreateReader f0 (options_of args conv) w = Some (Some rd, None, w) ->
  Yields rd out ->
  1 <= flag_block_size args < 2 ^ 31 ->
  createWriter (flag_to args) w = (Some d, None, w1) ->
  exists fuel, main fuel args w = Some (Exit 0, after_writes w1 d out).
Proof.
  intros Hv Hfrom Hc Hy Hbs Hw.
  destruct (copyBuffer_Yields d _ _ Hy
              (make (Z.to_nat (flag_block_size args))) w1)
    as (f1 & r' & Hcopy).
  { rewrite length_make. lia. }
  exists (Nat.max f0 f1).
  unfold main. rewrite (ParseFlags_ok args conv Hv).
  rewrite (CreateReader_mono _ _ _ _ Hc (Nat.max f0 f1)) by lia.
  cbn [From To BlockSize options_of].
  apply String.eqb_neq in Hfrom. rewrite Hfrom, Hw.
  rewrite make_fits by lia. unfold CopyBuffer.
  rewrite length_make.
  destruct (Z.to_nat (flag_block_size args) =? 0)%nat eqn:E;
    [apply Nat.eqb_eq in E; lia|].
  rewrite (copyBuffer_mono _ _ _ _ _ _ Hcopy (Nat.max f0 f1)) by lia.
  reflexivity.
Qed.

(** The reader of a run whose source file is there and has the bytes to
    skip stands for the window of the file, transformed. *)
Lemma CreateReader_file args w content conv :
  flag_from args <> ""%string ->
  lookup (flag_from args) (files w) = Some content ->
  0 <= flag_offset args <= Z.of_nat (length content) ->
  flag_offset args < 2 ^ 63 ->
  exists f0 rd,
    CreateReader f0 (options_of args conv) w = Some (Some rd, None, w)
    /\ Yields rd
         (apply_convs conv
            (firstn (Z.to_nat (int64 (flag_limit args)))
                    (skipn (Z.to_nat (flag_offset args)) content))).
Proof.
  intros Hfrom Hl Hoff Hlt.
  set (opts := options_of args conv).
  destruct (file_script_facts content) as [Hff Hdata].
  destruct (CreateReader_window opts w (file_script content))
    as (f0 & R & Hc & Hy);
    [now apply source_script_file|assumption|now rewrite Hdata|assumption|].
  rewrite Hdata in Hy.
  exists f0, (CreateReader_chain conv
                (LimitedReader R (int64 (flag_limit args)))).
  split.
  - rewrite Hc. cbn [From Conv Limit opts options_of].
    apply String.eqb_neq in Hfrom. now rewrite Hfrom.
  - apply Yields_chain. now apply Yields_LimitedReader.
Qed.

(** A skip count of 2^63 or more wraps to a negative [int64]: the
    discarding copy reads nothing, and the reader is the chain over the
    whole source. *)
Lemma CreateReader_wrapped_offset args w content conv :
  flag_from args <> ""%string ->
  lookup (flag_from args) (files w) = Some content ->
  2 ^ 63 <= flag_offset args < 2 ^ 64 ->
  CreateReader 2 (options_of args conv) w
  = Some (Some (CreateReader_chain conv
                  (LimitedReader (FileReader (file_script content))
                                 (int64 (flag_limit args)))),
          None, w).
Proof.
  intros Hfrom Hl Hoff.
  assert (Hneg : int64 (flag_offset args) < 0).
  { unfold int64.
    replace (flag_offset args + 2 ^ 63)
      with (flag_offset args - 2 ^ 63 + 1 * 2 ^ 64) by lia.
    rewrite Z.mod_add by lia. rewrite Z.mod_small by lia. lia. }
  unfold CreateReader, os_Open, CopyN_Discard, LimitReader.
  cbn [From Offset Limit Conv options_of].
  apply String.eqb_neq in Hfrom. rewrite Hfrom, Hl.
  assert (Hopen : (match content with
                   | [] => (Some (FileReader []), @None error)
                   | _ :: _ => (Some (FileReader [Data content]), None)
                   end)
                  = (Some (FileReader (file_script content)), None))
    by now destruct content.
  rewrite Hopen.
  cbn [discard_ReadFrom]. rewrite Read_LimitedReader.
  destruct (int64 (flag_offset args) <=? 0) eqn:E;
    [|apply Z.leb_gt in E; lia].
  cbn [is_EOF Z.add Z.of_nat].
  destruct (0 =? int64 (flag_offset args)) eqn:E1;
    [apply Z.eqb_eq in E1; lia|].
  destruct (0 <? int64 (flag_offset args)) eqn:E2;
    [apply Z.ltb_lt in E2; lia|].
  cbv iota beta. rewrite ?E2. reflexivity.
Qed.
End Run.

Section RunExtras.
Context {tables : CaseTables} {system : System}.

Lemma apply_convs_nil conv : apply_convs conv [] = [].
Proof.
  induction conv as [|val rest IH]; [reflexivity|].
  unfold apply_convs in *. cbn [fold_left].
  replace (apply_conv val []) with (@nil byte); [exact IH|].
  unfold apply_conv.
  destruct (String.eqb val "lower_case"); [reflexivity|].
  destruct (String.eqb val "upper_case"); [reflexivity|].
  destruct (String.eqb val "trim_spaces"); reflexivity.
Qed.

(** [createWriter] for a sink that [os.Stat] reports as not existing and
    that [os.Create] creates. *)
Lemma createWriter_new to w :
  to <> EmptyString ->
  lookup to (files w) = None ->
  IsNotExist (Some (stat_error to)) = true ->
  create_error to = None ->
  createWriter to w = (Some (FileWriter to), None, with_file w to []).
Proof.
  intros Hto Habsent Hstat Hcreate.
  unfold createWriter, os_Stat, os_Create.
  apply String.eqb_neq in Hto. now rewrite Hto, Habsent, Hstat, Hcreate.
Qed.

(** A run up to the copy: the flags are accepted, the reader is built
    without touching the world, and [createWriter] returns no error. *)
Lemma main_until_copy args w conv rd d w1 f0 fuel :
  validatedConvs (flag_conv args) = (conv, None) ->
  CreateReader f0 (options_of args conv) w = Some (Some rd, None, w) ->
  createWriter (flag_to args) w = (d, None, w1) ->
  (f0 <= fuel)%nat ->
  main fuel args w
  = if maxAlloc <? flag_block_size args then
      Some (Panic makeslice_len, runtime_panic w1 makeslice_len)
    else
      match CopyBuffer fuel d rd (make (Z.to_nat (flag_block_size args))) w1
      with
      | None => None
      | Some (r, w3, inr msg) =>
          Some (Panic msg,
                runtime_panic
                  (if String.eqb (flag_from args) EmptyString
                   then set_stdin w3 (source_of r) else w3) msg)
      | Some (r, w3, inl (Some err)) =>
          Some (Exit 1,
                Fprintln_stderr
                  (if String.eqb (flag_from args) EmptyString
                   then set_stdin w3 (source_of r) else w3)
                  ("error while copping: " ++ Error err))
      | Some (r, w3, inl None) =>
          Some (Exit 0,
                if String.eqb (flag_from args) EmptyString
                then set_stdin w3 (source_of r) else w3)
      end.
Proof.
  intros Hv Hc Hw Hle.
  unfold main. rewrite (ParseFlags_ok args conv Hv).
  rewrite (CreateReader_mono _ _ _ _ Hc fuel Hle).
  cbn [From To BlockSize options_of]. rewrite Hw. reflexivity.
Qed.

(** X5.  A run with accepted transformations, a source file that is
    there, a skip count within the file and below 2^63, a limit below
    2^63, a block size from 1 to 2^31 - 1 and no sink named: the bytes
    of the file from the skip count on, at most as many as the limit
    says, go through the transformations in the order given and onto
    standard output; nothing else in the world changes and the run ends
    with status 0. *)
Theorem copy_to_standard_output
        (args : CommandLine) (w : World) (content : list byte)
        (conv : list string) :
  validatedConvs (flag_conv args) = (conv, None) ->
  flag_from args <> ""%string ->
  lookup (flag_from args) (files w) = Some content ->
  0 <= flag_offset args <= Z.of_nat (length content) ->
  flag_offset args < 2 ^ 63 ->
  0 <= flag_limit args < 2 ^ 63 ->
  1 <= flag_block_size args < 2 ^ 31 ->
  flag_to args = ""%string ->
  exists fuel,
    main fuel args w
    = Some (Exit 0,
            with_stdout w
              (apply_convs conv (window (options_of args conv) content))).
Proof.
  intros Hv Hfrom Hl Hoff Hlt Hlim Hbs Hto.
  destruct (CreateReader_file args w content conv Hfrom Hl Hoff Hlt)
    as (f0 & rd & Hc & Hy).
  rewrite int64_small in Hy by assumption.
  destruct (main_run args w conv rd _ Stdout w f0 Hv Hfrom Hc Hy Hbs)
    as [fuel H]; [now rewrite Hto|].
  exists fuel. now rewrite H, after_writes_Stdout.
Qed.

(** X6.  The same run (accepted transformations, a source file that is
    there, a skip count within the file and below 2^63, a limit below
    2^63, a block size from 1 to 2^31 - 1) with a sink that names no
    file, that [os.Stat] reports as not existing and that [os.Create]
    creates: the file is created and holds the transformed window at the
    end; standard output is untouched and the run ends with status 0. *)
Theorem copy_to_new_file
        (args : CommandLine) (w : World) (content : list byte)
        (conv : list string) :
  validatedConvs (flag_conv args) = (conv, None) ->
  flag_from args <> ""%string ->
  lookup (flag_from args) (files w) = Some content ->
  0 <= flag_offset args <= Z.of_nat (length content) ->
  flag_offset args < 2 ^ 63 ->
  0 <= flag_limit args < 2 ^ 63 ->
  1 <= flag_block_size args < 2 ^ 31 ->
  flag_to args <> ""%string ->
  lookup (flag_to args) (files w) = None ->
  IsNotExist (Some (stat_error (flag_to args))) = true ->
  create_error (flag_to args) = None ->
  exists fuel,
    main fuel args w
    = Some (Exit 0,
            with_file w (flag_to args)
              (apply_convs conv (window (options_of args conv) content))).
Proof.
  intros Hv Hfrom Hl Hoff Hlt Hlim Hbs Hto Habsent Hstat Hcreate.
  destruct (CreateReader_file args w content conv Hfrom Hl Hoff Hlt)
    as (f0 & rd & Hc & Hy).
  rewrite int64_small in Hy by assumption.
  destruct (main_run args w conv rd _ (FileWriter (flag_to args))
              (with_file w (flag_to args) []) f0 Hv Hfrom Hc Hy Hbs)
    as [fuel H]; [now apply createWriter_new|].
  exists fuel. now rewrite H, after_writes_created.
Qed.

(** X7.  A run whose source file is not there ends with status 1 after
    one line on standard error, whatever the other flags: no sink is
    created and nothing is written. *)
Theorem missing_source_stops_the_run
        (args : CommandLine) (w : World) (conv : list string) (fuel : nat) :
  validatedConvs (flag_conv args) = (conv, None) ->
  flag_from args <> ""%string ->
  lookup (flag_from args) (files w) = None ->
  main fuel args w
  = Some (Exit 1,
          Fprintln_stderr w
            ("can not create reader: open " ++ flag_from args
               ++ ": no such file or directory")).
Proof.
  intros Hv Hfrom Hl.
  unfold main. rewrite (ParseFlags_ok args conv Hv).
  unfold CreateReader, os_Open. cbn [From options_of].
  apply String.eqb_neq in Hfrom. now rewrite Hfrom, Hl.
Qed.

(** X8.  A run that is to skip more bytes than its source file has ends
    with status 1 and the message of the end-of-stream error; the sink is
    not created, although it is named and would be new. *)
Theorem short_source_stops_the_run
        (args : CommandLine) (w : World) (content : list byte)
        (conv : list string) :
  validatedConvs (flag_conv args) = (conv, None) ->
  flag_from args <> ""%string ->
  lookup (flag_from args) (files w) = Some content ->
  Z.of_nat (length content) < flag_offset args < 2 ^ 63 ->
  exists fuel,
    main fuel args w
    = Some (Exit 1, Fprintln_stderr w "can not create reader: EOF").
Proof.
  intros Hv Hfrom Hl Hoff.
  destruct (file_script_facts content) as [Hff Hdata].
  destruct (CopyN_Discard_Yields (FileReader (file_script content))
              (data_of (file_script content)) (flag_offset args)
              (Yields_FileReader _ Hff)) as (fuel & src' & Hc); [lia|].
  rewrite Hdata in Hc.
  destruct (Z.of_nat (length content) <? flag_offset args) eqn:E;
    [|apply Z.ltb_ge in E; lia].
  exists fuel.
  unfold main. rewrite (ParseFlags_ok args conv Hv).
  unfold CreateReader, os_Open. cbn [From Offset options_of].
  rewrite int64_small by lia.
  apply String.eqb_neq in Hfrom. rewrite Hfrom, Hl.
  assert (Hopen : (match content with
                   | [] => (Some (FileReader []), @None error)
                   | _ :: _ => (Some (FileReader [Data content]), None)
                   end)
                  = (Some (FileReader (file_script content)), None))
    by now destruct content.
  now rewrite Hopen, Hc.
Qed.

(** X9.  A block size of zero, with accepted transformations, a source
    file that is there, a skip count within the file and below 2^63,
    and a sink that names no file, that [os.Stat] reports as not
    existing and that [os.Create] creates: the run creates the sink and
    then panics in [io.CopyBuffer].  An empty file is left behind,
    nothing is copied, and the runtime writes its report of the panic
    to standard error. *)
Theorem zero_block_size_panics_after_creating_the_sink
        (args : CommandLine) (w : World) (content : list byte)
        (conv : list string) :
  validatedConvs (flag_conv args) = (conv, None) ->
  flag_from args <> ""%string ->
  lookup (flag_from args) (files w) = Some content ->
  0 <= flag_offset args <= Z.of_nat (length content) ->
  flag_offset args < 2 ^ 63 ->
  flag_block_size args = 0 ->
  flag_to args <> ""%string ->
  lookup (flag_to args) (files w) = None ->
  IsNotExist (Some (stat_error (flag_to args))) = true ->
  create_error (flag_to args) = None ->
  exists fuel,
    main fuel args w
    = Some (Panic "empty buffer in CopyBuffer",
            runtime_panic (with_file w (flag_to args) [])
                          "empty buffer in CopyBuffer")
    /\ exit_status (Panic "empty buffer in CopyBuffer") = 2.
Proof.
  intros Hv Hfrom Hl Hoff Hlt Hbs Hto Habsent Hstat Hcreate.
  destruct (CreateReader_file args w content conv Hfrom Hl Hoff Hlt)
    as (f0 & rd & Hc & _).
  exists f0. split; [|reflexivity].
  rewrite (main_until_copy args w conv rd _ _ f0 f0 Hv Hc
             (createWriter_new _ _ Hto Habsent Hstat Hcreate) (le_n _)).
  rewrite Hbs. cbn [Z.ltb Z.compare maxAlloc].
  unfold CopyBuffer. cbn [Z.to_nat make repeat length Nat.eqb].
  apply String.eqb_neq in Hfrom. now rewrite Hfrom.
Qed.

(** X10.  A skip count of 2^63 or more (and below 2^64) is taken for a
    negative number: nothing is skipped and nothing fails.  With
    accepted transformations, a source file that is there, a limit
    below 2^63, a block size from 1 to 2^31 - 1 and no sink named, the
    run copies the source from its first byte, up to the limit and
    through the transformations, to standard output and ends with
    status 0. *)
Theorem huge_offset_skips_nothing
        (args : CommandLine) (w : World) (content : list byte)
        (conv : list string) :
  validatedConvs (flag_conv args) = (conv, None) ->
  flag_from args <> ""%string ->
  lookup (flag_from args) (files w) = Some content ->
  2 ^ 63 <= flag_offset args < 2 ^ 64 ->
  0 <= flag_limit args < 2 ^ 63 ->
  1 <= flag_block_size args < 2 ^ 31 ->
  flag_to args = ""%string ->
  exists fuel,
    main fuel args w
    = Some (Exit 0,
            with_stdout w
              (apply_convs conv
                 (firstn (Z.to_nat (flag_limit args)) content))).
Proof.
  intros Hv Hfrom Hl Hoff Hlim Hbs Hto.
  pose proof (CreateReader_wrapped_offset args w content conv Hfrom Hl Hoff)
    as Hc.
  destruct (file_script_facts content) as [Hff Hdata].
  pose proof (Yields_chain conv _ _
                (Yields_LimitedReader _ _ (Yields_FileReader _ Hff)
                                      (int64 (flag_limit args)))) as Hy.
  rewrite Hdata in Hy. rewrite int64_small in Hy, Hc by assumption.
  destruct (main_run args w conv _ _ Stdout w 2 Hv Hfrom Hc Hy Hbs)
    as [fuel H]; [now rewrite Hto|].
  exists fuel. now rewrite H, after_writes_Stdout.
Qed.

(** X11.  A limit of 2^63 or more (and below 2^64) is taken for a
    negative number.  With accepted transformations, a source file that
    is there, a skip count within the file and below 2^63, a block size
    from 1 to 2^31 - 1 and no sink named, the run copies nothing and
    ends with status 0, the world as it was. *)
Theorem huge_limit_copies_nothing
        (args : CommandLine) (w : World) (content : list byte)
        (conv : list string) :
  validatedConvs (flag_conv args) = (conv, None) ->
  flag_from args <> ""%string ->
  lookup (flag_from args) (files w) = Some content ->
  0 <= flag_offset args <= Z.of_nat (length content) ->
  flag_offset args < 2 ^ 63 ->
  2 ^ 63 <= flag_limit args < 2 ^ 64 ->
  1 <= flag_block_size args < 2 ^ 31 ->
  flag_to args = ""%string ->
  exists fuel, main fuel args w = Some (Exit 0, w).
Proof.
  intros Hv Hfrom Hl Hoff Hlt Hlim Hbs Hto.
  destruct (CreateReader_file args w content conv Hfrom Hl Hoff Hlt)
    as (f0 & rd & Hc & Hy).
  assert (Hneg : Z.to_nat (int64 (flag_limit args)) = 0%nat).
  { unfold int64.
    replace (flag_limit args + 2 ^ 63)
      with (flag_limit args - 2 ^ 63 + 1 * 2 ^ 64) by lia.
    rewrite Z.mod_add by lia. rewrite Z.mod_small by lia. lia. }
  rewrite Hneg in Hy. cbn [firstn] in Hy. rewrite apply_convs_nil in Hy.
  destruct (main_run args w conv rd _ Stdout w f0 Hv Hfrom Hc Hy Hbs)
    as [fuel H]; [now rewrite Hto|].
  exists fuel. exact H.
Qed.

(** X21.  A sink that names no file and that [os.Create] does not
    create (its directory is missing, say): with accepted
    transformations, a source file that is there and a skip count
    within the file and below 2^63, the run reports the error of
    [os.Create] as the reason why the writer could not be created and
    ends with status 1.  Nothing is created and nothing is copied,
    whatever the limit and the block size. *)
Theorem sink_that_cannot_be_created
        (args : CommandLine) (w : World) (content : list byte)
        (conv : list string) (e : error) :
  validatedConvs (flag_conv args) = (conv, None) ->
  flag_from args <> ""%string ->
  lookup (flag_from args) (files w) = Some content ->
  0 <= flag_offset args <= Z.of_nat (length content) ->
  flag_offset args < 2 ^ 63 ->
  flag_to args <> ""%string ->
  lookup (flag_to args) (files w) = None ->
  IsNotExist (Some (stat_error (flag_to args))) = true ->
  create_error (flag_to args) = Some e ->
  exists fuel,
    main fuel args w
    = Some (Exit 1,
            Fprintln_stderr w ("can not create writer: " ++ Error e)).
Proof.
  intros Hv Hfrom Hl Hoff Hlt Hto Habsent Hstat Hcreate.
  destruct (CreateReader_file args w content conv Hfrom Hl Hoff Hlt)
    as (f0 & rd & Hc & _).
  exists f0. unfold main. rewrite (ParseFlags_ok args conv Hv), Hc.
  cbn [To options_of]. unfold createWriter, os_Stat, os_Create.
  apply String.eqb_neq in Hto. now rewrite Hto, Habsent, Hstat, Hcreate.
Qed.

(** X22.  A sink that names no file and for which [os.Stat] fails with
    an error other than that the file does not exist (a component of
    the path is no directory, say): with accepted transformations, a
    source file that is there and a skip count within the file and
    below 2^63, the run reports that error as the reason why the writer
    could not be created and ends with status 1, without an attempt to
    create the sink. *)
Theorem sink_that_cannot_be_examined
        (args : CommandLine) (w : World) (content : list byte)
        (conv : list string) :
  validatedConvs (flag_conv args) = (conv, None) ->
  flag_from args <> ""%string ->
  lookup (flag_from args) (files w) = Some content ->
  0 <= flag_offset args <= Z.of_nat (length content) ->
  flag_offset args < 2 ^ 63 ->
  flag_to args <> ""%string ->
  lookup (flag_to args) (files w) = None ->
  IsNotExist (Some (stat_error (flag_to args))) = false ->
  exists fuel,
    main fuel args w
    = Some (Exit 1,
            Fprintln_stderr w
              ("can not create writer: " ++ Error (stat_error (flag_to args)))).
Proof.
  intros Hv Hfrom Hl Hoff Hlt Hto Habsent Hstat.
  destruct (CreateReader_file args w content conv Hfrom Hl Hoff Hlt)
    as (f0 & rd & Hc & _).
  exists f0. unfold main. rewrite (ParseFlags_ok args conv Hv), Hc.
  cbn [To options_of]. unfold createWriter, os_Stat.
  apply String.eqb_neq in Hto. now rewrite Hto, Habsent, Hstat.
Qed.

(** X23.  A block size beyond the largest allocation of the runtime,
    2^48 bytes: with accepted transformations, a source file that is
    there, a skip count within the file and below 2^63, and a sink for
    which [createWriter] returns no error, [make] panics when the
    buffer of the copy is made.  This is after [createWriter]: a sink
    that was new is left behind as an empty file.  Nothing is copied,
    and the runtime writes its report of the panic to standard
    error. *)
Theorem huge_block_size_panics
        (args : CommandLine) (w w1 : World) (content : list byte)
        (conv : list string) (d : option writer) :
  validatedConvs (flag_conv args) = (conv, None) ->
  flag_from args <> ""%string ->
  lookup (flag_from args) (files w) = Some content ->
  0 <= flag_offset args <= Z.of_nat (length content) ->
  flag_offset args < 2 ^ 63 ->
  maxAlloc < flag_block_size args ->
  createWriter (flag_to args) w = (d, None, w1) ->
  exists fuel,
    main fuel args w
    = Some (Panic makeslice_len, runtime_panic w1 makeslice_len)
    /\ exit_status (Panic makeslice_len) = 2.
Proof.
  intros Hv Hfrom Hl Hoff Hlt Hbs Hw.
  destruct (CreateReader_file args w content conv Hfrom Hl Hoff Hlt)
    as (f0 & rd & Hc & _).
  exists f0. split; [|reflexivity].
  rewrite (main_until_copy args w conv rd _ _ f0 f0 Hv Hc Hw (le_n _)).
  apply Z.ltb_lt in Hbs. now rewrite Hbs.
Qed.
End RunExtras.

(** "abcdef", skip 2, limit 3, in blocks of 2: "cde". *)
Lemma copy_to_standard_output_witness :
  exists fuel,
    main (tables := identity_tables) (system := usual_system) fuel
         (command 2 3 2 "" "") (world_of (bytes_of "abcdef"))
    = Some (Exit 0, with_stdout (world_of (bytes_of "abcdef")) (bytes_of "cde")).
Proof.
  apply (copy_to_standard_output
           (tables := identity_tables) (system := usual_system)
           (command 2 3 2 "" "")
           (world_of (bytes_of "abcdef")) (bytes_of "abcdef") []);
    try reflexivity; try discriminate; vm_compute; split; congruence.
Defined.

(** " HeLLo " through upper_case and trim_spaces into new.txt. *)
Lemma copy_to_new_file_witness :
  exists fuel,
    main (tables := identity_tables) (system := usual_system) fuel
         (command 0 MaxInt 1024 "upper_case,trim_spaces" "new.txt")
         (world_of (bytes_of " HeLLo "))
    = Some (Exit 0,
            with_file (world_of (bytes_of " HeLLo ")) "new.txt"
                      (bytes_of "HELLO")).
Proof.
  apply (copy_to_new_file
           (tables := identity_tables) (system := usual_system)
           (command 0 MaxInt 1024 "upper_case,trim_spaces" "new.txt")
           (world_of (bytes_of " HeLLo ")) (bytes_of " HeLLo ")
           ["upper_case"; "trim_spaces"]%string);
    try reflexivity; try discriminate; vm_compute; split; congruence.
Defined.

(** No file in.txt. *)
Lemma missing_source_stops_the_run_witness :
  main (tables := identity_tables) (system := usual_system) 0
       (command 0 MaxInt 1024 "" "new.txt")
       {| files := []; stdin := []; stdout := []; stderr := [] |}
  = Some (Exit 1,
          {| files := []; stdin := []; stdout := [];
             stderr := ["can not create reader: open in.txt: no such file or directory"%string] |}).
Proof.
  apply (missing_source_stops_the_run
           (tables := identity_tables) (system := usual_system)
           (command 0 MaxInt 1024 "" "new.txt")
           {| files := []; stdin := []; stdout := []; stderr := [] |} [] 0);
    [reflexivity|discriminate|reflexivity].
Defined.

(** Skipping four bytes of "abc". *)
Lemma short_source_stops_the_run_witness :
  exists fuel,
    main (tables := identity_tables) (system := usual_system) fuel
         (command 4 MaxInt 1024 "" "new.txt") (world_of (bytes_of "abc"))
    = Some (Exit 1,
            Fprintln_stderr (world_of (bytes_of "abc"))
                            "can not create reader: EOF").
Proof.
  apply (short_source_stops_the_run
           (tables := identity_tables) (system := usual_system)
           (command 4 MaxInt 1024 "" "new.txt")
           (world_of (bytes_of "abc")) (bytes_of "abc") []);
    [reflexivity|discriminate|reflexivity|vm_compute; split; reflexivity].
Defined.

(** [-block-size 0 -to new.txt]. *)
Lemma zero_block_size_panics_after_creating_the_sink_witness :
  exists fuel,
    main (tables := identity_tables) (system := usual_system) fuel
         (command 0 MaxInt 0 "" "new.txt") (world_of (bytes_of "abc"))
    = Some (Panic "empty buffer in CopyBuffer",
            {| files := [("in.txt"%string, bytes_of "abc");
                         ("out.txt"%string, bytes_of "old");
                         ("new.txt"%string, [])];
               stdin := []; stdout := [];
               stderr := ["panic: empty buffer in CopyBuffer"%string;
                          "goroutine 1 [running]:"%string] |})
    /\ exit_status (Panic "empty buffer in CopyBuffer") = 2.
Proof.
  apply (zero_block_size_panics_after_creating_the_sink
           (tables := identity_tables) (system := usual_system)
           (command 0 MaxInt 0 "" "new.txt")
           (world_of (bytes_of "abc")) (bytes_of "abc") []);
    try reflexivity; try discriminate; vm_compute; split; congruence.
Defined.

(** [-offset 9223372036854775808] on "abc". *)
Lemma huge_offset_skips_nothing_witness :
  exists fuel,
    main (tables := identity_tables) (system := usual_system) fuel
         (command (2 ^ 63) 2 1024 "" "") (world_of (bytes_of "abc"))
    = Some (Exit 0, with_stdout (world_of (bytes_of "abc")) (bytes_of "ab")).
Proof.
  apply (huge_offset_skips_nothing
           (tables := identity_tables) (system := usual_system)
           (command (2 ^ 63) 2 1024 "" "")
           (world_of (bytes_of "abc")) (bytes_of "abc") []);
    try reflexivity; try discriminate; vm_compute; split; congruence.
Defined.

(** [-limit 18446744073709551615] on "abc". *)
Lemma huge_limit_copies_nothing_witness :
  exists fuel,
    main (tables := identity_tables) (system := usual_system) fuel
         (command 0 (2 ^ 64 - 1) 1024 "" "") (world_of (bytes_of "abc"))
    = Some (Exit 0, world_of (bytes_of "abc")).
Proof.
  apply (huge_limit_copies_nothing
           (tables := identity_tables) (system := usual_system)
           (command 0 (2 ^ 64 - 1) 1024 "" "")
           (world_of (bytes_of "abc")) (bytes_of "abc") []);
    try reflexivity; try discriminate; vm_compute; split; congruence.
Defined.

(** [-to nodir/new.txt]. *)
Lemma sink_that_cannot_be_created_witness :
  exists fuel,
    main (tables := identity_tables) (system := strict_system) fuel
         (command 0 MaxInt 1024 "" "nodir/new.txt") (world_of (bytes_of "abc"))
    = Some (Exit 1,
            Fprintln_stderr (world_of (bytes_of "abc"))
              "can not create writer: open nodir/new.txt: no such file or directory").
Proof.
  apply (sink_that_cannot_be_created
           (tables := identity_tables) (system := strict_system)
           (command 0 MaxInt 1024 "" "nodir/new.txt")
           (world_of (bytes_of "abc")) (bytes_of "abc") []
           (ErrNotExist "nodir/new.txt"));
    try reflexivity; try discriminate; vm_compute; split; congruence.
Defined.

(** [-to in.txt/new.txt]. *)
Lemma sink_that_cannot_be_examined_witness :
  exists fuel,
    main (tables := identity_tables) (system := strict_system) fuel
         (command 0 MaxInt 1024 "" "in.txt/new.txt") (world_of (bytes_of "abc"))
    = Some (Exit 1,
            Fprintln_stderr (world_of (bytes_of "abc"))
              "can not create writer: stat in.txt/new.txt: not a directory").
Proof.
  apply (sink_that_cannot_be_examined
           (tables := identity_tables) (system := strict_system)
           (command 0 MaxInt 1024 "" "in.txt/new.txt")
           (world_of (bytes_of "abc")) (bytes_of "abc") []);
    try reflexivity; try discriminate; vm_compute; split; congruence.
Defined.

(** [-block-size 18446744073709551615 -to new.txt]. *)
Lemma huge_block_size_panics_witness :
  exists fuel,
    main (tables := identity_tables) (system := usual_system) fuel
         (command 0 MaxInt (2 ^ 64 - 1) "" "new.txt")
         (world_of (bytes_of "abc"))
    = Some (Panic makeslice_len,
            {| files := [("in.txt"%string, bytes_of "abc");
                         ("out.txt"%string, bytes_of "old");
                         ("new.txt"%string, [])];
               stdin := []; stdout := [];
               stderr := ["panic: runtime error: makeslice: len out of range"%string;
                          "goroutine 1 [running]:"%string] |})
    /\ exit_status (Panic makeslice_len) = 2.
Proof.
  apply (huge_block_size_panics
           (tables := identity_tables) (system := usual_system)
           (command 0 MaxInt (2 ^ 64 - 1) "" "new.txt")
           (world_of (bytes_of "abc"))
           (with_file (world_of (bytes_of "abc")) "new.txt" [])
           (bytes_of "abc") [] (Some (FileWriter "new.txt")));
    try reflexivity; try discriminate; vm_compute; split; congruence.
Defined.

(* ================================================================== *)
(** * More runs: a sink that is there, standard input *)

Section SinkAndInput.
Context {tables : CaseTables} {system : System}.

(** The copy loop through the nil writer: it ends without an error when
    the reader has nothing to deliver, and panics at the first write
    otherwise; the world is untouched. *)
Lemma copyBuffer_nil_writer r s :
  Yields r s ->
  forall buf w,
    (1 <= length buf)%nat ->
    exists fuel r',
      copyBuffer fuel None r buf w
      = Some (r', w,
              match s with
              | [] => inl None
              | _ :: _ => inr nil_dereference
              end).
Proof.
  induction 1 as [r s Hread Hnext IH]. intros buf w Hb.
  destruct (Hread buf Hb) as (f0 & [[[r1 buf1] n] err] & Hr & Hd).
  cbn [delivers] in Hd. destruct err as [e|].
  - destruct Hd as (-> & -> & -> & ->).
    exists (S f0), r1. cbn [copyBuffer]. rewrite Hr. reflexivity.
  - destruct Hd as (Hn1 & Hn2 & ->). destruct n as [|n].
    + cbn [firstn skipn app] in *.
      destruct (IH _ _ _ _ _ Hb Hr buf w Hb) as (f1 & r' & H1).
      cbn [skipn] in H1.
      exists (S (Nat.max f0 f1)), r'. cbn [copyBuffer].
      rewrite (Read_mono _ _ _ _ Hr (Nat.max f0 f1)) by lia.
      cbn [Nat.ltb Nat.leb].
      now rewrite (copyBuffer_mono _ _ _ _ _ _ H1 (Nat.max f0 f1)) by lia.
    + exists (S f0), r1. cbn [copyBuffer]. rewrite Hr.
      destruct s; [cbn [length] in Hn2; lia|]. reflexivity.
Qed.

(** X12.  A run whose sink names a file that is there (with accepted
    transformations, a source file that is there, a skip count within
    the file and below 2^63, a limit below 2^63 and a block size from 1
    to 2^31 - 1) never reports that: no error comes back from
    [createWriter] and the program prints no message.  With nothing to
    copy the run ends with status 0 and the world as it was; with
    something to copy it panics at the first write, through the nil
    writer: the runtime writes its report of the panic to standard
    error and the process ends with status 2.  The files, the sink
    among them, and standard output are as they were in both cases. *)
Theorem existing_sink_is_not_reported
        (args : CommandLine) (w : World) (content old : list byte)
        (conv : list string) :
  validatedConvs (flag_conv args) = (conv, None) ->
  flag_from args <> ""%string ->
  lookup (flag_from args) (files w) = Some content ->
  0 <= flag_offset args <= Z.of_nat (length content) ->
  flag_offset args < 2 ^ 63 ->
  0 <= flag_limit args < 2 ^ 63 ->
  1 <= flag_block_size args < 2 ^ 31 ->
  flag_to args <> ""%string ->
  lookup (flag_to args) (files w) = Some old ->
  exists fuel o w',
    main fuel args w = Some (o, w')
    /\ match apply_convs conv (window (options_of args conv) content) with
       | [] => o = Exit 0 /\ w' = w
       | _ :: _ =>
           o = Panic nil_dereference
           /\ w' = runtime_panic w nil_dereference
           /\ exit_status o = 2
       end.
Proof.
  intros Hv Hfrom Hl Hoff Hlt Hlim Hbs Hto Hold.
  destruct (CreateReader_file args w content conv Hfrom Hl Hoff Hlt)
    as (f0 & rd & Hc & Hy).
  rewrite int64_small in Hy by assumption.
  destruct (copyBuffer_nil_writer _ _ Hy
              (make (Z.to_nat (flag_block_size args))) w)
    as (f1 & r' & Hcopy).
  { rewrite length_make. lia. }
  exists (Nat.max f0 f1).
  assert (Hw : createWriter (flag_to args) w = (None, None, w)).
  { unfold createWriter, os_Stat.
    apply String.eqb_neq in Hto. now rewrite Hto, Hold. }
  rewrite (main_until_copy args w conv rd _ _ f0 _ Hv Hc Hw)
    by apply Nat.le_max_l.
  rewrite make_fits by lia.
  unfold CopyBuffer. rewrite length_make.
  destruct (Z.to_nat (flag_block_size args) =? 0)%nat eqn:E;
    [apply Nat.eqb_eq in E; lia|].
  rewrite (copyBuffer_mono _ _ _ _ _ _ Hcopy (Nat.max f0 f1)) by lia.
  apply String.eqb_neq in Hfrom. rewrite Hfrom.
  unfold window. cbn [Offset Limit options_of].
  destruct (apply_convs conv _); eexists _, _; (split; [reflexivity|]);
    repeat split.
Qed.

(** X13.  A run without a source file copies from standard input.  With
    accepted transformations, a skip count below 2^63, a limit below
    2^63, a block size from 1 to 2^31 - 1 and no sink named: when the
    reads of standard input do not fail and deliver at least the bytes
    to skip, the transformed window of what they deliver goes to
    standard output and the run ends with status 0.  What the run has
    not read stays on standard input. *)
Theorem copy_from_standard_input
        (args : CommandLine) (w : World) (conv : list string) :
  validatedConvs (flag_conv args) = (conv, None) ->
  flag_from args = ""%string ->
  failure_free (stdin w) = true ->
  0 <= flag_offset args <= Z.of_nat (length (data_of (stdin w))) ->
  flag_offset args < 2 ^ 63 ->
  0 <= flag_limit args < 2 ^ 63 ->
  1 <= flag_block_size args < 2 ^ 31 ->
  flag_to args = ""%string ->
  exists fuel rest,
    main fuel args w
    = Some (Exit 0,
            with_stdout (set_stdin w rest)
              (apply_convs conv
                 (window (options_of args conv) (data_of (stdin w))))).
Proof.
  intros Hv Hfrom Hff Hoff Hlt Hlim Hbs Hto.
  set (opts := options_of args conv).
  destruct (CreateReader_window opts w (stdin w)) as (f0 & R & Hc & Hy);
    [unfold source_script; cbn [From opts options_of]; now rewrite Hfrom
    |assumption|assumption|assumption|].
  cbn [From Conv Limit Offset opts options_of] in Hc, Hy.
  rewrite Hfrom in Hc. cbn [String.eqb] in Hc.
  rewrite int64_small in Hc by assumption.
  pose proof (Yields_chain conv _ _
                (Yields_LimitedReader _ _ Hy (flag_limit args))) as Hout.
  destruct (copyBuffer_Yields Stdout _ _ Hout
              (make (Z.to_nat (flag_block_size args)))
              (set_stdin w (source_of R)))
    as (f1 & r' & Hcopy).
  { rewrite length_make. lia. }
  exists (Nat.max f0 f1), (source_of r').
  unfold main. rewrite (ParseFlags_ok args conv Hv).
  fold opts. rewrite (CreateReader_mono _ _ _ _ Hc (Nat.max f0 f1)) by lia.
  cbn [From To BlockSize opts options_of].
  rewrite Hfrom, Hto. cbn [createWriter String.eqb].
  rewrite make_fits by lia. unfold CopyBuffer.
  rewrite length_make.
  destruct (Z.to_nat (flag_block_size args) =? 0)%nat eqn:E;
    [apply Nat.eqb_eq in E; lia|].
  rewrite (copyBuffer_mono _ _ _ _ _ _ Hcopy (Nat.max f0 f1)) by lia.
  rewrite after_writes_Stdout. reflexivity.
Qed.
End SinkAndInput.

(** "abc" onto a file that is there, and nothing onto it. *)
Lemma existing_sink_is_not_reported_witness :
  (exists fuel o w',
      main (tables := identity_tables) (system := usual_system) fuel
           (command 0 MaxInt 1024 "" "out.txt") (world_of (bytes_of "abc"))
      = Some (o, w')
      /\ o = Panic nil_dereference
      /\ w' = {| files := [("in.txt"%string, bytes_of "abc");
                           ("out.txt"%string, bytes_of "old")];
                 stdin := []; stdout := [];
                 stderr := ["panic: runtime error: invalid memory address or nil pointer dereference"%string;
                            "goroutine 1 [running]:"%string] |}
      /\ exit_status o = 2)
  /\ (exists fuel o w',
         main (tables := identity_tables) (system := usual_system) fuel
              (command 3 MaxInt 1024 "" "out.txt") (world_of (bytes_of "abc"))
         = Some (o, w')
         /\ o = Exit 0 /\ w' = world_of (bytes_of "abc")).
Proof.
  split.
  - apply (existing_sink_is_not_reported
             (tables := identity_tables) (system := usual_system)
             (command 0 MaxInt 1024 "" "out.txt")
             (world_of (bytes_of "abc")) (bytes_of "abc") (bytes_of "old") []);
      try reflexivity; try discriminate; vm_compute; split; congruence.
  - apply (existing_sink_is_not_reported
             (tables := identity_tables) (system := usual_system)
             (command 3 MaxInt 1024 "" "out.txt")
             (world_of (bytes_of "abc")) (bytes_of "abc") (bytes_of "old") []);
      try reflexivity; try discriminate; vm_compute; split; congruence.
Defined.

(** "ab" and "cdef" arrive in two reads; skip 1, limit 4. *)
Lemma copy_from_standard_input_witness :
  exists fuel rest,
    main (tables := identity_tables) (system := usual_system) fuel
         {| flag_from := ""; flag_to := ""; flag_offset := 1; flag_limit := 4;
            flag_block_size := 3; flag_conv := "" |}
         {| files := []; stdout := []; stderr := [];
            stdin := [Data (bytes_of "ab"); Data (bytes_of "cdef")] |}
    = Some (Exit 0,
            {| files := []; stdin := rest; stdout := bytes_of "bcde";
               stderr := [] |}).
Proof.
  apply (copy_from_standard_input
           (tables := identity_tables) (system := usual_system)
           {| flag_from := ""; flag_to := ""; flag_offset := 1; flag_limit := 4;
              flag_block_size := 3; flag_conv := "" |}
           {| files := []; stdout := []; stderr := [];
              stdin := [Data (bytes_of "ab"); Data (bytes_of "cdef")] |} []);
    try reflexivity; try discriminate; vm_compute; split; congruence.
Defined.

(* ================================================================== *)
(** * The accepted transformations *)

Lemma strings_Split_cons s sep :
  exists h t, strings_Split s sep = h :: t.
Proof.
  destruct s as [|c s]; cbn [strings_Split]; [eauto|].
  destruct (Ascii.eqb c sep); [eauto|].
  destruct (strings_Split s sep); eauto.
Qed.

(** Joining what [strings.Split] gives restores the string. *)
Lemma strings_Join_Split sep : forall s,
  strings_Join (strings_Split s sep) sep = s.
Proof.
  induction s as [|c s IH]; [reflexivity|].
  cbn [strings_Split].
  destruct (strings_Split_cons s sep) as (h & t & E). rewrite E in *.
  destruct (Ascii.eqb c sep) eqn:Ec.
  - apply Ascii.eqb_eq in Ec. subst c.
    change (strings_Join (EmptyString :: h :: t) sep)
      with (String sep (strings_Join (h :: t) sep)).
    now rewrite IH.
  - destruct t as [|h2 t].
    + cbn [strings_Join] in *. now rewrite IH.
    + change (strings_Join (String c h :: h2 :: t) sep)
        with (String c (strings_Join (h :: h2 :: t) sep)).
      now rewrite IH.
Qed.

(** X14.  What [validatedConvs] accepts: the names it returns are the
    text of the flag cut at its commas, in their order and with their
    repetitions; each is one of the three transformations, and
    lower_case and upper_case do not both occur.  No name is returned
    exactly when the flag is empty. *)
Theorem accepted_transformations (convs : string) (names : list string) :
  validatedConvs convs = (names, None) ->
  strings_Join names ","%char = convs
  /\ (forall v, In v names -> In v convMap)
  /\ ~ (In "lower_case"%string names /\ In "upper_case"%string names)
  /\ (names = [] <-> convs = EmptyString).
Proof.
  unfold validatedConvs. destruct convs as [|c convs].
  - cbn [String.length Nat.eqb]. intros H. apply pair_equal_spec in H as [<- _].
    repeat split; try reflexivity; try (intros v []); intros [[] _].
  - cbn [String.length Nat.eqb].
    set (s := String c convs).
    set (names0 := strings_Split s ","%char).
    assert (Hj : strings_Join names0 ","%char = s)
      by apply strings_Join_Split.
    destruct (existsb (fun x => negb (convMap_has x)) names0) eqn:Eu.
    + apply existsb_exists in Eu as (x & Hin & Hx).
      apply negb_true_iff in Hx.
      destruct (validatedConvs_loop_unknown names0 false false) as [d Hd];
        [eauto|].
      destruct (validatedConvs_loop names0 false false) as [[hl hu] e].
      cbn [snd] in Hd. subst e. intros H. apply pair_equal_spec in H as [_ H].
      discriminate H.
    + assert (Hk : forall x, In x names0 -> convMap_has x = true).
      { intros x Hin. destruct (convMap_has x) eqn:E; [reflexivity|].
        exfalso. rewrite <- not_true_iff_false in Eu. apply Eu.
        apply existsb_exists. exists x. now rewrite E. }
      rewrite validatedConvs_loop_known by assumption. cbn [orb].
      destruct (existsb (String.eqb "lower_case") names0
                && existsb (String.eqb "upper_case") names0) eqn:Eb;
        intros H; apply pair_equal_spec in H as [H H'];
        [discriminate H'|]. subst names.
      split; [assumption|]. split; [|split].
      * intros v Hv. specialize (Hk v Hv).
        unfold convMap_has in Hk.
        apply existsb_exists in Hk as (y & Hy & Exy).
        apply String.eqb_eq in Exy. now subst y.
      * intros [Hlo Hup]. rewrite !existsb_eqb_In in Eb by assumption.
        discriminate Eb.
      * split; [|discriminate]. intros E0.
        destruct (strings_Split_cons s ","%char) as (h & t & E).
        fold names0 in E. congruence.
Qed.

(** [-conv upper_case,trim_spaces,trim_spaces]. *)
Lemma accepted_transformations_witness :
  strings_Join ["upper_case"; "trim_spaces"; "trim_spaces"]%string ","%char
  = "upper_case,trim_spaces,trim_spaces"%string
  /\ (forall v, In v ["upper_case"; "trim_spaces"; "trim_spaces"]%string ->
                In v convMap)
  /\ ~ (In "lower_case"%string ["upper_case"; "trim_spaces"; "trim_spaces"]%string
        /\ In "upper_case"%string
              ["upper_case"; "trim_spaces"; "trim_spaces"]%string)
  /\ (["upper_case"; "trim_spaces"; "trim_spaces"]%string = []
      <-> "upper_case,trim_spaces,trim_spaces"%string = EmptyString).
Proof.
  apply (accepted_transformations "upper_case,trim_spaces,trim_spaces").
  reflexivity.
Defined.

(* ================================================================== *)
(** * A read into an empty buffer *)

Section EmptyBuffer.
Context {tables : CaseTables}.

(** X15.  A filter that has nothing pending and sits on a window with
    bytes left never returns from a read into a buffer of length zero:
    upstream delivers nothing and no error, the carry buffer has nothing
    that decodes, and the filter calls itself again, in the same state,
    without end.  In the model no amount of fuel gives a result. *)
Theorem empty_buffer_read_never_returns
        (fuel : nat) (pending : list sysread) (N : Z) (rd : reader)
        (toUpper skipped : bool) (buffer : list byte) :
  0 < N ->
  rd = CaseReader (LimitedReader (FileReader pending) N) toUpper [] buffer
  \/ rd = TrimReader (LimitedReader (FileReader pending) N) buffer [] skipped ->
  carry_ok rd ->
  Read fuel rd [] = None.
Proof.
  intros HN Hrd Hc.
  assert (Hup : forall f,
             Read f (LimitedReader (FileReader pending) N) (make 0)
             = None
             \/ Read f (LimitedReader (FileReader pending) N) (make 0)
                = Some (LimitedReader (FileReader pending) N, [], 0%nat, None)).
  { destruct (N <=? 0) eqn:E; [apply Z.leb_le in E; lia|].
    intros [|[|f]]; [now left|left; cbn [Read]; now rewrite E|right].
    cbn [Read make repeat length File_Read Nat.eqb firstn skipn app Z.of_nat].
    rewrite E.
    assert (Hq : (if N <? 0 then firstn (Z.to_nat N) [] else @nil byte) = [])
      by (destruct (N <? 0); [apply firstn_nil|reflexivity]).
    rewrite Hq. cbn [File_Read length Nat.eqb skipn app Z.of_nat].
    now replace (N - 0) with N by lia. }
  induction fuel as [|f IH]; [reflexivity|].
  destruct Hrd as [-> | ->].
  - destruct Hc as [Hr _].
    rewrite Read_CaseReader. cbn [length Nat.eqb negb].
    destruct (Hup f) as [-> | ->]; [reflexivity|].
    cbn [firstn]. rewrite !app_nil_r. unfold case_out. rewrite Hr.
    cbn [case_runes flat_map]. now rewrite carry_of_stuck.
  - destruct Hc as [Hs _].
    rewrite Read_TrimReader. cbn [length Nat.eqb negb].
    destruct (Hup f) as [-> | ->]; [reflexivity|].
    cbn [firstn]. rewrite !app_nil_r.
    rewrite trim_runes_all_spaces by now apply forallb_space.
    cbn [app]. now rewrite <- decode_split.
Qed.
End EmptyBuffer.

(** The two filters as [CreateReader] builds them over "abc". *)
Lemma empty_buffer_read_never_returns_witness :
  Read (tables := identity_tables) 1000
       (CaseReader (LimitedReader (FileReader [Data (bytes_of "abc")]) MaxInt)
                   true [] []) []
  = None.
Proof.
  apply (empty_buffer_read_never_returns
           (tables := identity_tables) 1000 [Data (bytes_of "abc")] MaxInt
           _ true false []);
    [reflexivity|now left|split; [reflexivity|exact I]].
Defined.

(* ================================================================== *)
(** * The trim filter on any input *)

Lemma last_skip_default (l : list (list byte)) : forall d d',
  l <> [] -> last l d = last l d'.
Proof.
  induction l as [|a l IH]; intros d d' H; [contradiction|].
  destruct l as [|b l]; [reflexivity|].
  change (last (b :: l) d = last (b :: l) d'). now apply IH.
Qed.

Lemma last_of_app (a b : list (list byte)) d :
  b <> [] -> last (a ++ b) d = last b d.
Proof.
  intros Hb. induction a as [|x a IH]; [reflexivity|].
  cbn [app]. destruct (a ++ b) eqn:E.
  - destruct a, b; try discriminate E. contradiction.
  - exact IH.
Qed.

(** Every text is some white space, a core, and some white space. *)
Lemma text_parts cs :
  forallb is_char cs = true ->
  exists lead core trail,
    cs = lead ++ core ++ trail
    /\ forallb is_space_char lead = true
    /\ is_core core = true
    /\ forallb is_space_char trail = true.
Proof.
  induction cs as [|c cs IH]; intros H.
  - exists [], [], []. repeat split.
  - cbn [forallb] in H. apply andb_true_iff in H as [Hc Hcs].
    destruct (IH Hcs) as (lead & core & trail & -> & Hl & Hcore & Ht).
    destruct (IsSpace (rune_of c)) eqn:Es.
    + exists (c :: lead), core, trail. repeat split; try assumption.
      cbn [forallb]. unfold is_space_char at 1. now rewrite Hc, Es, Hl.
    + assert (Hink : is_ink_char c = true)
        by (unfold is_ink_char; now rewrite Hc, Es).
      destruct core as [|k core].
      * exists [], [c], (lead ++ trail). repeat split.
        -- unfold is_core. cbn [forallb last]. now rewrite Hc, Hink.
        -- rewrite forallb_app. now rewrite Hl, Ht.
      * exists [], (c :: lead ++ k :: core), trail.
        split; [cbn [app]; now rewrite <- app_assoc|].
        split; [reflexivity|]. split; [|assumption].
        unfold is_core in *.
        apply andb_true_iff in Hcore as [Hchars Hends].
        apply andb_true_iff in Hends as [_ Hlast].
        cbn [forallb]. rewrite forallb_app, Hc, (space_is_char lead Hl), Hchars.
        rewrite Hink. cbn [andb].
        change (last (c :: lead ++ k :: core) c)
          with (last ((c :: lead) ++ k :: core) c).
        rewrite last_of_app by discriminate.
        now rewrite (last_skip_default (k :: core) c k) by discriminate.
Qed.

Lemma tag_decoded rs : Forall good_rc rs -> tag (map snd rs) = rs.
Proof.
  induction 1 as [|[r c] rs [Hc Hr] Hrs IH]; [reflexivity|].
  cbn [map tag snd fst] in *. unfold tag in IH. now rewrite IH, Hr.
Qed.

(** Whatever the input, the trim filter makes of it the core of the
    text in front of the first place that does not decode. *)
Lemma trim_out_parts s :
  exists lead core trail,
    s = concat lead ++ concat core ++ concat trail ++ carry_of s
    /\ forallb is_space_char lead = true
    /\ is_core core = true
    /\ forallb is_space_char trail = true
    /\ trim_out false s = concat core.
Proof.
  pose proof (runes_of_good s) as Hg.
  assert (Hchars : forallb is_char (map snd (runes_of s)) = true).
  { rewrite forallb_forall. intros c Hin.
    apply in_map_iff in Hin as (rc & <- & Hin).
    rewrite Forall_forall in Hg. now apply Hg. }
  destruct (text_parts _ Hchars) as (lead & core & trail & E & Hl & Hc & Ht).
  exists lead, core, trail. repeat split; try assumption.
  - rewrite (decode_split s) at 1. rewrite E, !concat_app.
    now rewrite <- !app_assoc.
  - rewrite <- (trim_out_text lead core trail Hl Hc Ht).
    unfold trim_out. f_equal. f_equal.
    rewrite <- !concat_app, <- E, runes_of_text by assumption.
    now rewrite tag_decoded.
Qed.

Lemma trim_out_idempotent s :
  trim_out false (trim_out false s) = trim_out false s.
Proof.
  destruct (trim_out_parts s) as (lead & core & trail & _ & _ & Hc & _ & ->).
  pose proof (trim_out_text [] core [] eq_refl Hc eq_refl) as H.
  cbn [concat app] in H. now rewrite app_nil_r in H.
Qed.

Section TrimExtras.
Context {tables : CaseTables}.

(** X16.  The trim filter stops at the first byte that does not decode
    and delivers nothing from there on: of a text followed by such a
    byte and anything else, the output is the core of the text, as if
    the input had ended there. *)
Theorem trim_filter_stops_at_undecodable
        (lead core trail : list (list byte)) (bad : list byte)
        (script : list sysread) (sizes : nat -> nat) :
  failure_free script = true ->
  data_of script = concat lead ++ concat core ++ concat trail ++ bad ->
  forallb is_space_char lead = true ->
  is_core core = true ->
  forallb is_space_char trail = true ->
  fst (DecodeRune bad) = RuneError ->
  (forall j, (1 <= sizes j)%nat) ->
  exists fuel,
    ReadAll fuel sizes 0 (TrimReader (FileReader script) [] [] false)
    = Some (concat core, None).
Proof.
  intros Hff Hdata Hl Hc Ht Hbad Hsizes.
  pose proof (Yields_TrimReader _ _ (Yields_FileReader script Hff)) as Hy.
  assert (E : trim_out false (data_of script) = concat core).
  { rewrite <- (trim_out_text lead core trail Hl Hc Ht).
    unfold trim_out. f_equal. f_equal. rewrite Hdata.
    replace (concat lead ++ concat core ++ concat trail ++ bad)
      with ((concat lead ++ concat core ++ concat trail) ++ bad)
      by now rewrite <- !app_assoc.
    rewrite runes_of_app.
    assert (Hfull : carry_of (concat lead ++ concat core ++ concat trail) = []).
    { rewrite <- !concat_app.
      destruct (runes_of_chars (tag (lead ++ core ++ trail)) []) as [_ Hcarry].
      - apply tag_good. rewrite !forallb_app.
        unfold is_core in Hc. apply andb_true_iff in Hc as [Hc _].
        now rewrite (space_is_char lead Hl), Hc, (space_is_char trail Ht).
      - rewrite concat_tag, app_nil_r in Hcarry. exact Hcarry. }
    rewrite Hfull. cbn [app].
    destruct (decode_stop bad Hbad) as [-> _]. now rewrite app_nil_r. }
  rewrite E in Hy. now apply ReadAll_Yields.
Qed.

(** X17.  Two trim filters, one on the other, deliver what one delivers,
    whatever the input, the cuts of the reads and the sizes of the
    caller's buffers. *)
Theorem trim_twice_is_trim_once
        (script : list sysread) (sizes : nat -> nat) :
  failure_free script = true ->
  (forall j, (1 <= sizes j)%nat) ->
  exists out,
    (exists fuel,
        ReadAll fuel sizes 0 (TrimReader (FileReader script) [] [] false)
        = Some (out, None))
    /\ (exists fuel,
           ReadAll fuel sizes 0
                   (TrimReader (TrimReader (FileReader script) [] [] false)
                               [] [] false)
           = Some (out, None)).
Proof.
  intros Hff Hsizes.
  pose proof (Yields_TrimReader _ _ (Yields_FileReader script Hff)) as H1.
  pose proof (Yields_TrimReader _ _ H1) as H2.
  rewrite trim_out_idempotent in H2.
  exists (trim_out false (data_of script)).
  split; now apply ReadAll_Yields.
Qed.
End TrimExtras.

(** " a b " followed by the byte FF and "c": "a b". *)
Lemma trim_filter_stops_at_undecodable_witness :
  exists fuel,
    ReadAll (tables := identity_tables) fuel (fun _ => 2%nat) 0
            (TrimReader
               (FileReader [Data (bytes_of " a b " ++ [xff] ++ bytes_of "c")])
               [] [] false)
    = Some (bytes_of "a b", None).
Proof.
  apply (trim_filter_stops_at_undecodable
           (tables := identity_tables)
           [bytes_of " "] [bytes_of "a"; bytes_of " "; bytes_of "b"]
           [bytes_of " "] ([xff] ++ bytes_of "c")
           [Data (bytes_of " a b " ++ [xff] ++ bytes_of "c")]
           (fun _ => 2%nat));
    try reflexivity; intros; lia.
Defined.

(** "  a  b  " in two reads. *)
Lemma trim_twice_is_trim_once_witness :
  exists out,
    (exists fuel,
        ReadAll (tables := identity_tables) fuel (fun _ => 3%nat) 0
                (TrimReader
                   (FileReader [Data (bytes_of "  a "); Data (bytes_of " b  ")])
                   [] [] false)
        = Some (out, None))
    /\ (exists fuel,
           ReadAll (tables := identity_tables) fuel (fun _ => 3%nat) 0
                   (TrimReader
                      (TrimReader
                         (FileReader
                            [Data (bytes_of "  a "); Data (bytes_of " b  ")])
                         [] [] false)
                      [] [] false)
           = Some (out, None)).
Proof.
  apply (trim_twice_is_trim_once
           (tables := identity_tables)
           [Data (bytes_of "  a "); Data (bytes_of " b  ")] (fun _ => 3%nat));
    [reflexivity|intros; lia].
Defined.

(* ================================================================== *)
(** * A read of the source that fails *)

Lemma File_Read_more pending tail p pending' p' n err :
  failure_free pending = true ->
  File_Read pending p = (pending', p', n, err) ->
  match err with
  | None =>
      failure_free pending' = true
      /\ length (data_of pending) = (n + length (data_of pending'))%nat
      /\ File_Read (pending ++ tail) p = (pending' ++ tail, p', n, None)
  | Some _ =>
      pending = [] /\ pending' = [] /\ n = 0%nat /\ p' = p
      /\ (length p =? 0)%nat = false
  end.
Proof.
  unfold File_Read. intros Hff H.
  destruct (length p =? 0)%nat eqn:Ep.
  - apply pair_equal_spec in H as [H <-].
    apply pair_equal_spec in H as [H <-].
    apply pair_equal_spec in H as [<- <-]. auto.
  - destruct pending as [|[c|e] pending0]; [| |discriminate Hff].
    + apply pair_equal_spec in H as [H <-].
      apply pair_equal_spec in H as [H <-].
      apply pair_equal_spec in H as [<- <-]. auto.
    + cbn [failure_free data_of app] in *.
      apply pair_equal_spec in H as [H <-].
      apply pair_equal_spec in H as [H <-].
      apply pair_equal_spec in H as [<- <-].
      set (k := Nat.min (length p) (length c)).
      destruct (k <? length c)%nat eqn:Ek; cbn [failure_free data_of app].
      * repeat split; auto.
        rewrite !length_app, length_skipn. subst k. lia.
      * apply Nat.ltb_ge in Ek. repeat split; auto.
        rewrite length_app. subst k. lia.
Qed.

Lemma source_of_then_reads tail r :
  source_of (then_reads tail r) = (source_of r ++ tail)%list.
Proof. induction r; cbn [then_reads source_of]; auto. Qed.

Section ReadFailure.
Context {tables : CaseTables} {system : System}.

(** As long as the reader has something to read, the reads that follow
    in the source make no difference; where it finds its source at its
    end, the reader on the longer source finds the failure. *)
Lemma Read_then_reads e rest : forall f r p r' p' n err,
  roomy r ->
  Read f r p = Some (r', p', n, err) ->
  match err with
  | None =>
      roomy r'
      /\ Read f (then_reads (Failure e :: rest) r) p
         = Some (then_reads (Failure e :: rest) r', p', n, None)
  | Some _ =>
      source_of r' = []
      /\ Read f (then_reads (Failure e :: rest) r) p
         = Some (then_reads rest r', p', n, Some e)
  end.
Proof.
  induction f as [|f IH]; intros r p r' p' n err Hroom H; [discriminate|].
  destruct r as [pending|R N|up toUpper mapped buffer|up buffer trimmed skipped].
  - cbn [then_reads]. rewrite Read_FileReader in *.
    destruct (File_Read pending p) as [[[pending1 p1] n1] err1] eqn:E.
    apply Some_inj in H.
    apply pair_equal_spec in H as [H <-].
    apply pair_equal_spec in H as [H <-].
    apply pair_equal_spec in H as [<- <-].
    pose proof (File_Read_more pending (Failure e :: rest) p _ _ _ _ Hroom E)
      as HF.
    destruct err1 as [e1|].
    + destruct HF as (-> & -> & -> & -> & Ep). split; [reflexivity|].
      cbn [app]. unfold File_Read. now rewrite Ep.
    + destruct HF as (Hff & _ & ->). split; [exact Hff|reflexivity].
  - destruct Hroom as [HR HN].
    destruct R as [pending| | |]; try contradiction.
    cbn [then_reads roomy] in *. rewrite Read_LimitedReader in *.
    destruct (N <=? 0) eqn:EN; [apply Z.leb_le in EN; lia|].
    cbv zeta in *.
    set (q := if N <? Z.of_nat (length p) then firstn (Z.to_nat N) p else p)
      in *.
    destruct f as [|f]; [discriminate|]. rewrite Read_FileReader in *.
    destruct (File_Read pending q) as [[[pending1 q1] n1] err1] eqn:E.
    apply Some_inj in H.
    apply pair_equal_spec in H as [H <-].
    apply pair_equal_spec in H as [H <-].
    apply pair_equal_spec in H as [<- <-].
    pose proof (File_Read_more pending (Failure e :: rest) q _ _ _ _ HR E)
      as HF.
    destruct err1 as [e1|].
    + destruct HF as (-> & -> & -> & -> & Ep). split; [reflexivity|].
      cbn [app then_reads]. unfold File_Read. now rewrite Ep.
    + destruct HF as (Hff & Hlen & ->). cbn [roomy then_reads].
      split; [split; [exact Hff|lia]|reflexivity].
  - cbn [then_reads roomy] in *. rewrite Read_CaseReader in *.
    destruct (negb (length mapped =? 0)%nat).
    + destruct (copyFromChecked p mapped) as [[p1 m1] n1].
      apply Some_inj in H.
      apply pair_equal_spec in H as [H <-].
      apply pair_equal_spec in H as [H <-].
      apply pair_equal_spec in H as [<- <-]. split; [exact Hroom|reflexivity].
    + destruct (Read f up (make (length p))) as [[[[up1 b1] n1] err1]|] eqn:E;
        [|discriminate].
      pose proof (IH _ _ _ _ _ _ Hroom E) as HU.
      destruct err1 as [e1|].
      * destruct HU as [Hs ->].
        apply Some_inj in H.
        apply pair_equal_spec in H as [H <-].
        apply pair_equal_spec in H as [H <-].
        apply pair_equal_spec in H as [<- <-]. split; [exact Hs|reflexivity].
      * destruct HU as [Hr1 ->].
        apply (IH (CaseReader up1 toUpper _ _) p r' p' n err Hr1 H).
  - cbn [then_reads roomy] in *. rewrite Read_TrimReader in *.
    destruct (negb (length trimmed =? 0)%nat).
    + destruct (copyFromChecked p trimmed) as [[p1 m1] n1].
      apply Some_inj in H.
      apply pair_equal_spec in H as [H <-].
      apply pair_equal_spec in H as [H <-].
      apply pair_equal_spec in H as [<- <-]. split; [exact Hroom|reflexivity].
    + destruct (Read f up (make (length p))) as [[[[up1 b1] n1] err1]|] eqn:E;
        [|discriminate].
      pose proof (IH _ _ _ _ _ _ Hroom E) as HU.
      destruct err1 as [e1|].
      * destruct HU as [Hs ->].
        apply Some_inj in H.
        apply pair_equal_spec in H as [H <-].
        apply pair_equal_spec in H as [H <-].
        apply pair_equal_spec in H as [<- <-]. split; [exact Hs|reflexivity].
      * destruct HU as [Hr1 ->].
        destruct (trim_runes skipped [] _) as [[out held] sk'].
        apply (IH (TrimReader up1 _ _ _) p r' p' n err Hr1 H).
Qed.

(** The copy that ends at the end of the source ends, on the longer
    source, with the failure, after the same writes. *)
Lemma copyBuffer_then_reads e rest d :
  is_EOF e = false ->
  forall f r buf w r' w',
    roomy r ->
    copyBuffer f (Some d) r buf w = Some (r', w', inl None) ->
    source_of r' = []
    /\ copyBuffer f (Some d) (then_reads (Failure e :: rest) r) buf w
       = Some (then_reads rest r', w', inl (Some e)).
Proof.
  intros He. induction f as [|f IH]; intros r buf w r' w' Hroom H;
    [discriminate|].
  cbn [copyBuffer] in *.
  destruct (Read f r buf) as [[[[src' buf'] nr] er]|] eqn:E; [|discriminate].
  pose proof (Read_then_reads e rest _ _ _ _ _ _ _ Hroom E) as HS.
  destruct er as [e0|].
  - destruct HS as [Hsrc ->].
    destruct (0 <? nr)%nat;
      apply Some_inj in H;
      apply pair_equal_spec in H as [H _];
      apply pair_equal_spec in H as [<- <-];
      rewrite He; auto.
  - destruct HS as [Hr1 ->].
    destruct (0 <? nr)%nat; now apply IH.
Qed.

(** Skipping bytes that the source has does not reach the reads after
    them. *)
Lemma Read_within tail : forall f pending N p r' p' n err,
  failure_free pending = true ->
  N <= Z.of_nat (length (data_of pending)) ->
  Read f (LimitedReader (FileReader pending) N) p = Some (r', p', n, err) ->
  exists pending',
    r' = LimitedReader (FileReader pending') (N - Z.of_nat n)
    /\ failure_free pending' = true
    /\ N - Z.of_nat n <= Z.of_nat (length (data_of pending'))
    /\ (length (data_of pending') <= length (data_of pending))%nat
    /\ Read f (LimitedReader (FileReader (pending ++ tail)) N) p
       = Some (LimitedReader (FileReader (pending' ++ tail)) (N - Z.of_nat n),
               p', n, err).
Proof.
  intros [|f] pending N p r' p' n err Hff HN H; [discriminate|].
  rewrite Read_LimitedReader in *.
  destruct (N <=? 0) eqn:EN.
  - apply Some_inj in H.
    apply pair_equal_spec in H as [H <-].
    apply pair_equal_spec in H as [H <-].
    apply pair_equal_spec in H as [<- <-].
    exists pending. cbn [Z.of_nat]. rewrite Z.sub_0_r. auto.
  - apply Z.leb_gt in EN. cbv zeta in *.
    set (q := if N <? Z.of_nat (length p) then firstn (Z.to_nat N) p else p)
      in *.
    destruct f as [|f]; [discriminate|]. rewrite Read_FileReader in *.
    destruct (File_Read pending q) as [[[pending1 q1] n1] err1] eqn:E.
    apply Some_inj in H.
    apply pair_equal_spec in H as [H <-].
    apply pair_equal_spec in H as [H <-].
    apply pair_equal_spec in H as [<- <-].
    pose proof (File_Read_more pending tail q _ _ _ _ Hff E) as HF.
    destruct err1 as [e1|].
    + destruct HF as (-> & _). cbn [data_of length] in HN. lia.
    + destruct HF as (Hff1 & Hlen & ->). exists pending1.
      repeat split; auto; lia.
Qed.

Lemma discard_within tail : forall f pending N acc lr written err,
  failure_free pending = true ->
  N <= Z.of_nat (length (data_of pending)) ->
  discard_ReadFrom f (LimitedReader (FileReader pending) N) acc
  = Some (lr, written, err) ->
  exists pending' N',
    lr = LimitedReader (FileReader pending') N'
    /\ failure_free pending' = true
    /\ (length (data_of pending') <= length (data_of pending))%nat
    /\ discard_ReadFrom f (LimitedReader (FileReader (pending ++ tail)) N) acc
       = Some (LimitedReader (FileReader (pending' ++ tail)) N', written, err).
Proof.
  induction f as [|f IH]; intros pending N acc lr written err Hff HN H;
    [discriminate|].
  cbn [discard_ReadFrom] in *.
  destruct (Read f (LimitedReader (FileReader pending) N) _)
    as [[[[r1 b1] n1] err1]|] eqn:E; [|discriminate].
  destruct (Read_within tail _ _ _ _ _ _ _ _ Hff HN E)
    as (pending1 & -> & Hff1 & HN1 & Hlen1 & ->).
  destruct err1 as [e1|].
  - apply Some_inj in H.
    apply pair_equal_spec in H as [H <-].
    apply pair_equal_spec in H as [<- <-].
    exists pending1, (N - Z.of_nat n1). auto.
  - destruct (IH _ _ _ _ _ _ Hff1 HN1 H)
      as (pending2 & N2 & -> & Hff2 & Hlen2 & ->).
    exists pending2, N2. repeat split; auto. lia.
Qed.

Lemma CopyN_Discard_within tail f pending n src' k err :
  failure_free pending = true ->
  n <= Z.of_nat (length (data_of pending)) ->
  CopyN_Discard f (FileReader pending) n = Some (src', k, err) ->
  exists pending',
    src' = FileReader pending'
    /\ failure_free pending' = true
    /\ (length (data_of pending') <= length (data_of pending))%nat
    /\ CopyN_Discard f (FileReader (pending ++ tail)) n
       = Some (FileReader (pending' ++ tail), k, err).
Proof.
  unfold CopyN_Discard, LimitReader. intros Hff Hn H.
  destruct (discard_ReadFrom f (LimitedReader (FileReader pending) n) 0)
    as [[[lr written] err1]|] eqn:E; [|discriminate].
  destruct (discard_within tail _ _ _ _ _ _ _ Hff Hn E)
    as (pending1 & N1 & -> & Hff1 & Hlen1 & ->).
  exists pending1.
  destruct (written =? n).
  - apply Some_inj in H.
    apply pair_equal_spec in H as [H <-].
    apply pair_equal_spec in H as [<- <-]. auto.
  - destruct err1 as [e1|].
    + apply Some_inj in H.
      apply pair_equal_spec in H as [H <-].
      apply pair_equal_spec in H as [<- <-]. auto.
    + destruct (written <? n);
        apply Some_inj in H;
        apply pair_equal_spec in H as [H <-];
        apply pair_equal_spec in H as [<- <-]; auto.
Qed.

Lemma roomy_chain conv : forall base,
  roomy base -> roomy (CreateReader_chain conv base).
Proof.
  induction conv as [|val conv IH]; intros base H; [exact H|].
  cbn [CreateReader_chain]. apply IH.
  destruct (String.eqb val "lower_case"); [exact H|].
  destruct (String.eqb val "upper_case"); [exact H|].
  destruct (String.eqb val "trim_spaces"); exact H.
Qed.

Lemma then_reads_chain tail conv : forall base,
  then_reads tail (CreateReader_chain conv base)
  = CreateReader_chain conv (then_reads tail base).
Proof.
  induction conv as [|val conv IH]; intros base; [reflexivity|].
  cbn [CreateReader_chain]. rewrite IH. f_equal.
  destruct (String.eqb val "lower_case"); [reflexivity|].
  destruct (String.eqb val "upper_case"); [reflexivity|].
  destruct (String.eqb val "trim_spaces"); reflexivity.
Qed.

(** X18.  A read of standard input that fails with an error other than
    the end of the file, after reads that did not fail and that
    delivered the bytes to skip, in a run with accepted
    transformations, no source and no sink named, a limit below 2^63
    that the bytes before the failure do not reach, and a block size
    from 1 to 2^31 - 1: what was read before the failure, from the skip
    count on, goes through the transformations and onto standard output
    as if the input had ended there, then the run reports the failure
    on standard error and ends with status 1.  The reads after the
    failure stay on standard input. *)
Theorem read_failure_ends_the_run
        (args : CommandLine) (w : World) (conv : list string)
        (pre rest : list sysread) (e : error) :
  validatedConvs (flag_conv args) = (conv, None) ->
  flag_from args = ""%string ->
  stdin w = (pre ++ Failure e :: rest)%list ->
  failure_free pre = true ->
  is_EOF e = false ->
  0 <= flag_offset args <= Z.of_nat (length (data_of pre)) ->
  Z.of_nat (length (data_of pre)) < flag_limit args < 2 ^ 63 ->
  1 <= flag_block_size args < 2 ^ 31 ->
  flag_to args = ""%string ->
  exists fuel,
    main fuel args w
    = Some (Exit 1,
            Fprintln_stderr
              (with_stdout (set_stdin w rest)
                 (apply_convs conv
                    (skipn (Z.to_nat (flag_offset args)) (data_of pre))))
              ("error while copping: " ++ Error e)).
Proof.
  intros Hv Hfrom Hin Hff He Hoff Hlim Hbs Hto.
  set (tail := Failure e :: rest).
  destruct (CopyN_Discard_exact (FileReader pre) (data_of pre)
              (flag_offset args) (Yields_FileReader pre Hff) Hoff)
    as (f0 & R & Hc & HyR).
  destruct (CopyN_Discard_within tail _ _ _ _ _ _ Hff (proj2 Hoff) Hc)
    as (pre' & -> & Hff' & Hlen' & Hc').
  set (r1 := CreateReader_chain conv
               (LimitedReader (FileReader pre') (flag_limit args))).
  assert (Hroom : roomy r1).
  { apply roomy_chain. cbn [roomy]. split; [exact Hff'|lia]. }
  assert (Hy : Yields r1 (apply_convs conv
                            (skipn (Z.to_nat (flag_offset args))
                                   (data_of pre)))).
  { apply Yields_chain.
    pose proof (Yields_LimitedReader _ _ HyR (flag_limit args)) as HL.
    rewrite firstn_all2 in HL; [exact HL|].
    rewrite length_skipn. lia. }
  destruct (copyBuffer_Yields Stdout _ _ Hy
              (make (Z.to_nat (flag_block_size args)))
              (set_stdin w (pre' ++ tail)))
    as (f1 & r' & Hcopy).
  { rewrite length_make. lia. }
  destruct (copyBuffer_then_reads e rest Stdout He _ _ _ _ _ _ Hroom Hcopy)
    as [Hsrc Hcopy'].
  exists (Nat.max f0 f1).
  unfold main. rewrite (ParseFlags_ok args conv Hv).
  unfold CreateReader. cbn [From To Offset Limit BlockSize Conv options_of].
  rewrite Hfrom, Hto, Hin. cbn [String.eqb].
  rewrite !int64_small by lia. fold tail.
  rewrite (CopyN_Discard_mono _ _ _ _ Hc' (Nat.max f0 f1)) by lia.
  rewrite Z.ltb_irrefl. cbn [createWriter String.eqb source_of].
  rewrite make_fits by lia.
  unfold CopyBuffer, LimitReader. rewrite length_make.
  destruct (Z.to_nat (flag_block_size args) =? 0)%nat eqn:E;
    [apply Nat.eqb_eq in E; lia|].
  fold r1 in Hcopy'. unfold r1 in Hcopy'. rewrite then_reads_chain in Hcopy'.
  cbn [then_reads] in Hcopy'.
  subst tail.
  rewrite (copyBuffer_mono _ _ _ _ _ _ Hcopy' (Nat.max f0 f1)) by lia.
  rewrite source_of_then_reads, Hsrc, after_writes_Stdout. reflexivity.
Qed.
End ReadFailure.

(** "ab" and "cd" arrive, then a read fails; upper case, skip 1. *)
Lemma read_failure_ends_the_run_witness :
  exists fuel,
    main (tables := identity_tables) (system := usual_system) fuel
         {| flag_from := ""; flag_to := ""; flag_offset := 1;
            flag_limit := MaxInt; flag_block_size := 3;
            flag_conv := "upper_case" |}
         {| files := []; stdout := []; stderr := [];
            stdin := [Data (bytes_of "ab"); Data (bytes_of "cd");
                      Failure (ErrIO "read /dev/stdin: input/output error");
                      Data (bytes_of "ef")] |}
    = Some (Exit 1,
            {| files := []; stdin := [Data (bytes_of "ef")];
               stdout := bytes_of "BCD";
               stderr := ["error while copping: read /dev/stdin: input/output error"%string] |}).
Proof.
  apply (read_failure_ends_the_run
           (tables := identity_tables) (system := usual_system)
           {| flag_from := ""; flag_to := ""; flag_offset := 1;
              flag_limit := MaxInt; flag_block_size := 3;
              flag_conv := "upper_case" |}
           {| files := []; stdout := []; stderr := [];
              stdin := [Data (bytes_of "ab"); Data (bytes_of "cd");
                        Failure (ErrIO "read /dev/stdin: input/output error");
                        Data (bytes_of "ef")] |}
           ["upper_case"%string]
           [Data (bytes_of "ab"); Data (bytes_of "cd")]
           [Data (bytes_of "ef")]
           (ErrIO "read /dev/stdin: input/output error"));
    try reflexivity; vm_compute; split; congruence.
Defined.

(* ================================================================== *)
(** * The run without flags *)

Section Defaults.
Context {tables : CaseTables} {system : System}.

(** X19.  Without any flag the run copies standard input to standard
    output unchanged, in blocks of 1024 bytes, reads standard input to
    its end, and ends with status 0: no source and no sink file, nothing
    skipped, the limit [math.MaxInt] and no transformation are the
    defaults. *)
Theorem default_run_copies_input_unchanged (w : World) :
  failure_free (stdin w) = true ->
  Z.of_nat (length (data_of (stdin w))) < MaxInt ->
  exists fuel,
    main fuel no_flags w
    = Some (Exit 0, with_stdout (set_stdin w []) (data_of (stdin w))).
Proof.
  intros Hff Hlen.
  assert (Hmax : MaxInt = 2 ^ 63 - 1) by reflexivity.
  destruct (CopyN_Discard_exact (FileReader (stdin w)) (data_of (stdin w)) 0
              (Yields_FileReader _ Hff) ltac:(lia))
    as (f0 & R & Hc & HyR).
  destruct (CopyN_Discard_within [] f0 (stdin w) 0 R 0 None Hff ltac:(lia) Hc)
    as (pre' & -> & Hff' & Hlen' & _).
  cbn [Z.to_nat skipn] in HyR.
  set (r1 := LimitedReader (FileReader pre') MaxInt).
  assert (Hroom : roomy r1) by (cbn [roomy r1]; split; [exact Hff'|lia]).
  assert (Hy : Yields r1 (data_of (stdin w))).
  { pose proof (Yields_LimitedReader _ _ HyR MaxInt) as HL.
    rewrite firstn_all2 in HL; [exact HL|lia]. }
  destruct (copyBuffer_Yields Stdout _ _ Hy (make (Z.to_nat 1024))
              (set_stdin w pre'))
    as (f1 & r' & Hcopy); [rewrite length_make; lia|].
  destruct (copyBuffer_then_reads ErrSkipping [] Stdout eq_refl
              _ _ _ _ _ _ Hroom Hcopy) as [Hsrc _].
  exists (Nat.max f0 f1).
  unfold main, no_flags, ParseFlags. cbn [flag_conv validatedConvs
    String.length Nat.eqb flag_from flag_to flag_offset flag_limit
    flag_block_size].
  unfold CreateReader. cbn [From To Offset Limit BlockSize Conv String.eqb].
  rewrite !int64_small by lia.
  rewrite (CopyN_Discard_mono _ _ _ _ Hc (Nat.max f0 f1)) by lia.
  rewrite Z.ltb_irrefl. cbn [createWriter String.eqb source_of
    CreateReader_chain].
  change (maxAlloc <? 1024) with false. cbv iota.
  unfold CopyBuffer, LimitReader. rewrite length_make.
  change (Z.to_nat 1024 =? 0)%nat with false. cbv iota.
  fold r1.
  rewrite (copyBuffer_mono _ _ _ _ _ _ Hcopy (Nat.max f0 f1)) by lia.
  rewrite Hsrc, after_writes_Stdout. reflexivity.
Qed.
End Defaults.

(** "hello" and " world" on standard input. *)
Lemma default_run_copies_input_unchanged_witness :
  exists fuel,
    main (tables := identity_tables) (system := usual_system) fuel no_flags
         {| files := []; stdout := []; stderr := [];
            stdin := [Data (bytes_of "hello"); Data (bytes_of " world")] |}
    = Some (Exit 0,
            {| files := []; stdin := []; stdout := bytes_of "hello world";
               stderr := [] |}).
Proof.
  apply (default_run_copies_input_unchanged
           (tables := identity_tables) (system := usual_system)
           {| files := []; stdout := []; stderr := [];
              stdin := [Data (bytes_of "hello"); Data (bytes_of " world")] |});
    [reflexivity|vm_compute; reflexivity].
Defined.

(* ================================================================== *)
(** * A read that fails while bytes are skipped *)

Section SkipFailure.
Context {tables : CaseTables} {system : System}.

Lemma Read_keeps_limited f R N p r' p' n err :
  Read f (LimitedReader R N) p = Some (r', p', n, err) ->
  exists R' N', r' = LimitedReader R' N'.
Proof.
  destruct f as [|f]; [discriminate|]. rewrite Read_LimitedReader.
  destruct (N <=? 0).
  - intros H. apply Some_inj in H.
    apply pair_equal_spec in H as [H _].
    apply pair_equal_spec in H as [H _].
    apply pair_equal_spec in H as [<- _]. eauto.
  - cbv zeta. destruct (Read f R _) as [[[[R1 q1] n1] e1]|]; [|discriminate].
    intros H. apply Some_inj in H.
    apply pair_equal_spec in H as [H _].
    apply pair_equal_spec in H as [H _].
    apply pair_equal_spec in H as [<- _]. eauto.
Qed.

Lemma discard_keeps_limited : forall f R N acc lr k err,
  discard_ReadFrom f (LimitedReader R N) acc = Some (lr, k, err) ->
  exists R' N', lr = LimitedReader R' N'.
Proof.
  induction f as [|f IH]; intros R N acc lr k err H; [discriminate|].
  cbn [discard_ReadFrom] in H.
  destruct (Read f (LimitedReader R N) _) as [[[[r1 b1] n1] e1]|] eqn:E;
    [|discriminate].
  destruct (Read_keeps_limited _ _ _ _ _ _ _ _ E) as (R1 & N1 & ->).
  destruct e1 as [e1|].
  - apply Some_inj in H.
    apply pair_equal_spec in H as [H _].
    apply pair_equal_spec in H as [<- _]. eauto.
  - exact (IH _ _ _ _ _ _ H).
Qed.

(** The discarding copy that ends at the end of the source ends, on the
    longer source, with the failure, after the same count. *)
Lemma discard_then_reads e rest :
  is_EOF e = false ->
  forall f r acc r' written,
    roomy r ->
    discard_ReadFrom f r acc = Some (r', written, None) ->
    source_of r' = []
    /\ discard_ReadFrom f (then_reads (Failure e :: rest) r) acc
       = Some (then_reads rest r', written, Some e).
Proof.
  intros He. induction f as [|f IH]; intros r acc r' written Hroom H;
    [discriminate|].
  cbn [discard_ReadFrom] in *.
  destruct (Read f r _) as [[[[r1 b1] n1] er]|] eqn:E; [|discriminate].
  pose proof (Read_then_reads e rest _ _ _ _ _ _ _ Hroom E) as HS.
  destruct er as [e0|].
  - destruct HS as [Hsrc ->].
    apply Some_inj in H.
    apply pair_equal_spec in H as [H _].
    apply pair_equal_spec in H as [<- <-].
    now rewrite He.
  - destruct HS as [Hr1 ->]. now apply IH.
Qed.

(** X20.  A read of standard input that fails before the bytes to skip
    have all been read: the run reports the failure as the reason why
    the reader could not be created and ends with status 1.  Nothing is
    written, no sink is created, and the reads after the failure stay on
    standard input. *)
Theorem read_failure_while_skipping
        (args : CommandLine) (w : World) (conv : list string)
        (pre rest : list sysread) (e : error) :
  validatedConvs (flag_conv args) = (conv, None) ->
  flag_from args = ""%string ->
  stdin w = (pre ++ Failure e :: rest)%list ->
  failure_free pre = true ->
  is_EOF e = false ->
  Z.of_nat (length (data_of pre)) < flag_offset args < 2 ^ 63 ->
  exists fuel,
    main fuel args w
    = Some (Exit 1,
            Fprintln_stderr (set_stdin w rest)
                            ("can not create reader: " ++ Error e)).
Proof.
  intros Hv Hfrom Hin Hff He Hoff.
  set (r1 := LimitedReader (FileReader pre) (flag_offset args)).
  assert (Hroom : roomy r1) by (cbn [roomy r1]; split; [exact Hff|lia]).
  pose proof (Yields_LimitedReader _ _ (Yields_FileReader pre Hff)
                                   (flag_offset args)) as Hy.
  rewrite firstn_all2 in Hy by lia.
  destruct (discard_ReadFrom_Yields _ _ Hy 0) as (fuel & lr & Hd).
  fold r1 in Hd.
  destruct (discard_keeps_limited _ _ _ _ _ _ _ Hd) as (R' & N' & ->).
  destruct (discard_then_reads e rest He _ _ _ _ _ Hroom Hd) as [Hsrc Hd'].
  cbn [then_reads r1 source_of] in Hd', Hsrc.
  exists fuel.
  unfold main. rewrite (ParseFlags_ok args conv Hv).
  unfold CreateReader, CopyN_Discard, LimitReader.
  cbn [From Offset options_of]. rewrite Hfrom, Hin. cbn [String.eqb].
  rewrite int64_small by lia. rewrite Hd'. cbn [Z.add].
  destruct (Z.of_nat (length (data_of pre)) =? flag_offset args) eqn:E;
    [apply Z.eqb_eq in E; lia|].
  now rewrite source_of_then_reads, Hsrc.
Qed.
End SkipFailure.

(** Two bytes arrive, then a read fails; five were to be skipped. *)
Lemma read_failure_while_skipping_witness :
  exists fuel,
    main (tables := identity_tables) (system := usual_system) fuel
         {| flag_from := ""; flag_to := "new.txt"; flag_offset := 5;
            flag_limit := MaxInt; flag_block_size := 1024; flag_conv := "" |}
         {| files := []; stdout := []; stderr := [];
            stdin := [Data (bytes_of "ab");
                      Failure (ErrIO "read /dev/stdin: input/output error");
                      Data (bytes_of "cdefgh")] |}
    = Some (Exit 1,
            {| files := []; stdin := [Data (bytes_of "cdefgh")]; stdout := [];
               stderr := ["can not create reader: read /dev/stdin: input/output error"%string] |}).
Proof.
  apply (read_failure_while_skipping
           (tables := identity_tables) (system := usual_system)
           {| flag_from := ""; flag_to := "new.txt"; flag_offset := 5;
              flag_limit := MaxInt; flag_block_size := 1024; flag_conv := "" |}
           {| files := []; stdout := []; stderr := [];
              stdin := [Data (bytes_of "ab");
                        Failure (ErrIO "read /dev/stdin: input/output error");
                        Data (bytes_of "cdefgh")] |}
           []
           [Data (bytes_of "ab")]
           [Data (bytes_of "cdefgh")]
           (ErrIO "read /dev/stdin: input/output error"));
    try reflexivity; vm_compute; split; congruence.
Defined.
